(** * DSX job extraction: a verification development

    Shallow embedding of the DSX extraction engine (the module that exports
    [extractDSXJobInfo], [estimateTokenUsage] and [validateExtractedData],
    with its batch functions [processDSXFiles], [createFileTree] and
    [saveAsZip] and what the upload page makes of their results)
    together with the part of the JavaScript runtime it relies on: strings
    as sequences of UTF-16 code units, the backtracking regular-expression
    matcher, [String.prototype] helpers, property lookup on plain objects
    and [JSON.stringify]. *)

From Stdlib Require Import NArith ZArith Lia Bool.
From Stdlib Require Import Strings.Ascii.
From stdpp Require Import base option list strings gmap.

Set Default Proof Using "Type".
Set Warnings "-register-all".
Open Scope N_scope.
Open Scope nat_scope.

(** ** Strings

    A JavaScript string is a sequence of 16-bit code units; a code unit is
    kept as an [N]. *)

Abbreviation str := (list N).

Definition txt (s : string) : str :=
  map N_of_ascii (String.list_ascii_of_string s).
Arguments txt s%_string.

(** The double quote, written apart so that no literal has to escape it. *)
Definition dq : str := [34%N].

Definition str_eqb (a b : str) : bool := bool_decide (a = b).

(** WhiteSpace and LineTerminator of ECMAScript: what [\s] matches and what
    [trim] strips. *)
Definition is_line_terminator (c : N) : bool :=
  (c =? 10)%N || (c =? 13)%N || (c =? 8232)%N || (c =? 8233)%N.

Definition is_space (c : N) : bool :=
  (c =? 9)%N || (c =? 10)%N || (c =? 11)%N || (c =? 12)%N || (c =? 13)%N ||
  (c =? 32)%N || (c =? 160)%N || (c =? 5760)%N ||
  ((8192 <=? c)%N && (c <=? 8202)%N) ||
  (c =? 8232)%N || (c =? 8233)%N || (c =? 8239)%N || (c =? 8287)%N ||
  (c =? 12288)%N || (c =? 65279)%N.

Definition is_digit (c : N) : bool := (48 <=? c)%N && (c <=? 57)%N.

Definition is_upper (c : N) : bool := (65 <=? c)%N && (c <=? 90)%N.
Definition is_lower (c : N) : bool := (97 <=? c)%N && (c <=? 122)%N.

(** [\w] *)
Definition is_word (c : N) : bool :=
  is_upper c || is_lower c || is_digit c || (c =? 95)%N.

(** Canonicalize of a case-insensitive pattern without the unicode flag,
    for the ASCII letters the patterns of this program are made of: a
    character outside ASCII never folds onto an ASCII one. *)
Definition canon (c : N) : N := if is_lower c then (c - 32)%N else c.

Fixpoint trim_start (s : str) : str :=
  match s with
  | c :: tl => if is_space c then trim_start tl else s
  | [] => []
  end.

Definition trim_end (s : str) : str := rev (trim_start (rev s)).

(** [String.prototype.trim] *)
Definition trim (s : str) : str := trim_end (trim_start s).

(** [s.startsWith(p)] *)
Fixpoint starts_with (p s : str) : bool :=
  match p, s with
  | [], _ => true
  | a :: p', b :: s' => (a =? b)%N && starts_with p' s'
  | _ :: _, [] => false
  end.

(** [s.includes(p)] *)
Fixpoint includes (p s : str) : bool :=
  starts_with p s ||
  match s with
  | [] => false
  | _ :: tl => includes p tl
  end.

(** [s.split(sep)] for a non-empty separator [sep]: [cur] holds, reversed,
    the characters of the piece being read. *)
Fixpoint split_go (sep : str) (n : nat) (cur : str) (s : str) : list str :=
  match n with
  | 0 => [rev cur ++ s]
  | S n' =>
    match s with
    | [] => [rev cur]
    | c :: tl =>
      if starts_with sep s
      then rev cur :: split_go sep n' [] (drop (length sep) s)
      else split_go sep n' (c :: cur) tl
    end
  end.

Definition split (sep s : str) : list str := split_go sep (S (length s)) [] s.

(** [s.substring(a, b)] for [a <= b] *)
Definition substring (a b : nat) (s : str) : str := take (b - a) (drop a s).

(** [arr.pop()] on a fresh array: its last element *)
Definition pop (l : list str) : option str := last l.

(** ** Regular expressions

    The patterns of the program, as syntax trees.  [Star true a] is the
    greedy [a*], [Star false a] the lazy [a*?]; [Group i a] is the [i]-th
    capturing parenthesis; a non-capturing [(?:a)] is [a] itself. *)

Inductive regex :=
| Empty
| Chr (f : N → bool)
| Seq (a b : regex)
| Alt (a b : regex)
| Star (greedy : bool) (a : regex)
| Group (i : nat) (a : regex)
| Eos
| WordB.

Declare Scope regex_scope.
Delimit Scope regex_scope with re.
Bind Scope regex_scope with regex.
Infix "∙" := Seq (at level 60, right associativity) : regex_scope.
Infix "│" := Alt (at level 65, right associativity) : regex_scope.

(** a literal character, a literal string *)
Definition chr (c : N) : regex := Chr (N.eqb c).

Fixpoint lit (s : str) : regex :=
  match s with
  | [] => Empty
  | c :: tl => Seq (chr c) (lit tl)
  end.

(** a literal string under the [i] flag *)
Fixpoint lit_i (s : str) : regex :=
  match s with
  | [] => Empty
  | c :: tl => Seq (Chr (λ x, (canon x =? canon c)%N)) (lit_i tl)
  end.

(** [[^c]] *)
Definition notc (c : N) : regex := Chr (λ x, negb (x =? c)%N).
(** [[\s\S]], and [.] under the [s] flag *)
Definition any : regex := Chr (λ _, true).
(** [.] *)
Definition dot : regex := Chr (λ x, negb (is_line_terminator x)).
(** [\s], [\d] *)
Definition ws : regex := Chr is_space.
Definition digit : regex := Chr is_digit.

(** [a+], [a?] *)
Definition plus (a : regex) : regex := Seq a (Star true a).
Definition opt (a : regex) : regex := Alt a Empty.

(** The least number of characters a match of the pattern consumes. *)
Fixpoint min_len (r : regex) : nat :=
  match r with
  | Empty | Eos | WordB | Star _ _ => 0
  | Chr _ => 1
  | Seq a b => min_len a + min_len b
  | Alt a b => min_len a `min` min_len b
  | Group _ a => min_len a
  end.

(** *** The matcher

    A matcher state is the input still to be read and the character just
    before it (which [\b] looks at).  Captures map a group number to the
    text the group matched last. *)

Record st := mkst { prev : option N; rest : str }.

Abbreviation caps := (gmap nat str).

(** the text between two states of one scan *)
Definition consumed (σ σ' : st) : str :=
  take (length (rest σ) - length (rest σ')) (rest σ).

Definition word_at (o : option N) : bool :=
  match o with Some c => is_word c | None => false end.

Definition at_boundary (σ : st) : bool :=
  xorb (word_at (prev σ)) (word_at (head (rest σ))).

Section Matcher.
Context {R : Type}.

Abbreviation cont := (st → caps → option R).

(** The quantifier loop of RepeatMatcher: an iteration that consumes
    nothing is rejected, so there are at most [length (rest σ)] of them;
    [n] bounds their number. *)
Fixpoint star_loop (ma : cont → cont) (g : bool) (k : cont) (n : nat)
    (σ : st) (c : caps) : option R :=
  match n with
  | 0 => k σ c
  | S n' =>
    let iter :=
      ma (λ σ' c',
           if length (rest σ') <? length (rest σ)
           then star_loop ma g k n' σ' c' else None) σ c in
    if g
    then match iter with Some x => Some x | None => k σ c end
    else match k σ c with Some x => Some x | None => iter end
  end.

(** The backtracking matcher in continuation-passing style: alternatives
    are tried left to right, and the first complete match wins. *)
Fixpoint rmatch (r : regex) (k : cont) (σ : st) (c : caps) : option R :=
  match r with
  | Empty => k σ c
  | Chr f =>
    match rest σ with
    | ch :: tl => if f ch then k (mkst (Some ch) tl) c else None
    | [] => None
    end
  | Seq a b => rmatch a (rmatch b k) σ c
  | Alt a b =>
    match rmatch a k σ c with
    | Some x => Some x
    | None => rmatch b k σ c
    end
  | Star g a => star_loop (rmatch a) g k (length (rest σ)) σ c
  | Group i a => rmatch a (λ σ' c', k σ' (<[i := consumed σ σ']> c')) σ c
  | Eos => match rest σ with [] => k σ c | _ :: _ => None end
  | WordB => if at_boundary σ then k σ c else None
  end.

End Matcher.

(** What [exec] returns: the index of the match, the matched text, the
    captures and the state right after the match. *)
Record rmatch_result := mkmatch {
  m_index : nat;
  m_text : str;
  m_caps : caps;
  m_after : st
}.

(** [match[i]] for a group that can be undefined *)
Definition cap (mt : rmatch_result) (i : nat) : option str := m_caps mt !! i.

(** [match[i]] used as a string *)
Definition grp (mt : rmatch_result) (i : nat) : str := default [] (cap mt i).

Definition m_end (mt : rmatch_result) : nat := m_index mt + length (m_text mt).

(** The first match at or after the current position, the positions tried
    from left to right; [idx] is the index of the current position in the
    whole input. *)
Definition found (σ' : st) (c' : caps) : option (st * caps) := Some (σ', c').

Fixpoint search (re : regex) (idx : nat) (p : option N) (s : str)
    : option rmatch_result :=
  match rmatch re found (mkst p s) ∅ with
  | Some (σ', c') => Some (mkmatch idx (consumed (mkst p s) σ') c' σ')
  | None =>
    match s with
    | [] => None
    | ch :: tl => search re (S idx) (Some ch) tl
    end
  end.

(** [s.match(re)] and [re.exec(s)] for a pattern without the [g] flag *)
Definition re_match (re : regex) (s : str) : option rmatch_result :=
  search re 0 None s.

(** [re.test(s)] *)
Definition re_test (re : regex) (s : str) : bool :=
  bool_decide (is_Some (re_match re s)).

(** [while ((m = re.exec(s)) !== null) { ... }] for a pattern with the [g]
    flag: the matches in order, each search starting where the previous
    match ended.  A match that leaves [lastIndex] where it was would be
    found again for ever: the loop does not end, which is [None]. *)
Fixpoint exec_loop (re : regex) (fuel : nat) (idx : nat) (p : option N)
    (s : str) : option (list rmatch_result) :=
  match fuel with
  | 0 => None
  | S fuel' =>
    match search re idx p s with
    | None => Some []
    | Some mt =>
      if length (rest (m_after mt)) <? length s
      then cons mt <$> exec_loop re fuel' (m_end mt)
                         (prev (m_after mt)) (rest (m_after mt))
      else None
    end
  end.

Definition exec_all (re : regex) (s : str) : option (list rmatch_result) :=
  exec_loop re (S (length s)) 0 None s.

(** [s.replace(re, rep)] for a pattern with the [g] flag and a replacement
    without [$]: after an empty match the scan steps over one character. *)
Fixpoint replace_loop (re : regex) (rep : str) (fuel : nat) (p : option N)
    (s : str) : str :=
  match fuel with
  | 0 => s
  | S fuel' =>
    match search re 0 p s with
    | None => s
    | Some mt =>
      let σ' := m_after mt in
      take (m_index mt) s ++ rep ++
      match m_text mt, rest σ' with
      | [], [] => []
      | [], ch :: tl => ch :: replace_loop re rep fuel' (Some ch) tl
      | _ :: _, _ => replace_loop re rep fuel' (prev σ') (rest σ')
      end
    end
  end.

Definition replace_all (re : regex) (rep : str) (s : str) : str :=
  replace_loop re rep (S (length s)) None s.

(** [s.match(re)] for a pattern with the [g] flag: the matched texts, or
    [null] when there is none. *)
Fixpoint match_loop (re : regex) (fuel : nat) (p : option N) (s : str)
    : list str :=
  match fuel with
  | 0 => []
  | S fuel' =>
    match search re 0 p s with
    | None => []
    | Some mt =>
      let σ' := m_after mt in
      m_text mt ::
      match m_text mt, rest σ' with
      | [], [] => []
      | [], ch :: tl => match_loop re fuel' (Some ch) tl
      | _ :: _, _ => match_loop re fuel' (prev σ') (rest σ')
      end
    end
  end.

Definition match_all (re : regex) (s : str) : option (list str) :=
  match match_loop re (S (length s)) None s with
  | [] => None
  | l => Some l
  end.

(** [parseInt(s, 10)]: leading white space and one sign are skipped, the
    longest run of decimal digits is read; [None] is NaN.  The result is
    only compared with small integers, so the rounding of large numbers to
    doubles plays no part. *)
Fixpoint digits_value (acc : N) (s : str) : N :=
  match s with
  | c :: tl => if is_digit c then digits_value (acc * 10 + (c - 48))%N tl else acc
  | [] => acc
  end.

Definition parseInt (s : str) : option Z :=
  let s1 := trim_start s in
  let '(neg, s2) :=
    match s1 with
    | 45%N :: tl => (true, tl)
    | 43%N :: tl => (false, tl)
    | _ => (false, s1)
    end in
  match s2 with
  | c :: _ =>
    if is_digit c
    then Some (if neg then (- Z.of_N (digits_value 0 s2))%Z
               else Z.of_N (digits_value 0 s2))
    else None
  | [] => None
  end.

(** ** Plain objects read as maps

    [o[k]] on an object made by a literal or from [{}] first looks among the
    object's own properties and then on [Object.prototype], whose members
    (functions, and the prototype object itself under [__proto__]) are
    objects, hence truthy.  A [value] is what such a read can give where the
    program expects a string. *)

Inductive value :=
| VStr (s : str)
| VObj (key : str).

#[global] Instance value_eq_dec : EqDecision value.
Proof. solve_decision. Defined.

Definition proto_keys : list str :=
  [ txt "constructor"; txt "__defineGetter__"; txt "__defineSetter__";
    txt "hasOwnProperty"; txt "__lookupGetter__"; txt "__lookupSetter__";
    txt "isPrototypeOf"; txt "propertyIsEnumerable"; txt "toString";
    txt "valueOf"; txt "__proto__"; txt "toLocaleString" ].

Definition inherited (k : str) : bool := bool_decide (k ∈ proto_keys).

(** [o[k]]; [None] is [undefined] *)
Definition obj_get (o : gmap str str) (k : str) : option value :=
  match o !! k with
  | Some v => Some (VStr v)
  | None => if inherited k then Some (VObj k) else None
  end.

(** [o[k] = v] for a string [v]: the [__proto__] setter ignores a value
    that is not an object, and no own property is made. *)
Definition obj_set (k v : str) (o : gmap str str) : gmap str str :=
  if str_eqb k (txt "__proto__") then o else <[k := v]> o.

(** [x || d] *)
Definition or_value (x : option value) (d : str) : value :=
  match x with
  | Some (VStr ((_ :: _) as s)) => VStr s
  | Some (VObj k) => VObj k
  | Some (VStr []) | None => VStr d
  end.

Definition or_undef (x : option str) (d : str) : str :=
  match x with
  | Some ((_ :: _) as s) => s
  | Some [] | None => d
  end.

(** [String(v)] as V8 prints it: a native function shows its name, the
    prototype object shows as every plain object does. *)
Definition value_to_string (v : value) : str :=
  match v with
  | VStr s => s
  | VObj k =>
    if str_eqb k (txt "__proto__") then txt "[object Object]"
    else txt "function " ++
         (if str_eqb k (txt "constructor") then txt "Object" else k) ++
         txt "() { [native code] }"
  end.

(** ** The data model (types/dsxTypes) *)

Record DSXParameter := {
  p_name : str;
  p_prompt : str;
  p_default : str;
  p_help : str;
  p_type : value
}.

Record DSXColumn := {
  c_name : str;
  c_type : value;
  c_nullable : bool;
  c_derivation : option str
}.

Record DSXSource := {
  s_name : str;
  s_type : value;
  s_columns : list DSXColumn;
  s_sql : option str;
  s_where_clauses : option (list str);
  s_table : option str;
  s_connection : option str;
  s_database : option str
}.

(** A target is built in two places, with different fields in a different
    order: from a property block of context 2, and from a dataset field. *)
Record TableTarget := {
  t_name : str;
  t_type : value;
  t_columns : list DSXColumn;
  t_table : option str;
  t_mode : option str;
  t_connection : option str;
  t_database : option str
}.

Record DatasetTarget := {
  d_type : str;
  d_dataset : str;
  d_name : option str;
  d_mode : option str
}.

Inductive DSXTarget :=
| OfTable (t : TableTarget)
| OfDataset (d : DatasetTarget).

(** [target.name]; [None] is [undefined] *)
Definition target_name (t : DSXTarget) : option str :=
  match t with
  | OfTable t => Some (t_name t)
  | OfDataset d => d_name d
  end.

Record DSXTransform := {
  x_name : str;
  x_rules : list str;
  x_input : option str;
  x_output : option str;
  x_reject_conditions : option (list str)
}.

Record DSXLookup := {
  l_name : str;
  l_type : str;
  l_inputs : list str;
  l_output : str;
  l_key_columns : list str;
  l_fail_mode : str;
  l_lookup_type : option value;
  l_residual_handling : option str
}.

Record DSXSqlScript := {
  q_stage : str;
  q_type : str;
  q_sql : str
}.

Record DSXFilter := {
  flt_name : str;
  flt_condition : str;
  flt_input : option str;
  flt_output : option str
}.

(** [specialized_stages] is [any[]]; of an element only [name] is read. *)
Record SpecializedStage := {
  z_name : option str
}.

(** What [flowEntry.columns] can hold.  It is read from the column table
    under the link name: the column list registered under that name; or,
    when no list is registered under it, what the table inherits under it:
    a member of [Object.prototype] or of [Array.prototype] ([ColsObj]; a
    function, or the prototype object itself), and, once the table has been
    re-parented onto a column list, the length of that list or one of its
    columns. *)
Inductive flow_columns :=
| ColsOwn (l : list DSXColumn)
| ColsObj (key : str)
| ColsLength (n : nat)
| ColsItem (c : DSXColumn).

Record DSXFlow := {
  f_link : str;
  f_from : value;
  f_to : value;
  f_columns : option flow_columns
}.

Record Metadata := {
  extractedAt : str;
  version : str;
  tokenCount : option nat
}.

Record DSXJobInfo := {
  name : str;
  description : str;
  type : value;
  parameters : list DSXParameter;
  sources : list DSXSource;
  targets : list DSXTarget;
  transforms : list DSXTransform;
  sql_scripts : list DSXSqlScript;
  lookups : list DSXLookup;
  filters : list DSXFilter;
  specialized_stages : list SpecializedStage;
  flow : list DSXFlow;
  metadata : Metadata
}.

Record TokenUsage := {
  total : nat;
  breakdown : list (str * nat)
}.

(** ** JSON.stringify

    [json] is what is left of a value once the properties holding
    [undefined] or a function have been dropped; an object keeps its
    properties in the order they were created. *)

Inductive json :=
| JString (s : str)
| JNumber (n : nat)
| JBool (b : bool)
| JArray (items : list json)
| JObject (fields : list (str * json)).

Definition hex_digit (n : N) : N :=
  if (n <? 10)%N then (48 + n)%N else (87 + n)%N.

(** [\uXXXX], in lower-case hexadecimal *)
Definition unicode_escape (c : N) : str :=
  [92; 117; hex_digit (c / 4096 mod 16); hex_digit (c / 256 mod 16);
   hex_digit (c / 16 mod 16); hex_digit (c mod 16)]%N.

Definition is_lead_surrogate (c : N) : bool := (55296 <=? c)%N && (c <=? 56319)%N.
Definition is_trail_surrogate (c : N) : bool := (56320 <=? c)%N && (c <=? 57343)%N.

Definition escape_unit (c : N) : str :=
  if (c =? 8)%N then txt "\b"
  else if (c =? 9)%N then txt "\t"
  else if (c =? 10)%N then txt "\n"
  else if (c =? 12)%N then txt "\f"
  else if (c =? 13)%N then txt "\r"
  else if (c =? 34)%N then [92; 34]%N
  else if (c =? 92)%N then [92; 92]%N
  else if (c <? 32)%N then unicode_escape c
  else [c].

(** QuoteJSONString without the enclosing quotes: a surrogate is kept only
    as half of a well-formed pair. *)
Fixpoint quote_body (s : str) : str :=
  match s with
  | [] => []
  | c :: tl =>
    if is_lead_surrogate c then
      match tl with
      | d :: tl' =>
        if is_trail_surrogate d then c :: d :: quote_body tl'
        else unicode_escape c ++ quote_body tl
      | [] => unicode_escape c
      end
    else if is_trail_surrogate c then unicode_escape c ++ quote_body tl
    else escape_unit c ++ quote_body tl
  end.

Definition quote (s : str) : str := dq ++ quote_body s ++ dq.

(** the decimal digits of a natural number *)
Fixpoint decimal_go (fuel : nat) (n : nat) (acc : str) : str :=
  match fuel with
  | 0 => acc
  | S fuel' =>
    let acc' := (48 + N.of_nat (n mod 10))%N :: acc in
    if n / 10 =? 0 then acc' else decimal_go fuel' (n / 10) acc'
  end.

Definition decimal (n : nat) : str := decimal_go (S n) n [].

Fixpoint join (sep : str) (l : list str) : str :=
  match l with
  | [] => []
  | [x] => x
  | x :: tl => x ++ sep ++ join sep tl
  end.

Fixpoint stringify (j : json) : str :=
  match j with
  | JString s => quote s
  | JNumber n => decimal n
  | JBool b => if b then txt "true" else txt "false"
  | JArray items =>
    txt "[" ++ join (txt ",") (map stringify items) ++ txt "]"
  | JObject fields =>
    txt "{" ++
    join (txt ",")
      (map (λ kv, quote (fst kv) ++ txt ":" ++ stringify (snd kv)) fields) ++
    txt "}"
  end.

(** property lists: a property is left out when its value is [undefined] *)
Definition field (k : string) (j : json) : list (str * json) := [(txt k, j)].
Arguments field k%_string j.

Definition field_opt (k : string) (j : option json) : list (str * json) :=
  match j with Some j => [(txt k, j)] | None => [] end.
Arguments field_opt k%_string j.

Definition jstrs (l : list str) : json := JArray (map JString l).

(** a [value] as a property: a function is left out, the prototype object
    has no enumerable property of its own *)
Definition field_value (k : string) (v : value) : list (str * json) :=
  match v with
  | VStr s => [(txt k, JString s)]
  | VObj key =>
    if str_eqb key (txt "__proto__") then [(txt k, JObject [])] else []
  end.
Arguments field_value k%_string v.

Definition json_of_parameter (p : DSXParameter) : json :=
  JObject (field "name" (JString (p_name p)) ++
           field "prompt" (JString (p_prompt p)) ++
           field "default" (JString (p_default p)) ++
           field "help" (JString (p_help p)) ++
           field_value "type" (p_type p)).

Definition json_of_column (c : DSXColumn) : json :=
  JObject (field "name" (JString (c_name c)) ++
           field_value "type" (c_type c) ++
           field "nullable" (JBool (c_nullable c)) ++
           field_opt "derivation" (JString <$> c_derivation c)).

Definition json_of_columns (l : list DSXColumn) : json :=
  JArray (map json_of_column l).

Definition json_of_source (s : DSXSource) : json :=
  JObject (field "name" (JString (s_name s)) ++
           field_value "type" (s_type s) ++
           field "columns" (json_of_columns (s_columns s)) ++
           field_opt "sql" (JString <$> s_sql s) ++
           field_opt "where_clauses" (jstrs <$> s_where_clauses s) ++
           field_opt "table" (JString <$> s_table s) ++
           field_opt "connection" (JString <$> s_connection s) ++
           field_opt "database" (JString <$> s_database s)).

Definition json_of_target (t : DSXTarget) : json :=
  match t with
  | OfTable t =>
    JObject (field "name" (JString (t_name t)) ++
             field_value "type" (t_type t) ++
             field "columns" (json_of_columns (t_columns t)) ++
             field_opt "table" (JString <$> t_table t) ++
             field_opt "mode" (JString <$> t_mode t) ++
             field_opt "connection" (JString <$> t_connection t) ++
             field_opt "database" (JString <$> t_database t))
  | OfDataset d =>
    JObject (field "type" (JString (d_type d)) ++
             field "dataset" (JString (d_dataset d)) ++
             field_opt "name" (JString <$> d_name d) ++
             field_opt "mode" (JString <$> d_mode d))
  end.

Definition json_of_transform (x : DSXTransform) : json :=
  JObject (field "name" (JString (x_name x)) ++
           field "rules" (jstrs (x_rules x)) ++
           field_opt "input" (JString <$> x_input x) ++
           field_opt "output" (JString <$> x_output x) ++
           field_opt "reject_conditions" (jstrs <$> x_reject_conditions x)).

Definition json_of_sql_script (q : DSXSqlScript) : json :=
  JObject (field "stage" (JString (q_stage q)) ++
           field "type" (JString (q_type q)) ++
           field "sql" (JString (q_sql q))).

Definition json_of_lookup (l : DSXLookup) : json :=
  JObject (field "name" (JString (l_name l)) ++
           field "type" (JString (l_type l)) ++
           field "inputs" (jstrs (l_inputs l)) ++
           field "output" (JString (l_output l)) ++
           field "key_columns" (jstrs (l_key_columns l)) ++
           field "fail_mode" (JString (l_fail_mode l)) ++
           match l_lookup_type l with
           | Some v => field_value "lookup_type" v
           | None => []
           end ++
           field_opt "residual_handling" (JString <$> l_residual_handling l)).

Definition json_of_filter (f : DSXFilter) : json :=
  JObject (field "name" (JString (flt_name f)) ++
           field "condition" (JString (flt_condition f)) ++
           field_opt "input" (JString <$> flt_input f) ++
           field_opt "output" (JString <$> flt_output f)).

Definition json_of_specialized (z : SpecializedStage) : json :=
  JObject (field_opt "name" (JString <$> z_name z)).

Definition json_of_flow (f : DSXFlow) : json :=
  JObject (field "link" (JString (f_link f)) ++
           field_value "from" (f_from f) ++
           field_value "to" (f_to f) ++
           match f_columns f with
           | Some (ColsOwn l) => field "columns" (json_of_columns l)
           | Some (ColsObj k) => field_value "columns" (VObj k)
           | Some (ColsLength n) => field "columns" (JNumber n)
           | Some (ColsItem c) => field "columns" (json_of_column c)
           | None => []
           end).

Definition json_of_metadata (m : Metadata) : json :=
  JObject (field "extractedAt" (JString (extractedAt m)) ++
           field "version" (JString (version m)) ++
           field_opt "tokenCount" (JNumber <$> tokenCount m)).

(** the array-valued sections of a job, in the order of its keys *)
Definition sections (data : DSXJobInfo) : list (str * json) :=
  field "parameters" (JArray (map json_of_parameter (parameters data))) ++
  field "sources" (JArray (map json_of_source (sources data))) ++
  field "targets" (JArray (map json_of_target (targets data))) ++
  field "transforms" (JArray (map json_of_transform (transforms data))) ++
  field "sql_scripts" (JArray (map json_of_sql_script (sql_scripts data))) ++
  field "lookups" (JArray (map json_of_lookup (lookups data))) ++
  field "filters" (JArray (map json_of_filter (filters data))) ++
  field "specialized_stages"
    (JArray (map json_of_specialized (specialized_stages data))) ++
  field "flow" (JArray (map json_of_flow (flow data))).

Definition json_of_job (data : DSXJobInfo) : json :=
  JObject (field "name" (JString (name data)) ++
           field "description" (JString (description data)) ++
           field_value "type" (type data) ++
           sections data ++
           field "metadata" (json_of_metadata (metadata data))).

(** [JSON.stringify(data)] *)
Definition JSON_stringify (data : DSXJobInfo) : str := stringify (json_of_job data).

(** [Math.ceil(n / 4)] *)
Definition ceil4 (n : nat) : nat := n / 4 + (if n mod 4 =? 0 then 0 else 1).

Definition estimateTokenUsage (data : DSXJobInfo) : TokenUsage :=
  let jsonStr := JSON_stringify data in
  let totalTokens := ceil4 (length jsonStr) in
  let breakdown :=
    map (λ kv, (fst kv, ceil4 (length (stringify (snd kv))))) (sections data) in
  let basicInfo :=
    JObject (field "name" (JString (name data)) ++
             field "description" (JString (description data)) ++
             field_value "type" (type data) ++
             field "metadata" (json_of_metadata (metadata data))) in
  {| total := totalTokens;
     breakdown := breakdown ++ [(txt "basic", ceil4 (length (stringify basicInfo)))] |}.

(** ** Code tables *)

Definition table (l : list (string * string)) : gmap str str :=
  list_to_map (map (λ kv, (txt (fst kv), txt (snd kv))) l).

Definition jobTypeMap : gmap str str :=
  table [("0", "Server Job"); ("1", "Parallel Job"); ("2", "Sequence Job");
         ("3", "Server Routine")]%string.

Definition paramTypeMap : gmap str str :=
  table [("1", "String"); ("2", "Integer"); ("3", "Float"); ("4", "Pathname");
         ("5", "List"); ("6", "Date"); ("7", "Time"); ("8", "Timestamp");
         ("13", "EnvironmentVar")]%string.

Definition lookupTypeMap : gmap str str :=
  table [("0", "Normal"); ("1", "Sparse"); ("2", "Range")]%string.

Definition typeMap : gmap str str :=
  table [("1", "CHAR"); ("2", "NUMERIC"); ("3", "DECIMAL"); ("4", "INTEGER");
         ("5", "SMALLINT"); ("6", "FLOAT"); ("7", "REAL"); ("8", "DOUBLE");
         ("9", "DATE"); ("10", "TIME"); ("11", "TIMESTAMP"); ("12", "VARCHAR");
         ("-1", "LONGVARCHAR"); ("-2", "BINARY"); ("-3", "VARBINARY");
         ("-4", "LONGVARBINARY"); ("-5", "BIGINT"); ("-6", "TINYINT");
         ("-7", "BIT"); ("-8", "WCHAR"); ("-9", "WVARCHAR");
         ("-10", "WLONGVARCHAR"); ("91", "TYPE_DATE"); ("92", "TYPE_TIME");
         ("93", "TYPE_TIMESTAMP")]%string.

(** [jobTypeMap[jobTypeCode] || `Unknown (${jobTypeCode})`] *)
Definition job_type_label (jobTypeCode : str) : value :=
  or_value (obj_get jobTypeMap jobTypeCode)
           (txt "Unknown (" ++ jobTypeCode ++ txt ")").

(** [paramTypeMap[paramType] || `Unknown (${paramType})`] *)
Definition param_type_label (paramType : str) : value :=
  or_value (obj_get paramTypeMap paramType)
           (txt "Unknown (" ++ paramType ++ txt ")").

(** [p && p !== "0"] *)
Definition meaningful (p : option str) : bool :=
  match p with
  | Some ((_ :: _) as s) => negb (str_eqb s (txt "0"))
  | Some [] | None => false
  end.

Definition mapSqlType (sqlType : str) (precision scale : option str) : value :=
  let typeName := or_value (obj_get typeMap sqlType)
                           (txt "UNKNOWN(" ++ sqlType ++ txt ")") in
  match typeName with
  | VStr n =>
    if bool_decide (n ∈ [txt "NUMERIC"; txt "DECIMAL"; txt "CHAR"; txt "VARCHAR"])
    then
      if meaningful precision then
        if meaningful scale
        then VStr (n ++ txt "(" ++ default [] precision ++ txt "," ++
                   default [] scale ++ txt ")")
        else VStr (n ++ txt "(" ++ default [] precision ++ txt ")")
      else typeName
    else typeName
  | VObj _ => typeName
  end.

(** ** The patterns of the extraction

    In the patterns quoted in the comments below, [Q] stands for the double
    quote. *)

Open Scope regex_scope.

(** [K Q([^Q]+)Q] *)
Definition quoted_field (k : string) : regex :=
  lit (txt k ++ txt " " ++ dq) ∙ Group 1 (plus (notc 34)) ∙ lit dq.
Arguments quoted_field k%_string.

(** [K Q(.*?)Q] *)
Definition quoted_list (k : string) : regex :=
  lit (txt k ++ txt " " ++ dq) ∙ Group 1 (Star false dot) ∙ lit dq.
Arguments quoted_list k%_string.

(** the sentinel [=+=+=+=] *)
Definition sentinel : str := txt "=+=+=+=".

(** [[\s\S]*?] *)
Definition gap : regex := Star false any.

(** [Identifier Q([^Q]+)Q] *)
Definition jobNameRe : regex := quoted_field "Identifier".

(** [FullDescription =\+=\+=\+=([\s\S]*?)=\+=\+=\+=] *)
Definition descRe : regex :=
  lit (txt "FullDescription " ++ sentinel) ∙ Group 1 gap ∙ lit sentinel.

(** [JobType Q([^Q]+)Q] *)
Definition jobTypeRe : regex := quoted_field "JobType".

(** The parameter sub-record: [BEGIN DSSUBRECORD], then the fields [Name],
    [Prompt], [Default], an optional [HelpTxt], and [ParamType], each a
    quoted text, with [\s+] between them; the texts of [Prompt], [Default]
    and [HelpTxt] can be empty, those of [Name] and [ParamType] cannot. *)
Definition paramRegex : regex :=
  lit (txt "BEGIN DSSUBRECORD") ∙ plus ws ∙
  lit (txt "Name " ++ dq) ∙ Group 1 (plus (notc 34)) ∙ lit dq ∙ plus ws ∙
  lit (txt "Prompt " ++ dq) ∙ Group 2 (Star true (notc 34)) ∙ lit dq ∙ plus ws ∙
  lit (txt "Default " ++ dq) ∙ Group 3 (Star true (notc 34)) ∙ lit dq ∙ plus ws ∙
  opt (lit (txt "HelpTxt " ++ dq) ∙ Group 4 (Star true (notc 34)) ∙ lit dq ∙ plus ws) ∙
  lit (txt "ParamType " ++ dq) ∙ Group 5 (plus (notc 34)) ∙ lit dq.

(** [StageList Q(.*?)Q], [StageNames Q(.*?)Q] *)
Definition stageListRe : regex := quoted_list "StageList".
Definition stageNamesRe : regex := quoted_list "StageNames".

(** [BEGIN DSRECORD[\s\S]*?Name Q([^Q]+)Q[\s\S]*?StageType
    Q([^Q]+)Q[\s\S]*?END DSRECORD] *)
Definition stageTypeRegex : regex :=
  lit (txt "BEGIN DSRECORD") ∙ gap ∙
  lit (txt "Name " ++ dq) ∙ Group 1 (plus (notc 34)) ∙ lit dq ∙ gap ∙
  lit (txt "StageType " ++ dq) ∙ Group 2 (plus (notc 34)) ∙ lit dq ∙ gap ∙
  lit (txt "END DSRECORD").

(** [XMLProperties[\s\S]*?Value =\+=\+=\+=([\s\S]*?)=\+=\+=\+=] *)
Definition xmlPropsRegex : regex :=
  lit (txt "XMLProperties") ∙ gap ∙
  lit (txt "Value " ++ sentinel) ∙ Group 1 gap ∙ lit sentinel.

(** [<Context[^>]*>(\d+)<\/Context>] *)
Definition contextRe : regex :=
  lit (txt "<Context") ∙ Star true (notc 62) ∙ lit (txt ">") ∙
  Group 1 (plus digit) ∙ lit (txt "</Context>").

(** [Name Q([^Q]+)Q] *)
Definition nameRe : regex := quoted_field "Name".

(** [<T[^>]*>\s*<!\[CDATA\[(.*?)\]\]>], with or without the [s] flag *)
Definition cdataRe (tag : str) (dotall : bool) : regex :=
  lit (txt "<" ++ tag) ∙ Star true (notc 62) ∙ lit (txt ">") ∙ Star true ws ∙
  lit (txt "<![CDATA[") ∙ Group 1 (Star false (if dotall then any else dot)) ∙
  lit (txt "]]>").

(** [\s+], [\/\*.*?\*\/], [#[^#]+#], [ +], [\r?\n\s*], [\r?\n] *)
Definition spacesRe : regex := plus ws.
Definition commentRe : regex := lit (txt "/*") ∙ Star false dot ∙ lit (txt "*/").
Definition placeholderRe : regex := chr 35 ∙ plus (notc 35) ∙ chr 35.
Definition blanksRe : regex := plus (chr 32).
Definition indentRe : regex := opt (chr 13) ∙ chr 10 ∙ Star true ws.
Definition newlineRe : regex := opt (chr 13) ∙ chr 10.

(** [SELECT|INSERT|UPDATE|DELETE|CREATE|DROP|ALTER], flag [i] *)
Definition sqlVerbRe : regex :=
  lit_i (txt "SELECT") │ lit_i (txt "INSERT") │ lit_i (txt "UPDATE") │
  lit_i (txt "DELETE") │ lit_i (txt "CREATE") │ lit_i (txt "DROP") │
  lit_i (txt "ALTER").

(** [StageType QPxLookupQ[\s\S]*?Name Q([^Q]+)Q[\s\S]*?(?:END DSRECORD)] *)
Definition lookupRegex : regex :=
  lit (txt "StageType " ++ dq ++ txt "PxLookup" ++ dq) ∙ gap ∙
  lit (txt "Name " ++ dq) ∙ Group 1 (plus (notc 34)) ∙ lit dq ∙ gap ∙
  lit (txt "END DSRECORD").

(** [Identifier Q([^Q]+P\d+)Q[\s\S]*?Name Q([^Q]+)Q[\s\S]*?Partner Q...Q],
    the text of [Partner] being any run of characters other than [|] *)
Definition inputRegex : regex :=
  lit (txt "Identifier " ++ dq) ∙
  Group 1 (plus (notc 34) ∙ chr 80 ∙ plus digit) ∙ lit dq ∙ gap ∙
  lit (txt "Name " ++ dq) ∙ Group 2 (plus (notc 34)) ∙ lit dq ∙ gap ∙
  lit (txt "Partner " ++ dq) ∙ Group 3 (Star true (notc 124)) ∙ lit dq.

(** [KeyPosition Q([^0])Q[\s\S]*?Name Q([^Q]+)Q] *)
Definition keyRegex : regex :=
  lit (txt "KeyPosition " ++ dq) ∙ Group 1 (notc 48) ∙ lit dq ∙ gap ∙
  lit (txt "Name " ++ dq) ∙ Group 2 (plus (notc 34)) ∙ lit dq.

Definition lookupFailRe : regex := quoted_field "LookupFail".
Definition lookupTypeRe : regex := quoted_field "LookupType".
Definition residualRe : regex := quoted_field "ResidualHandler".

(** [Name QNQ[\s\S]*?Value Q([^Q]+)Q] *)
Definition named_value (n : string) : regex :=
  lit (txt "Name " ++ dq ++ txt n ++ dq) ∙ gap ∙
  lit (txt "Value " ++ dq) ∙ Group 1 (plus (notc 34)) ∙ lit dq.
Arguments named_value n%_string.

Definition datasetRegex : regex := named_value "dataset".
Definition datasetModeRe : regex := named_value "datasetmode".

(** [Name QTrxGenCodeQ[\s\S]*?Value =\+=\+=\+=([\s\S]*?)=\+=\+=\+=] *)
Definition trxRegex : regex :=
  lit (txt "Name " ++ dq ++ txt "TrxGenCode" ++ dq) ∙ gap ∙
  lit (txt "Value " ++ sentinel) ∙ Group 1 gap ∙ lit sentinel.

(** [inputname\s+\d+\s+([^;]+);] and the same for [outputname] *)
Definition declRe (kw : string) : regex :=
  lit (txt kw) ∙ plus ws ∙ plus digit ∙ plus ws ∙
  Group 1 (plus (notc 59)) ∙ chr 59.
Arguments declRe kw%_string.

(** [if\s*\((.*?)\)] *)
Definition conditionRe : regex :=
  lit (txt "if") ∙ Star true ws ∙ chr 40 ∙ Group 1 (Star false dot) ∙ chr 41.

(** [if\s*\((.*?)\)\s*\{\s*reject\s+\d+\s*;] *)
Definition rejectRe : regex :=
  lit (txt "if") ∙ Star true ws ∙ chr 40 ∙ Group 1 (Star false dot) ∙ chr 41 ∙
  Star true ws ∙ chr 123 ∙ Star true ws ∙ lit (txt "reject") ∙ plus ws ∙
  plus digit ∙ Star true ws ∙ chr 59.

(** [Identifier QV.*?P\d+Q[\s\S]*?Name Q([^Q]+)Q[\s\S]*?Columns
    QCOutputColumnQ([\s\S]*?)(?:MetaBag|END DSRECORD)] *)
Definition outputRegex : regex :=
  lit (txt "Identifier " ++ dq ++ txt "V") ∙ Star false dot ∙ chr 80 ∙
  plus digit ∙ lit dq ∙ gap ∙
  lit (txt "Name " ++ dq) ∙ Group 1 (plus (notc 34)) ∙ lit dq ∙ gap ∙
  lit (txt "Columns " ++ dq ++ txt "COutputColumn" ++ dq) ∙ Group 2 gap ∙
  (lit (txt "MetaBag") │ lit (txt "END DSRECORD")).

(** [Name Q([^Q]+)Q[\s\S]*?SqlType Q([^Q]+)Q[\s\S]*?Precision
    Q([^Q]+)Q[\s\S]*?Scale Q([^Q]+)Q[\s\S]*?Nullable Q([^Q]+)Q] *)
Definition colRegex : regex :=
  lit (txt "Name " ++ dq) ∙ Group 1 (plus (notc 34)) ∙ lit dq ∙ gap ∙
  lit (txt "SqlType " ++ dq) ∙ Group 2 (plus (notc 34)) ∙ lit dq ∙ gap ∙
  lit (txt "Precision " ++ dq) ∙ Group 3 (plus (notc 34)) ∙ lit dq ∙ gap ∙
  lit (txt "Scale " ++ dq) ∙ Group 4 (plus (notc 34)) ∙ lit dq ∙ gap ∙
  lit (txt "Nullable " ++ dq) ∙ Group 5 (plus (notc 34)) ∙ lit dq.

(** [Name Q([^Q]+)Q[\s\S]*?Derivation Q([^Q]+)Q] *)
Definition derivRegex : regex :=
  lit (txt "Name " ++ dq) ∙ Group 1 (plus (notc 34)) ∙ lit dq ∙ gap ∙
  lit (txt "Derivation " ++ dq) ∙ Group 2 (plus (notc 34)) ∙ lit dq.

(** [LinkNames Q(.*?)Q], [LinkSourcePinIDs Q(.*?)Q], [TargetStageIDs Q(.*?)Q] *)
Definition linkNamesRe : regex := quoted_list "LinkNames".
Definition sourcePinsRe : regex := quoted_list "LinkSourcePinIDs".
Definition targetStagesRe : regex := quoted_list "TargetStageIDs".

(** [BEGIN DSRECORD[\s\S]*?StageType QLinkQ[\s\S]*?FromStageID
    Q([^Q]+)Q[\s\S]*?ToStageID Q([^Q]+)Q[\s\S]*?END DSRECORD] *)
Definition linkRegex : regex :=
  lit (txt "BEGIN DSRECORD") ∙ gap ∙
  lit (txt "StageType " ++ dq ++ txt "Link" ++ dq) ∙ gap ∙
  lit (txt "FromStageID " ++ dq) ∙ Group 1 (plus (notc 34)) ∙ lit dq ∙ gap ∙
  lit (txt "ToStageID " ++ dq) ∙ Group 2 (plus (notc 34)) ∙ lit dq ∙ gap ∙
  lit (txt "END DSRECORD").

(** [\bK\b], flag [i] *)
Definition keyword (k : string) : regex := WordB ∙ lit_i (txt k) ∙ WordB.
Arguments keyword k%_string.

(** [\bGROUP BY\b|\bORDER BY\b|\bHAVING\b|$], flag [i] *)
Definition terminators : regex :=
  keyword "GROUP BY" │ keyword "ORDER BY" │ keyword "HAVING" │ Eos.

(** [\bWHERE\b\s+(.*?)(?:\bGROUP BY\b|\bORDER BY\b|\bHAVING\b|$)], flag [i] *)
Definition whereRegex : regex :=
  keyword "WHERE" ∙ plus ws ∙ Group 1 (Star false dot) ∙ terminators.

Close Scope regex_scope.

(** ** Section extractors *)

Definition nonempty (s : str) : bool :=
  match s with [] => false | _ :: _ => true end.

(** truthiness of an optional string property *)
Definition truthy (o : option str) : bool :=
  match o with Some (_ :: _) => true | Some [] | None => false end.

(** [l.map(f).filter(defined)], and the loops that push under a condition *)
Fixpoint filter_map {A B : Type} (f : A → option B) (l : list A) : list B :=
  match l with
  | [] => []
  | a :: tl =>
    match f a with
    | Some b => b :: filter_map f tl
    | None => filter_map f tl
    end
  end.

Definition crlf : str := [13; 10]%N.
Definition lf : str := [10]%N.

(** *** Header *)

Definition extract_name (dsx_content : str) : str :=
  match re_match jobNameRe dsx_content with
  | Some jobNameMatch => grp jobNameMatch 1
  | None => []
  end.

Definition describe (block : str) : str :=
  let fullDesc := trim block in
  let firstPara := or_undef (head (split (crlf ++ crlf) fullDesc)) fullDesc in
  trim (replace_all newlineRe (txt " ") firstPara).

Definition extract_description (dsx_content : str) : str :=
  match re_match descRe dsx_content with
  | Some descMatch => describe (grp descMatch 1)
  | None => []
  end.

Definition extract_type (dsx_content : str) : value :=
  match re_match jobTypeRe dsx_content with
  | Some jobTypeMatch => job_type_label (grp jobTypeMatch 1)
  | None => VStr []
  end.

(** *** Parameters *)

Definition parameter_of (paramMatch : rmatch_result) : DSXParameter :=
  {| p_name := grp paramMatch 1;
     p_prompt := grp paramMatch 2;
     p_default := grp paramMatch 3;
     p_help := or_undef (cap paramMatch 4) [];
     p_type := param_type_label (grp paramMatch 5) |}.

Definition extract_parameters (dsx_content : str) : option (list DSXParameter) :=
  map parameter_of <$> exec_all paramRegex dsx_content.

(** *** Symbol resolver *)

(** the loop over [stageIds], [i] being the index of the head of [ids] *)
Fixpoint stage_map_loop (stageNames : list str) (i : nat) (ids : list str)
    (stageMap : gmap str str) : gmap str str :=
  match ids with
  | [] => stageMap
  | id :: tl =>
    stage_map_loop stageNames (S i) tl
      match stageNames !! i with
      | Some n => if str_eqb n (txt " ") then stageMap else obj_set id n stageMap
      | None => stageMap
      end
  end.

Definition build_stage_map (stageList stageNamesText : str) : gmap str str :=
  let stageIds := split (txt "|") stageList in
  let stageNames := map trim (split (txt "|") stageNamesText) in
  stage_map_loop stageNames 0 stageIds ∅.

Definition stage_type_step (stageTypeMap : gmap str str) (stageMatch : rmatch_result)
    : gmap str str :=
  let stageName := grp stageMatch 1 in
  let stageType := grp stageMatch 2 in
  if nonempty stageName && negb (str_eqb stageName (txt " ")) && nonempty stageType
  then obj_set stageName stageType stageTypeMap
  else stageTypeMap.

Definition build_stage_type_map (dsx_content : str) : option (gmap str str) :=
  foldl stage_type_step ∅ <$> exec_all stageTypeRegex dsx_content.

(** *** Sources, targets and SQL scripts *)

(** [if (match[1] && match[1].trim()) clauses.push(match[1].trim())] *)
Definition clause_of_match (mt : rmatch_result) : option str :=
  if nonempty (trim (grp mt 1)) then Some (trim (grp mt 1)) else None.

Definition extractWhereClauses (sql : str) : option (list str) :=
  filter_map clause_of_match <$> exec_all whereRegex sql.

(** the text of the record a position lies in: what follows the last
    [BEGIN DSRECORD] before it *)
Definition preceding_record (dsx_content : str) (index : nat) : str :=
  or_undef (pop (split (txt "BEGIN DSRECORD") (substring 0 index dsx_content))) [].

Definition cdata_of (tag : string) (dotall : bool) (xmlContent : str) : option str :=
  (λ mt, grp mt 1) <$> re_match (cdataRe (txt tag) dotall) xmlContent.
Arguments cdata_of tag%_string dotall xmlContent.

Definition redact (server : str) : str :=
  replace_all placeholderRe (txt "[PARAM]") server.

Definition normalize_select (raw : str) : str :=
  replace_all commentRe [] (replace_all spacesRe (txt " ") (trim raw)).

Definition source_of_block (stageTypeMap : gmap str str) (stageName xmlContent : str)
    : option (list DSXSource) :=
  let sql := normalize_select <$> cdata_of "SelectStatement" true xmlContent in
  whereClauses ← match sql with
                 | Some q => extractWhereClauses q
                 | None => Some []
                 end;
  let source :=
    {| s_name := stageName;
       s_type := or_value (obj_get stageTypeMap stageName) (txt "source");
       s_columns := [];
       s_sql := sql;
       s_where_clauses := if 0 <? length whereClauses then Some whereClauses else None;
       s_table := if truthy sql then None else cdata_of "TableName" false xmlContent;
       s_connection := redact <$> cdata_of "Server" false xmlContent;
       s_database := cdata_of "Database" false xmlContent |} in
  Some (if truthy (s_sql source) || truthy (s_table source) ||
           (0 <? length (s_columns source))
        then [source] else []).

Definition modes : list str :=
  [txt "Append"; txt "Create"; txt "Truncate"; txt "Replace"].

Definition write_mode (raw : str) : option str :=
  match parseInt raw with
  | Some modeIndex =>
    if (0 <=? modeIndex)%Z && (modeIndex <? Z.of_nat (length modes))%Z
    then modes !! Z.to_nat modeIndex
    else None
  | None => None
  end.

Definition target_of_block (stageTypeMap : gmap str str) (stageName xmlContent : str)
    : list DSXTarget :=
  let target :=
    {| t_name := stageName;
       t_type := or_value (obj_get stageTypeMap stageName) (txt "target");
       t_columns := [];
       t_table := cdata_of "TableName" false xmlContent;
       t_mode := cdata_of "WriteMode" false xmlContent ≫= write_mode;
       t_connection := redact <$> cdata_of "Server" false xmlContent;
       t_database := cdata_of "Database" false xmlContent |} in
  (* [target.dataset] is never set on this path *)
  if truthy (t_table target) || (0 <? length (t_columns target))
  then [OfTable target] else [].

Definition script_of (stageName xmlContent : str) (sqlType : str)
    : list DSXSqlScript :=
  match re_match (cdataRe sqlType true) xmlContent with
  | Some sqlMatch =>
    let sql := trim (grp sqlMatch 1) in
    if re_test sqlVerbRe sql
    then [{| q_stage := stageName;
             q_type := sqlType;
             q_sql := replace_all indentRe lf (replace_all blanksRe (txt " ") sql) |}]
    else []
  | None => []
  end.

Definition scripts_of_block (stageName xmlContent : str) : list DSXSqlScript :=
  flat_map (script_of stageName xmlContent)
           [txt "BeforeSQL"; txt "AfterSQL"; txt "SelectStatement"].

(** what one property block adds to [sources], [targets] and [sql_scripts] *)
Definition process_block (stageTypeMap : gmap str str) (dsx_content : str)
    (xmlMatch : rmatch_result)
    : option (list DSXSource * list DSXTarget * list DSXSqlScript) :=
  let xmlContent := grp xmlMatch 1 in
  let contextMatch := re_match contextRe xmlContent in
  let recordContent := preceding_record dsx_content (m_index xmlMatch) in
  match re_match nameRe recordContent with
  | None => Some ([], [], [])
  | Some stageNameMatch =>
    let stageName := grp stageNameMatch 1 in
    match contextMatch with
    | None => Some ([], [], [])
    | Some contextMatch =>
      let context := parseInt (grp contextMatch 1) in
      srcs ← (if bool_decide (context = Some 1%Z)
              then source_of_block stageTypeMap stageName xmlContent
              else Some []);
      let tgts := if bool_decide (context = Some 2%Z)
                  then target_of_block stageTypeMap stageName xmlContent
                  else [] in
      Some (srcs, tgts, scripts_of_block stageName xmlContent)
    end
  end.

Fixpoint process_blocks (stageTypeMap : gmap str str) (dsx_content : str)
    (xmlMatches : list rmatch_result)
    : option (list DSXSource * list DSXTarget * list DSXSqlScript) :=
  match xmlMatches with
  | [] => Some ([], [], [])
  | xmlMatch :: tl =>
    '(s, t, q) ← process_block stageTypeMap dsx_content xmlMatch;
    '(ss, ts, qs) ← process_blocks stageTypeMap dsx_content tl;
    Some (s ++ ss, t ++ ts, q ++ qs)
  end.

(** *** Lookups *)

Definition lookup_of_match (lookupMatch : rmatch_result) : option (list DSXLookup) :=
  let lookupSection := m_text lookupMatch in
  let lookupName := grp lookupMatch 1 in
  inputMatches ← exec_all inputRegex lookupSection;
  keyMatches ← exec_all keyRegex lookupSection;
  let conditionMatch := re_match lookupFailRe lookupSection in
  let lookupConfig :=
    {| l_name := lookupName;
       l_type := txt "Lookup";
       l_inputs := match conditionMatch with
                   | Some _ => map (λ inputMatch, grp inputMatch 2) inputMatches
                   | None => []
                   end;
       l_output := [];
       l_key_columns := map (λ keyMatch, grp keyMatch 2) keyMatches;
       l_fail_mode := match conditionMatch, inputMatches with
                      | Some conditionMatch, _ :: _ => grp conditionMatch 1
                      | _, _ => []
                      end;
       l_lookup_type :=
         (λ mt, or_value (obj_get lookupTypeMap (grp mt 1)) (grp mt 1))
           <$> re_match lookupTypeRe lookupSection;
       l_residual_handling :=
         (λ mt, grp mt 1) <$> re_match residualRe lookupSection |} in
  Some (if (0 <? length (l_inputs lookupConfig)) ||
           (0 <? length (l_key_columns lookupConfig))
        then [lookupConfig] else []).

Fixpoint collect {A B : Type} (f : A → option (list B)) (l : list A)
    : option (list B) :=
  match l with
  | [] => Some []
  | a :: tl => x ← f a; xs ← collect f tl; Some (x ++ xs)
  end.

Definition extract_lookups (dsx_content : str) : option (list DSXLookup) :=
  exec_all lookupRegex dsx_content ≫= collect lookup_of_match.

(** *** Dataset targets *)

Definition dataset_target (dsx_content : str) (datasetMatch : rmatch_result)
    : DSXTarget :=
  let datasetPath := grp datasetMatch 1 in
  let datasetName := or_undef (pop (split (txt "/") datasetPath)) datasetPath in
  let index := m_index datasetMatch in
  let surrounding := substring (index - 500) index dsx_content in
  let stageNameMatch := re_match nameRe surrounding in
  let contextRange :=
    substring (index - 200) (length dsx_content `min` (index + 200)) dsx_content in
  let datasetModeMatch := re_match datasetModeRe contextRange in
  OfDataset {| d_type := txt "dataset";
               d_dataset := datasetName;
               d_name := (λ mt, grp mt 1) <$> stageNameMatch;
               d_mode := (λ mt, grp mt 1) <$> datasetModeMatch |}.

Definition extract_dataset_targets (dsx_content : str) : option (list DSXTarget) :=
  map (dataset_target dsx_content) <$> exec_all datasetRegex dsx_content.

(** *** Transforms *)

Definition is_rule (line : str) : bool :=
  includes (txt "=") line &&
  negb (starts_with (txt "//") (trim line)) &&
  negb (starts_with (txt "int") (trim line)) &&
  negb (includes (txt "RowRejected") line) &&
  negb (includes (txt "NullSet") line) &&
  negb (includes (txt "inputname") line) &&
  negb (includes (txt "outputname") line) &&
  negb (includes (txt "initialize") line) &&
  negb (includes (txt "mainloop") line) &&
  negb (includes (txt "finish") line) &&
  negb (includes (txt "writerecord") line).

Definition rule_of (line : str) : option str :=
  if is_rule line then
    let cleanLine := trim line in
    if nonempty cleanLine
    then Some (replace_all spacesRe (txt " ") cleanLine)
    else None
  else None.

Definition reject_condition (rejectText : str) : str :=
  match re_match conditionRe rejectText with
  | Some condition => trim (grp condition 1)
  | None => []
  end.

Definition transform_of_match (dsx_content : str) (trxMatch : rmatch_result)
    : list DSXTransform :=
  let transformCode := trim (grp trxMatch 1) in
  let recordContent := preceding_record dsx_content (m_index trxMatch) in
  let stageName :=
    match re_match nameRe recordContent with
    | Some stageNameMatch => grp stageNameMatch 1
    | None => txt "unknown"
    end in
  let rules := filter_map rule_of (split lf transformCode) in
  let transform :=
    {| x_name := stageName;
       x_rules := rules;
       x_input := (λ mt, grp mt 1) <$> re_match (declRe "inputname") transformCode;
       x_output := (λ mt, grp mt 1) <$> re_match (declRe "outputname") transformCode;
       x_reject_conditions :=
         (λ rejectMatches, filter (λ s, nonempty s = true)
                             (map reject_condition rejectMatches))
           <$> match_all rejectRe transformCode |} in
  if 0 <? length rules then [transform] else [].

Definition extract_transforms (dsx_content : str) : option (list DSXTransform) :=
  flat_map (transform_of_match dsx_content) <$> exec_all trxRegex dsx_content.

(** *** Columns *)

Definition is_system_column (colName : str) : bool :=
  starts_with (txt "APT_") colName || starts_with (txt "DSLink") colName.

Definition column_of_match (colMatch : rmatch_result) : option DSXColumn :=
  let colName := grp colMatch 1 in
  if is_system_column colName then None
  else Some {| c_name := colName;
               c_type := mapSqlType (grp colMatch 2) (cap colMatch 3) (cap colMatch 4);
               c_nullable := str_eqb (grp colMatch 5) (txt "1");
               c_derivation := None |}.

(** [columns.find(c => c.name === colName)] and the update of what it finds *)
Fixpoint set_derivation (colName derivation : str) (columns : list DSXColumn)
    : list DSXColumn :=
  match columns with
  | [] => []
  | c :: tl =>
    if str_eqb (c_name c) colName
    then {| c_name := c_name c; c_type := c_type c; c_nullable := c_nullable c;
            c_derivation := Some derivation |} :: tl
    else c :: set_derivation colName derivation tl
  end.

Definition derive (columns : list DSXColumn) (derivMatch : rmatch_result)
    : list DSXColumn :=
  set_derivation (grp derivMatch 1)
    (replace_all spacesRe (txt " ") (trim (grp derivMatch 2))) columns.

Definition columns_of_match (outputMatch : rmatch_result)
    : option (str * list DSXColumn) :=
  let linkName := grp outputMatch 1 in
  let columnsContent := grp outputMatch 2 in
  colMatches ← exec_all colRegex columnsContent;
  derivMatches ← exec_all derivRegex columnsContent;
  Some (linkName, foldl derive (filter_map column_of_match colMatches) derivMatches).

(** The column table [columnInfoMap] is a plain object whose values are
    arrays.  Its own properties are the entries of the map under every key
    but [__proto__]; the entry under [__proto__], which can be no own
    property, is the array the table has been re-parented onto: with an
    array for value, [columnInfoMap["__proto__"] = columns] calls the setter
    of [Object.prototype], which makes [columns] the prototype of the table
    (a later assignment under that key replaces it).  Without such an entry
    the prototype of the table is [Object.prototype]. *)

(** [columnInfoMap[linkName] = columns], done for a non-empty list only *)
Definition register_columns (columnInfoMap : gmap str (list DSXColumn))
    (entry : str * list DSXColumn) : gmap str (list DSXColumn) :=
  let '(linkName, columns) := entry in
  if 0 <? length columns
  then <[linkName := columns]> columnInfoMap
  else columnInfoMap.

Fixpoint traverse {A B : Type} (f : A → option B) (l : list A) : option (list B) :=
  match l with
  | [] => Some []
  | a :: tl => x ← f a; xs ← traverse f tl; Some (x :: xs)
  end.

Definition build_column_info (dsx_content : str)
    : option (gmap str (list DSXColumn)) :=
  outputMatches ← exec_all outputRegex dsx_content;
  foldl register_columns ∅ <$> traverse columns_of_match outputMatches.

(** the string-keyed members of [Array.prototype] (ECMAScript 2023) that an
    array does not shadow: all of them functions *)
Definition array_proto_keys : list str :=
  [ txt "at"; txt "concat"; txt "constructor"; txt "copyWithin";
    txt "entries"; txt "every"; txt "fill"; txt "filter"; txt "find";
    txt "findIndex"; txt "findLast"; txt "findLastIndex"; txt "flat";
    txt "flatMap"; txt "forEach"; txt "includes"; txt "indexOf"; txt "join";
    txt "keys"; txt "lastIndexOf"; txt "map"; txt "pop"; txt "push";
    txt "reduce"; txt "reduceRight"; txt "reverse"; txt "shift"; txt "slice";
    txt "some"; txt "sort"; txt "splice"; txt "toLocaleString";
    txt "toReversed"; txt "toSorted"; txt "toSpliced"; txt "toString";
    txt "unshift"; txt "values"; txt "with" ].

Definition array_inherited (k : str) : bool := bool_decide (k ∈ array_proto_keys).

(** the index a property key stands for in an array of [n] elements: the
    key is the decimal numeral of an index below [n] *)
Definition array_index (key : str) (n : nat) : option nat :=
  List.find (λ i, str_eqb (decimal i) key) (seq 0 n).

(** a read of [array[key]] that finds something: the length, an element,
    or a member of [Array.prototype] *)
Definition array_member (array : list DSXColumn) (key : str)
    : option flow_columns :=
  if str_eqb key (txt "length") then Some (ColsLength (length array))
  else
    match array_index key (length array) ≫= (λ i, array !! i) with
    | Some column => Some (ColsItem column)
    | None => if array_inherited key then Some (ColsObj key) else None
    end.

(** [linkName in columnInfoMap] and [columnInfoMap[linkName]]: an own
    property (under [__proto__], the getter gives the prototype of the
    table), then the array the table is re-parented onto, if any, with
    [Array.prototype] behind it, then [Object.prototype]. *)
Definition columns_for (columnInfoMap : gmap str (list DSXColumn)) (linkName : str)
    : option flow_columns :=
  match columnInfoMap !! linkName with
  | Some columns => Some (ColsOwn columns)
  | None =>
    match columnInfoMap !! txt "__proto__" ≫= (λ array, array_member array linkName) with
    | Some found => Some found
    | None => if inherited linkName then Some (ColsObj linkName) else None
    end
  end.

(** *** Flow *)

Definition source_id (sourcePins : list str) (i : nat) : option str :=
  match sourcePins !! i with
  | Some ((_ :: _) as pin) =>
    match head (split (txt "P") pin) with
    | Some ((_ :: _) as sourceId) => Some sourceId
    | Some [] | None => None
    end
  | Some [] | None => None
  end.

Definition target_id (targetStages : list str) (i : nat) : option str :=
  match targetStages !! i with
  | Some ((_ :: _) as targetId) => Some targetId
  | Some [] | None => None
  end.

(** [v !== "Unknown" && v !== " "] *)
Definition known (v : value) : bool :=
  negb (bool_decide (v = VStr (txt "Unknown"))) &&
  negb (bool_decide (v = VStr (txt " "))).

(** the body of the loop over [linkNames] at index [i] *)
Definition flow_entry (stageMap : gmap str str)
    (columnInfoMap : gmap str (list DSXColumn))
    (sourcePins targetStages : list str) (i : nat) (linkName : str)
    : option DSXFlow :=
  match source_id sourcePins i, target_id targetStages i with
  | Some sourceId, Some targetId =>
    let fromStage := or_value (obj_get stageMap sourceId) (txt "Unknown") in
    let toStage := or_value (obj_get stageMap targetId) (txt "Unknown") in
    if known fromStage && known toStage
    then Some {| f_link := linkName;
                 f_from := fromStage;
                 f_to := toStage;
                 f_columns := columns_for columnInfoMap linkName |}
    else None
  | _, _ => None
  end.

Fixpoint flow_loop (stageMap : gmap str str)
    (columnInfoMap : gmap str (list DSXColumn))
    (sourcePins targetStages : list str) (i : nat) (linkNames : list str)
    : list DSXFlow :=
  match linkNames with
  | [] => []
  | linkName :: tl =>
    match flow_entry stageMap columnInfoMap sourcePins targetStages i linkName with
    | Some flowEntry =>
      flowEntry :: flow_loop stageMap columnInfoMap sourcePins targetStages (S i) tl
    | None => flow_loop stageMap columnInfoMap sourcePins targetStages (S i) tl
    end
  end.

(** [linkNamesMatch[1].split('|').filter(s => s.trim())] *)
Definition link_names (linkNamesText : str) : list str :=
  filter (λ s, nonempty (trim s) = true) (split (txt "|") linkNamesText).

(** the primary strategy: the three parallel lists *)
Definition assemble_flow (stageMap : gmap str str)
    (columnInfoMap : gmap str (list DSXColumn))
    (linkNamesText : str) (sourcePinsText targetStagesText : option str)
    : list DSXFlow :=
  match sourcePinsText, targetStagesText with
  | Some sp, Some ts =>
    flow_loop stageMap columnInfoMap (split (txt "|") sp) (split (txt "|") ts)
      0 (link_names linkNamesText)
  | _, _ => []
  end.

(** the older approach: one connection per link record *)
Definition link_of_match (stageMap : gmap str str) (linkMatch : rmatch_result)
    : DSXFlow :=
  let fromStageId := grp linkMatch 1 in
  let toStageId := grp linkMatch 2 in
  let fromStageName := or_value (obj_get stageMap fromStageId) fromStageId in
  let toStageName := or_value (obj_get stageMap toStageId) toStageId in
  {| f_link := value_to_string fromStageName ++ txt "_to_" ++
               value_to_string toStageName;
     f_from := fromStageName;
     f_to := toStageName;
     f_columns := None |}.

Definition extract_flow (stageMap : gmap str str)
    (columnInfoMap : gmap str (list DSXColumn)) (dsx_content : str)
    : option (list DSXFlow) :=
  match re_match linkNamesRe dsx_content with
  | Some linkNamesMatch =>
    Some (assemble_flow stageMap columnInfoMap (grp linkNamesMatch 1)
            ((λ mt, grp mt 1) <$> re_match sourcePinsRe dsx_content)
            ((λ mt, grp mt 1) <$> re_match targetStagesRe dsx_content))
  | None => map (link_of_match stageMap) <$> exec_all linkRegex dsx_content
  end.

(** ** Validation *)

Record validation := {
  valid : bool;
  issues : list str
}.

(** [new Set(l)] in iteration order: the first occurrence of each element *)
Fixpoint distinct_go {A : Type} `{EqDecision A} (seen l : list A) : list A :=
  match l with
  | [] => []
  | a :: tl =>
    if bool_decide (a ∈ seen) then distinct_go seen tl
    else a :: distinct_go (a :: seen) tl
  end.

Definition distinct {A : Type} `{EqDecision A} (l : list A) : list A :=
  distinct_go [] l.

(** [`${stage}`] *)
Definition stage_text (stage : option str) : str :=
  match stage with Some s => s | None => txt "undefined" end.

(** [set.has(stage)] for a set of endpoints *)
Definition has_stage (endpoints : list value) (stage : option str) : bool :=
  match stage with
  | Some s => bool_decide (VStr s ∈ endpoints)
  | None => false
  end.

Definition disconnected_message (stage : option str) : str :=
  txt "Stage " ++ dq ++ stage_text stage ++ dq ++
  txt " appears disconnected from the flow".

(** the names spread into [allStages]; [None] is the [undefined] name of
    an entity without one *)
Definition stage_names (data : DSXJobInfo) : list (option str) :=
  map (λ s, Some (s_name s)) (sources data) ++
  map target_name (targets data) ++
  map (λ t, Some (x_name t)) (transforms data) ++
  map (λ l, Some (l_name l)) (lookups data) ++
  map z_name (specialized_stages data).

Definition all_stages (data : DSXJobInfo) : list (option str) :=
  distinct (stage_names data).

Definition is_disconnected (data : DSXJobInfo) (stage : option str) : bool :=
  negb (has_stage (map f_from (flow data)) stage) &&
  negb (has_stage (map f_to (flow data)) stage).

Definition validateExtractedData (data : DSXJobInfo) : validation :=
  let issues :=
    (if nonempty (name data) then [] else [txt "Missing job name"]) ++
    (if bool_decide (type data = VStr []) then [txt "Missing job type"] else []) ++
    (if (length (sources data) =? 0) && (length (targets data) =? 0)
     then [txt "No sources or targets found - possible parsing issue"] else []) ++
    (if 0 <? length (flow data)
     then map disconnected_message (filter (λ stage, is_disconnected data stage = true) (all_stages data))
     else []) in
  {| valid := length issues =? 0; issues := issues |}.

(** ** The extraction *)

(** everything that is done once both stage lists are there *)
Definition extract_stages (dsx_content : str) (stageList stageNamesText : str)
    (result : DSXJobInfo) : option DSXJobInfo :=
  let stageMap := build_stage_map stageList stageNamesText in
  stageTypeMap ← build_stage_type_map dsx_content;
  xmlMatches ← exec_all xmlPropsRegex dsx_content;
  '(srcs, tgts, scripts) ← process_blocks stageTypeMap dsx_content xmlMatches;
  lkps ← extract_lookups dsx_content;
  datasets ← extract_dataset_targets dsx_content;
  trfs ← extract_transforms dsx_content;
  columnInfoMap ← build_column_info dsx_content;
  flw ← extract_flow stageMap columnInfoMap dsx_content;
  Some {| name := name result;
          description := description result;
          type := type result;
          parameters := parameters result;
          sources := srcs;
          targets := tgts ++ datasets;
          transforms := trfs;
          sql_scripts := scripts;
          lookups := lkps;
          filters := filters result;
          specialized_stages := specialized_stages result;
          flow := flw;
          metadata := metadata result |}.

Definition with_token_count (result : DSXJobInfo) (n : nat) : DSXJobInfo :=
  {| name := name result;
     description := description result;
     type := type result;
     parameters := parameters result;
     sources := sources result;
     targets := targets result;
     transforms := transforms result;
     sql_scripts := sql_scripts result;
     lookups := lookups result;
     filters := filters result;
     specialized_stages := specialized_stages result;
     flow := flow result;
     metadata := {| extractedAt := extractedAt (metadata result);
                    version := version (metadata result);
                    tokenCount := Some n |} |}.

(** the result as it is initialised and filled from the header and the
    parameter records *)
Definition initial_result (now : str) (dsx_content : str)
    (params : list DSXParameter) : DSXJobInfo :=
  {| name := extract_name dsx_content;
     description := extract_description dsx_content;
     type := extract_type dsx_content;
     parameters := params;
     sources := [];
     targets := [];
     transforms := [];
     sql_scripts := [];
     lookups := [];
     filters := [];
     specialized_stages := [];
     flow := [];
     metadata := {| extractedAt := now; version := txt "1.2.0";
                    tokenCount := None |} |}.

(** [if (stageListMatch && stageNamesMatch) { ... }] *)
Definition gated_stages (dsx_content : str) (result : DSXJobInfo)
    : option DSXJobInfo :=
  match re_match stageListRe dsx_content, re_match stageNamesRe dsx_content with
  | Some stageListMatch, Some stageNamesMatch =>
    extract_stages dsx_content (grp stageListMatch 1) (grp stageNamesMatch 1)
      result
  | _, _ => Some result
  end.

(** [if (includeTokenCount) { ... }] *)
Definition add_token_count (includeTokenCount : bool) (result : DSXJobInfo)
    : DSXJobInfo :=
  if includeTokenCount
  then with_token_count result (total (estimateTokenUsage result))
  else result.

(** [extractDSXJobInfo(dsx_content, includeTokenCount)], [now] being what
    [new Date().toISOString()] gives at the call.  [None] stands for a run
    that does not return.  The validation at the end only writes a warning
    to the console. *)
Definition extractDSXJobInfo (now : str) (dsx_content : str)
    (includeTokenCount : bool) : option DSXJobInfo :=
  params ← extract_parameters dsx_content;
  result ← gated_stages dsx_content (initial_result now dsx_content params);
  Some (add_token_count includeTokenCount result).

(** the stage-id to stage-name map of a document *)
Definition stage_map_of (dsx_content : str) : gmap str str :=
  match re_match stageListRe dsx_content, re_match stageNamesRe dsx_content with
  | Some stageListMatch, Some stageNamesMatch =>
    build_stage_map (grp stageListMatch 1) (grp stageNamesMatch 1)
  | _, _ => ∅
  end.

(** ** What a match is

    [Sem r σ c σ' c']: read from state [σ] with captures [c], the pattern
    [r] can match up to state [σ'] and leave the captures [c'].  The matcher
    above is one way of searching for such a match. *)

Inductive Sem : regex → st → caps → st → caps → Prop :=
| Sem_Empty σ c :
    Sem Empty σ c σ c
| Sem_Chr f p ch tl c :
    f ch = true →
    Sem (Chr f) (mkst p (ch :: tl)) c (mkst (Some ch) tl) c
| Sem_Seq a b σ c σ1 c1 σ2 c2 :
    Sem a σ c σ1 c1 → Sem b σ1 c1 σ2 c2 →
    Sem (Seq a b) σ c σ2 c2
| Sem_AltL a b σ c σ' c' :
    Sem a σ c σ' c' → Sem (Alt a b) σ c σ' c'
| Sem_AltR a b σ c σ' c' :
    Sem b σ c σ' c' → Sem (Alt a b) σ c σ' c'
| Sem_Star0 g a σ c :
    Sem (Star g a) σ c σ c
| Sem_StarS g a σ c σ1 c1 σ2 c2 :
    Sem a σ c σ1 c1 →
    length (rest σ1) < length (rest σ) →
    Sem (Star g a) σ1 c1 σ2 c2 →
    Sem (Star g a) σ c σ2 c2
| Sem_Group i a σ c σ' c' :
    Sem a σ c σ' c' →
    Sem (Group i a) σ c σ' (<[i := consumed σ σ']> c')
| Sem_Eos p c :
    Sem Eos (mkst p []) c (mkst p []) c
| Sem_WordB σ c :
    at_boundary σ = true →
    Sem WordB σ c σ c.

(** the state reached from [σ] after reading [w] *)
Definition after (σ : st) (w : str) (tl : str) : st :=
  mkst (match last w with Some ch => Some ch | None => prev σ end) tl.

(** ** JSON.stringify with an indentation

    [JSON.stringify(value, null, 2)]: every member of a non-empty array or
    object on a line of its own, two more spaces in than the line of its
    parent, and a space after the colon of a property. *)
Definition spaces (n : nat) : str := replicate n 32%N.

Fixpoint stringify_indented (indent : nat) (j : json) : str :=
  match j with
  | JString s => quote s
  | JNumber n => decimal n
  | JBool b => if b then txt "true" else txt "false"
  | JArray [] => txt "[]"
  | JArray items =>
    txt "[" ++ lf ++
    join (txt "," ++ lf)
      (map (λ x, spaces (indent + 2) ++ stringify_indented (indent + 2) x) items) ++
    lf ++ spaces indent ++ txt "]"
  | JObject [] => txt "{}"
  | JObject fields =>
    txt "{" ++ lf ++
    join (txt "," ++ lf)
      (map (λ kv, spaces (indent + 2) ++ quote (fst kv) ++ txt ": " ++
                  stringify_indented (indent + 2) (snd kv)) fields) ++
    lf ++ spaces indent ++ txt "}"
  end.

(** [JSON.stringify(data, null, 2)] *)
Definition JSON_stringify_indented (data : DSXJobInfo) : str :=
  stringify_indented 0 (json_of_job data).

(** ** Batches of files *)
(** a [File], as far as it is read: its name and what the promise of
    [file.text()] settles to, the text of the file, or [None] when the read
    is rejected *)
Record File := {
  file_name : str;
  file_text : option str
}.

(** How the promise of an asynchronous call settles: fulfilled with a
    value, or rejected.  The error is the one the read of a file was
    rejected with; what is kept of it is the name of that file. *)
Inductive outcome (A : Type) :=
| Fulfilled (a : A)
| Rejected (file : str).
Arguments Fulfilled {A} a.
Arguments Rejected {A} file.

(** [ProcessingResult]; [validation] is never set *)
Record ProcessingResult := {
  originalFile : str;
  data : DSXJobInfo;
  tokenUsage : option TokenUsage
}.

(** The loop of [processDSXFiles] from the [i]-th file on; [clock i] is
    what the clock shows when the [i]-th file is processed.  A read that is
    rejected is caught, logged and thrown again: the call is rejected, and
    the results gathered so far are lost.  [None] stands for a run that does
    not return. *)
Fixpoint process_from (clock : nat → str) (i : nat) (files : list File)
    : option (outcome (list ProcessingResult)) :=
  match files with
  | [] => Some (Fulfilled [])
  | file :: tl =>
    match file_text file with
    | None => Some (Rejected (file_name file))
    | Some content =>
      jobInfo ← extractDSXJobInfo (clock i) content false;
      rest ← process_from clock (S i) tl;
      Some (match rest with
            | Fulfilled results =>
              Fulfilled ({| originalFile := file_name file;
                            data := jobInfo;
                            tokenUsage := Some (estimateTokenUsage jobInfo) |}
                         :: results)
            | Rejected failed => Rejected failed
            end)
    end
  end.

Definition processDSXFiles (clock : nat → str) (files : list File)
    : option (outcome (list ProcessingResult)) :=
  process_from clock 0 files.

Record FileTreeEntry := {
  entry_name : str;
  entry_type : value;
  entry_description : str;
  entry_parameters : nat;
  entry_sources : nat;
  entry_targets : nat
}.

Definition createFileTree (results : list ProcessingResult) : list FileTreeEntry :=
  map (λ result,
         {| entry_name := name (data result);
            entry_type := type (data result);
            entry_description := description (data result);
            entry_parameters := length (parameters (data result));
            entry_sources := length (sources (data result));
            entry_targets := length (targets (data result)) |}) results.

(** the calls [zip.file(name, text)] of [saveAsZip], in order *)
Definition saveAsZip_files (results : list ProcessingResult) : list (str * str) :=
  map (λ result, (name (data result) ++ txt ".json",
                  JSON_stringify_indented (data result))) results.

(** ** The page (pages/Index) *)
(** an item of the file explorer, as [handleFilesUploaded] makes it: the
    entry of the file tree, its [type] overwritten *)
Record FileItem := {
  item_name : str;
  item_type : str;
  item_description : str;
  item_parameters : nat;
  item_sources : nat;
  item_targets : nat;
  path : str;
  content : option str;
  jsonContent : option DSXJobInfo
}.

(** [results.find(r => r.data.name === n)?.data] *)
Definition find_data (results : list ProcessingResult) (n : str)
    : option DSXJobInfo :=
  data <$> List.find (λ r, str_eqb (name (data r)) n) results.

(** [newFiles] of [handleFilesUploaded] *)
Definition newFiles (results : list ProcessingResult) : list FileItem :=
  map (λ file,
         {| item_name := entry_name file;
            item_type := txt "file";
            item_description := entry_description file;
            item_parameters := entry_parameters file;
            item_sources := entry_sources file;
            item_targets := entry_targets file;
            path := txt "/" ++ entry_name file;
            content := JSON_stringify_indented <$> find_data results (entry_name file);
            jsonContent := find_data results (entry_name file) |})
      (createFileTree results).

(** * Statements

    The vocabulary of the theorems below: capture-group conditions, the
    properties the specification states, and the sample documents and jobs
    the statements are tried on. *)

(** Group [i] is safe in [r] when no parenthesis numbered [i] can match the
    empty string, and set by [r] when every match goes through one. *)
Fixpoint cap_safe (i : nat) (r : regex) : bool :=
  match r with
  | Group j a => (if j =? i then 0 <? min_len a else true) && cap_safe i a
  | Seq a b | Alt a b => cap_safe i a && cap_safe i b
  | Star _ a => cap_safe i a
  | Empty | Chr _ | Eos | WordB => true
  end.

Fixpoint cap_set (i : nat) (r : regex) : bool :=
  match r with
  | Group j a => (j =? i) || cap_set i a
  | Seq a b => cap_set i a || cap_set i b
  | Alt a b => cap_set i a && cap_set i b
  | Star _ _ | Empty | Chr _ | Eos | WordB => false
  end.

(** no header field, no parameter record, and not both stage lists *)
Definition no_constructs (doc : str) : Prop :=
  re_match jobNameRe doc = None ∧
  re_match descRe doc = None ∧
  re_match jobTypeRe doc = None ∧
  re_match paramRegex doc = None ∧
  (re_match stageListRe doc = None ∨ re_match stageNamesRe doc = None).

(** a text in which nothing is recognised *)
Definition doc_plain_text : str := txt "nothing of a job in here".

(** the claim C1 makes of the transform extractor: it runs over the
    document whether or not the stage lists are there *)
Definition transforms_survive_missing_lists : Prop :=
  ∀ now doc flag r,
    re_match stageListRe doc = None ∨ re_match stageNamesRe doc = None →
    extractDSXJobInfo now doc flag = Some r →
    extract_transforms doc = Some (transforms r).

(** a transformation block and no stage list *)
Definition doc_without_lists : str :=
  txt "BEGIN DSRECORD Name " ++ dq ++ txt "T1" ++ dq ++
  txt " Name " ++ dq ++ txt "TrxGenCode" ++ dq ++
  txt " Value =+=+=+=a = b;=+=+=+= END DSRECORD".

Definition field_text (kv : str * json) : str :=
  quote (fst kv) ++ txt ":" ++ stringify (snd kv).

(** a document with a name, a type and nothing else *)
Definition doc_header_only : str :=
  txt "Identifier " ++ dq ++ txt "Job" ++ dq ++
  txt " JobType " ++ dq ++ txt "1" ++ dq.

(** what C5 states: a stage on neither side of any connection is always
    reported *)
Definition disconnected_always_reported : Prop :=
  ∀ data stage,
    stage ∈ stage_names data →
    is_disconnected data stage = true →
    valid (validateExtractedData data) = false ∧
    disconnected_message stage ∈ issues (validateExtractedData data).

(** a job with a name, a type, one source and no flow *)
Definition job_without_flow : DSXJobInfo :=
  {| name := txt "Job"; description := []; type := VStr (txt "Parallel Job");
     parameters := [];
     sources := [ {| s_name := txt "CustomerExtract"; s_type := VStr (txt "source");
                     s_columns := []; s_sql := None; s_where_clauses := None;
                     s_table := Some (txt "CUSTOMERS"); s_connection := None;
                     s_database := None |} ];
     targets := []; transforms := []; sql_scripts := []; lookups := [];
     filters := []; specialized_stages := []; flow := [];
     metadata := {| extractedAt := []; version := txt "1.2.0";
                    tokenCount := None |} |}.

(** the same job once its source feeds nothing in a flow of one connection *)
Definition job_with_flow : DSXJobInfo :=
  {| name := name job_without_flow; description := [];
     type := type job_without_flow; parameters := [];
     sources := sources job_without_flow;
     targets := []; transforms := []; sql_scripts := []; lookups := [];
     filters := []; specialized_stages := [];
     flow := [ {| f_link := txt "L1"; f_from := VStr (txt "A");
                  f_to := VStr (txt "B"); f_columns := None |} ];
     metadata := metadata job_without_flow |}.

(** an endpoint is resolved when it is the name the stage map holds for
    some identifier, and that name is not a placeholder *)
Definition endpoint_resolved (stageMap : gmap str str) (v : value) : Prop :=
  ∃ id s, v = VStr s ∧ stageMap !! id = Some s ∧
          s ≠ txt "Unknown" ∧ s ≠ txt " ".

(** what C3 states *)
Definition endpoints_always_resolved : Prop :=
  ∀ now doc flag r f,
    extractDSXJobInfo now doc flag = Some r → f ∈ flow r →
    endpoint_resolved (stage_map_of doc) (f_from f) ∧
    endpoint_resolved (stage_map_of doc) (f_to f).

(** one stage, no parallel lists, and a link record from an identifier
    that is not in the stage list *)
Definition doc_raw_link : str :=
  txt "StageList " ++ dq ++ txt "V0" ++ dq ++
  txt " StageNames " ++ dq ++ txt "A" ++ dq ++
  txt " BEGIN DSRECORD StageType " ++ dq ++ txt "Link" ++ dq ++
  txt " FromStageID " ++ dq ++ txt "V9" ++ dq ++
  txt " ToStageID " ++ dq ++ txt "V0" ++ dq ++ txt " END DSRECORD".

Definition flow_raw_link : DSXFlow :=
  {| f_link := txt "V9_to_A"; f_from := VStr (txt "V9");
     f_to := VStr (txt "A"); f_columns := None |}.

(** two stages joined by the parallel lists *)
Definition doc_two_stages : str :=
  txt "StageList " ++ dq ++ txt "V0S0|V0S1" ++ dq ++
  txt " StageNames " ++ dq ++ txt "Extract|Load" ++ dq ++
  txt " LinkNames " ++ dq ++ txt "L1" ++ dq ++
  txt " LinkSourcePinIDs " ++ dq ++ txt "V0S0P1" ++ dq ++
  txt " TargetStageIDs " ++ dq ++ txt "V0S1" ++ dq.

Definition flow_two_stages : DSXFlow :=
  {| f_link := txt "L1"; f_from := VStr (txt "Extract");
     f_to := VStr (txt "Load"); f_columns := None |}.

(** what C4 states of the targets: every one has a name, and not an empty
    one *)
Definition every_target_named : Prop :=
  ∀ now doc flag r t,
    extractDSXJobInfo now doc flag = Some r → t ∈ targets r →
    ∃ n, target_name t = Some n ∧ n ≠ [].

(** the stage lists, and a dataset field with no record name before it *)
Definition doc_nameless_dataset : str :=
  txt "StageList " ++ dq ++ txt "V0" ++ dq ++
  txt " StageNames " ++ dq ++ txt "A" ++ dq ++
  txt " Name " ++ dq ++ txt "dataset" ++ dq ++
  txt " Value " ++ dq ++ txt "/data/out.ds" ++ dq.

Definition nameless_target : DSXTarget :=
  OfDataset {| d_type := txt "dataset"; d_dataset := txt "out.ds";
               d_name := None; d_mode := None |}.

(** a target has a non-empty name, or is a dataset target without any *)
Definition target_named (t : DSXTarget) : Prop :=
  match t with
  | OfTable t => t_name t ≠ []
  | OfDataset d => d_name d = None ∨ ∃ n, d_name d = Some n ∧ n ≠ []
  end.

(** a source block under a named record, and a transformation block under
    none *)
Definition doc_named_entities : str :=
  txt "StageList " ++ dq ++ txt "V0" ++ dq ++
  txt " StageNames " ++ dq ++ txt "CustomerExtract" ++ dq ++
  txt " BEGIN DSRECORD Name " ++ dq ++ txt "CustomerExtract" ++ dq ++
  txt " XMLProperties Value =+=+=+=<Context>1</Context>" ++
  txt "<TableName><![CDATA[CUSTOMERS]]></TableName>=+=+=+= END DSRECORD" ++
  txt " BEGIN DSRECORD  END DSRECORD".

(** a job whose type code is the name of a member of [Object.prototype] *)
Definition doc_inherited_code : str :=
  txt "JobType " ++ dq ++ txt "constructor" ++ dq.

(** a description of two paragraphs, in a file with LF line ends *)
Definition doc_lf_description : str :=
  txt "FullDescription =+=+=+=Loads the customers" ++ lf ++ txt "every night." ++
  lf ++ lf ++ txt "Owner: the data team.=+=+=+=".

(** the same description in a file with CRLF line ends *)
Definition doc_crlf_description : str :=
  txt "FullDescription =+=+=+=Loads the customers" ++ crlf ++ txt "every night." ++
  crlf ++ crlf ++ txt "Owner: the data team.=+=+=+=".

(** a word that starts and ends with a capital letter, as the keywords do *)
Definition capital_ends (w : str) : Prop :=
  (∃ a, head w = Some a ∧ is_upper a = true) ∧
  (∃ b, last w = Some b ∧ is_upper b = true).

Definition terminator_words : list str :=
  [txt "GROUP BY"; txt "ORDER BY"; txt "HAVING"].

(** A terminator of a WHERE clause starts at a position ([p] is the
    character before it, [s] the text from it on): the text ends there, or
    one of the keywords stands there, in any case, as a word of its own. *)
Definition terminator_here (p : option N) (s : str) : Prop :=
  s = [] ∨
  ∃ u tl kw, s = u ++ tl ∧ kw ∈ terminator_words ∧ map canon u = kw ∧
             word_at p = false ∧ word_at (head tl) = false.

(** [body] is the text of a WHERE clause of [sql]: it stands after the
    word WHERE (in any case, as a word of its own) and some white space,
    holds no line terminator, runs up to a terminator, and no terminator
    starts inside it. *)
Definition where_clause_in (sql body : str) : Prop :=
  ∃ pre kw sp tail,
    sql = pre ++ kw ++ sp ++ body ++ tail ∧
    word_at (last pre) = false ∧
    map canon kw = txt "WHERE" ∧
    sp ≠ [] ∧ Forall (λ x, is_space x = true) sp ∧
    Forall (λ x, is_line_terminator x = false) body ∧
    terminator_here (last (pre ++ kw ++ sp ++ body)) tail ∧
    ∀ j, j < length body →
         ¬ terminator_here (last (pre ++ kw ++ sp ++ take j body))
                           (drop j body ++ tail).

(** the pattern can match at index [i] of the text *)
Definition can_match (re : regex) (sql : str) (i : nat) : Prop :=
  ∃ a b σ' c', sql = a ++ b ∧ length a = i ∧ Sem re (mkst (last a) b) ∅ σ' c'.

(** index [i] lies in one of the matches *)
Definition covered (ms : list rmatch_result) (i : nat) : Prop :=
  ∃ mt, mt ∈ ms ∧ m_index mt ≤ i < m_end mt.

(** a WHERE clause can be read at index [i] of the statement: the word
    WHERE stands there as a word of its own, then white space, then a text
    without line terminators that a terminator follows *)
Definition where_occurs_at (sql : str) (i : nat) : Prop :=
  ∃ pre kw sp body tail,
    sql = pre ++ kw ++ sp ++ body ++ tail ∧ length pre = i ∧
    word_at (last pre) = false ∧
    map canon kw = txt "WHERE" ∧
    sp ≠ [] ∧ Forall (λ x, is_space x = true) sp ∧
    Forall (λ x, is_line_terminator x = false) body ∧
    terminator_here (last (pre ++ kw ++ sp ++ body)) tail.

(** the source stage of the scenario: context 1 and a select statement
    with one WHERE clause *)
Definition doc_customer_extract : str :=
  txt "StageList " ++ dq ++ txt "V0S0" ++ dq ++
  txt " StageNames " ++ dq ++ txt "CustomerExtract" ++ dq ++
  txt " BEGIN DSRECORD Name " ++ dq ++ txt "CustomerExtract" ++ dq ++
  txt " XMLProperties Value =+=+=+=<Context>1</Context>" ++
  txt "<SelectStatement><![CDATA[SELECT * FROM CUSTOMERS WHERE STATUS = 'A']]>" ++
  txt "</SelectStatement>=+=+=+= END DSRECORD".

(** ** Vocabulary of the further properties *)

(** *** Validation *)

(** a stage name is on one side of some connection; an entity without a
    name is on none *)
Definition connected (data : DSXJobInfo) (stage : option str) : Prop :=
  ∃ s, stage = Some s ∧
       (VStr s ∈ map f_from (flow data) ∨ VStr s ∈ map f_to (flow data)).

(** *** Token estimate *)

(** the keys of the breakdown that stand for the array sections of a job *)
Definition section_names : list str :=
  [txt "parameters"; txt "sources"; txt "targets"; txt "transforms";
   txt "sql_scripts"; txt "lookups"; txt "filters"; txt "specialized_stages";
   txt "flow"].

(** *** Column types *)

(** the type codes whose names take a precision *)
Definition sized_codes : list str := [txt "1"; txt "2"; txt "3"; txt "12"].

(** the names that take a precision, as the code lists them *)
Definition sized_names : list str :=
  [txt "NUMERIC"; txt "DECIMAL"; txt "CHAR"; txt "VARCHAR"].

(** *** Sections of the result *)

(** a target as the extraction stores it *)
Definition target_well_formed (t : DSXTarget) : Prop :=
  match t with
  | OfTable tgt =>
    (∃ tb, t_table tgt = Some tb ∧ tb ≠ []) ∧
    (∀ m, t_mode tgt = Some m → m ∈ modes)
  | OfDataset d =>
    d_type d = txt "dataset" ∧ d_dataset d ≠ [] ∧
    (∀ m, d_mode d = Some m → m ≠ [])
  end.

(** the tags a script is looked for under *)
Definition script_kinds : list str :=
  [txt "BeforeSQL"; txt "AfterSQL"; txt "SelectStatement"].

(** a lookup as the extraction stores it *)
Definition lookup_well_formed (l : DSXLookup) : Prop :=
  l_type l = txt "Lookup" ∧
  (l_inputs l ≠ [] ∨ l_key_columns l ≠ []) ∧
  (l_fail_mode l ≠ [] ↔ l_inputs l ≠ []) ∧
  Forall (λ n, n ≠ []) (l_inputs l) ∧
  Forall (λ n, n ≠ []) (l_key_columns l).

(** the fields the extraction declares and never fills *)
Definition never_filled (r : DSXJobInfo) : Prop :=
  filters r = [] ∧ specialized_stages r = [] ∧
  Forall (λ s, s_columns s = []) (sources r) ∧
  Forall (λ t, ∀ tgt, t = OfTable tgt → t_columns tgt = []) (targets r) ∧
  Forall (λ l, l_output l = []) (lookups r).

(** a column of a link: named, and not a system column *)
Definition column_well_formed (c : DSXColumn) : Prop :=
  c_name c ≠ [] ∧ is_system_column (c_name c) = false.

(** The columns of a connection, [array] being the column list the column
    table has been re-parented onto, if any: a list built for a link; or
    the length of [array] or one of its columns, under the link names
    [length] and the numerals of its indices; or a member the table
    inherits under the name of the link, from [Object.prototype] or, once
    re-parented, from [Array.prototype]. *)
Definition flow_columns_well_formed (array : option (list DSXColumn))
    (f : DSXFlow) : Prop :=
  match f_columns f with
  | Some (ColsOwn columns) => columns ≠ [] ∧ Forall column_well_formed columns
  | Some (ColsLength n) =>
    f_link f = txt "length" ∧ ∃ a, array = Some a ∧ n = length a ∧ 0 < n
  | Some (ColsItem column) =>
    ∃ a i, array = Some a ∧ f_link f = decimal i ∧ a !! i = Some column ∧
           column_well_formed column
  | Some (ColsObj key) =>
    key = f_link f ∧
    (inherited key = true ∨ (is_Some array ∧ array_inherited key = true))
  | None => True
  end.

(** *** White space *)

(** [s.replace(/c+/g, rep)] for a class [c] of characters, written as a
    scan: a run of characters of the class gives [rep] once; [in_run] tells
    that the character before was of the class. *)
Fixpoint squash (f : N → bool) (rep : str) (in_run : bool) (s : str) : str :=
  match s with
  | [] => []
  | ch :: tl =>
    if f ch
    then (if in_run then [] else rep) ++ squash f rep true tl
    else ch :: squash f rep false tl
  end.

(** no white space but the plain space, and never two in a row *)
Definition single_spaced (t : str) : Prop :=
  Forall (λ c, is_space c = true → c = 32%N) t ∧
  ∀ i a b, t !! i = Some a → t !! S i = Some b →
           is_space a = true → is_space b = false.

(** a match found one character further on *)
Definition shifted (mt : rmatch_result) : rmatch_result :=
  mkmatch (S (m_index mt)) (m_text mt) (m_caps mt) (m_after mt).

(** no white space at either end *)
Definition trimmed (t : str) : Prop :=
  (∀ c, head t = Some c → is_space c = false) ∧
  (∀ c, last t = Some c → is_space c = false).

(** a rule as it is kept: an assignment, trimmed and single-spaced, that
    is neither a comment nor a declaration *)
Definition rule_well_formed (rule : str) : Prop :=
  rule ≠ [] ∧ 61%N ∈ rule ∧ trimmed rule ∧ single_spaced rule ∧
  starts_with (txt "//") rule = false ∧
  starts_with (txt "int") rule = false.

(** a transform as the extraction stores it *)
Definition transform_well_formed (x : DSXTransform) : Prop :=
  x_rules x ≠ [] ∧
  Forall rule_well_formed (x_rules x) ∧
  (∀ v, x_input x = Some v → v ≠ []) ∧
  (∀ v, x_output x = Some v → v ≠ []) ∧
  (∀ l, x_reject_conditions x = Some l → Forall (λ c, c ≠ [] ∧ trimmed c) l).

(** A source as the extraction stores it: a name; a statement whose only
    white space is the blank; clauses, when there are any, that are not
    empty and have no white space around them; and either a statement and
    no table, or a table and no statement to speak of. *)
Definition source_well_formed (s : DSXSource) : Prop :=
  s_name s ≠ [] ∧
  (∀ q, s_sql s = Some q → Forall (λ c, is_space c = true → c = 32%N) q) ∧
  (∀ w, s_where_clauses s = Some w →
        w ≠ [] ∧ Forall (λ c, c ≠ [] ∧ trimmed c) w) ∧
  ((∃ q, s_sql s = Some q ∧ q ≠ [] ∧ s_table s = None) ∨
   (∃ t, s_table s = Some t ∧ t ≠ [] ∧
         (s_sql s = None ∨ s_sql s = Some []) ∧ s_where_clauses s = None)).

(** *** Fields of the document *)

(** the first place at which [w] occurs in [pre ++ w ++ ...] is the end of
    [pre] *)
Definition first_at (w pre doc : str) : Prop :=
  ∀ a b, doc = a ++ w ++ b → length pre ≤ length a.

(** [doc] has the field [K Q v Q] after [pre], and [K Q] nowhere before *)
Definition first_field (k : string) (doc pre v post : str) : Prop :=
  doc = pre ++ (txt k ++ txt " " ++ dq) ++ v ++ dq ++ post ∧
  first_at (txt k ++ txt " " ++ dq) pre doc.
Arguments first_field k%_string doc pre v post.

(** the text of a list field: on one line and without a double quote *)
Definition list_text (v : str) : Prop :=
  (34%N ∉ v) ∧ Forall (λ x, is_line_terminator x = false) v.

(** a name the flow accepts as an end of a connection *)
Definition resolved_name (n : str) : Prop :=
  n ≠ [] ∧ n ≠ txt "Unknown" ∧ n ≠ txt " ".

(** *** Parameter sub-records *)

(** what opens a sub-record *)
Definition opener : str := txt "BEGIN DSSUBRECORD".

(** The text of a parameter sub-record: the fields in the order of an
    export, [pt_gap] being the white space between two of them. *)
Record ParameterText := {
  pt_gap : str;
  pt_name : str;
  pt_prompt : str;
  pt_default : str;
  pt_help : option str;
  pt_type : str
}.

(** the sub-record, followed by [post] *)
Definition parameter_text (q : ParameterText) (post : str) : str :=
  opener ++ pt_gap q ++
  (txt "Name " ++ dq) ++ pt_name q ++ dq ++ pt_gap q ++
  (txt "Prompt " ++ dq) ++ pt_prompt q ++ dq ++ pt_gap q ++
  (txt "Default " ++ dq) ++ pt_default q ++ dq ++ pt_gap q ++
  match pt_help q with
  | Some h =>
    (txt "HelpTxt " ++ dq) ++ h ++ dq ++ pt_gap q ++
    (txt "ParamType " ++ dq) ++ pt_type q ++ dq ++ post
  | None => (txt "ParamType " ++ dq) ++ pt_type q ++ dq ++ post
  end.

(** sub-records one after the other, each after some text of its own,
    and [tail] after the last *)
Fixpoint parameter_section (items : list (str * ParameterText)) (tail : str)
    : str :=
  match items with
  | [] => tail
  | (before, q) :: rest =>
    before ++ parameter_text q (parameter_section rest tail)
  end.

(** no sub-record opens in [before] when a sub-record follows it *)
Definition opener_free (before : str) : bool :=
  negb (includes opener (before ++ take 16 opener)).

(** the gap is white space, the values hold no double quote, name and
    type are not empty *)
Definition parameter_text_ok (q : ParameterText) : Prop :=
  pt_gap q ≠ [] ∧ Forall (λ x, is_space x = true) (pt_gap q) ∧
  pt_name q ≠ [] ∧ (34%N ∉ pt_name q) ∧
  (34%N ∉ pt_prompt q) ∧ (34%N ∉ pt_default q) ∧
  (∀ h, pt_help q = Some h → 34%N ∉ h) ∧
  pt_type q ≠ [] ∧ (34%N ∉ pt_type q).

(** the parameter a sub-record stands for *)
Definition parameter_read (q : ParameterText) : DSXParameter :=
  {| p_name := pt_name q;
     p_prompt := pt_prompt q;
     p_default := pt_default q;
     p_help := default [] (pt_help q);
     p_type := param_type_label (pt_type q) |}.

(** the captures of a parameter sub-record *)
Definition parameter_caps (q : ParameterText) : caps :=
  <[5 := pt_type q]>
    (match pt_help q with
     | Some h => <[4 := h]>
     | None => λ c, c
     end (<[3 := pt_default q]> (<[2 := pt_prompt q]> (<[1 := pt_name q]> ∅)))).

(** *** SQL scripts *)

(** the text of a script as it is stored: never two blanks in a row, and
    no white space after a line feed *)
Definition script_text (t : str) : Prop :=
  (∀ i, t !! i = Some 32%N → t !! S i ≠ Some 32%N) ∧
  (∀ i, t !! i = Some 10%N → ∃ c, t !! S i = Some c ∧ is_space c = false).

(** a script as the extraction stores it *)
Definition script_well_formed (q : DSXSqlScript) : Prop :=
  q_stage q ≠ [] ∧ q_type q ∈ script_kinds ∧
  script_text (q_sql q) ∧
  ∃ c, head (q_sql q) = Some c ∧ is_space c = false.

(** *** More sample documents *)

(** a target stage with a table, a write mode and a statement to run before
    the load, and a dataset field after it *)
Definition doc_customer_load : str :=
  txt "StageList " ++ dq ++ txt "V0S0" ++ dq ++ txt " StageNames " ++ dq ++
  txt "CustomerLoad" ++ dq ++ txt " BEGIN DSRECORD Name " ++ dq ++
  txt "CustomerLoad" ++ dq ++
  txt " XMLProperties Value =+=+=+=<Context>2</Context>" ++
  txt "<TableName><![CDATA[DW.CUSTOMERS]]></TableName><WriteMode>" ++
  txt "<![CDATA[2]]></WriteMode><BeforeSQL><![CDATA[  DELETE  " ++
  txt "FROM DW.CUSTOMERS" ++ crlf ++ txt "     WHERE LOADED = 1" ++ lf ++ lf ++
  txt "  ]]></BeforeSQL>=+=+=+= END DSRECORD Name " ++ dq ++ txt "Archive" ++
  dq ++ txt " Name " ++ dq ++ txt "dataset" ++ dq ++ txt " Value " ++ dq ++
  txt "/data/out/customers.ds" ++ dq.

(** a lookup stage with one reference link and one key column *)
Definition doc_lookup : str :=
  txt "StageList " ++ dq ++ txt "V0S1" ++ dq ++ txt " StageNames " ++ dq ++
  txt "Enrich" ++ dq ++ txt " BEGIN DSRECORD StageType " ++ dq ++
  txt "PxLookup" ++ dq ++ txt " Name " ++ dq ++ txt "Enrich" ++ dq ++
  txt " Identifier " ++ dq ++ txt "V0S1P1" ++ dq ++ txt " Name " ++ dq ++
  txt "lnk_ref" ++ dq ++ txt " Partner " ++ dq ++ txt "V0S3" ++ dq ++
  txt " LookupFail " ++ dq ++ txt "continue" ++ dq ++ txt " KeyPosition " ++
  dq ++ txt "1" ++ dq ++ txt " Name " ++ dq ++ txt "CUST_ID" ++ dq ++
  txt " LookupType " ++ dq ++ txt "1" ++ dq ++ txt " END DSRECORD".

(** a transformer stage: its links, a declaration, a derivation, a reject
    condition and a comment *)
Definition doc_transform : str :=
  txt "StageList " ++ dq ++ txt "V0S1" ++ dq ++ txt " StageNames " ++ dq ++
  txt "Derive" ++ dq ++ txt " BEGIN DSRECORD Name " ++ dq ++ txt "Derive" ++
  dq ++ txt " Name " ++ dq ++ txt "TrxGenCode" ++ dq ++
  txt " Value =+=+=+=inputname 0 lnk_in;" ++ lf ++
  txt "outputname 0 lnk_out;" ++ lf ++ txt "int rc = 0;" ++ lf ++
  txt "  lnk_out.TOTAL   =  lnk_in.NET + lnk_in.TAX;" ++ lf ++
  txt "if (lnk_in.NET < 0) { reject 0; }" ++ lf ++ txt "// note = none" ++
  lf ++ txt "=+=+=+= END DSRECORD".

(** two stages, the link between them and the columns of that link *)
Definition doc_columns : str :=
  txt "StageList " ++ dq ++ txt "V0S0|V0S1" ++ dq ++ txt " StageNames " ++
  dq ++ txt "Extract|Load" ++ dq ++ txt " LinkNames " ++ dq ++ txt "lnk_in" ++
  dq ++ txt " LinkSourcePinIDs " ++ dq ++ txt "V0S0P1" ++ dq ++
  txt " TargetStageIDs " ++ dq ++ txt "V0S1" ++ dq ++
  txt " BEGIN DSRECORD Identifier " ++ dq ++ txt "V0S0P1" ++ dq ++
  txt " Name " ++ dq ++ txt "lnk_in" ++ dq ++ txt " Columns " ++ dq ++
  txt "COutputColumn" ++ dq ++ txt " Name " ++ dq ++ txt "CUST_ID" ++ dq ++
  txt " SqlType " ++ dq ++ txt "4" ++ dq ++ txt " Precision " ++ dq ++
  txt "10" ++ dq ++ txt " Scale " ++ dq ++ txt "0" ++ dq ++ txt " Nullable " ++
  dq ++ txt "0" ++ dq ++ txt " Derivation " ++ dq ++ txt "src.CUST_ID  +  1" ++
  dq ++ txt " Name " ++ dq ++ txt "APT_ROW" ++ dq ++ txt " SqlType " ++ dq ++
  txt "4" ++ dq ++ txt " Precision " ++ dq ++ txt "10" ++ dq ++
  txt " Scale " ++ dq ++ txt "0" ++ dq ++ txt " Nullable " ++ dq ++ txt "1" ++
  dq ++ txt " Name " ++ dq ++ txt "AMOUNT" ++ dq ++ txt " SqlType " ++ dq ++
  txt "3" ++ dq ++ txt " Precision " ++ dq ++ txt "12" ++ dq ++
  txt " Scale " ++ dq ++ txt "2" ++ dq ++ txt " Nullable " ++ dq ++ txt "1" ++
  dq ++ txt " MetaBag END DSRECORD".

(** two parameters as an export writes them, the first with a help text *)
Definition text_of_source_db : ParameterText :=
  {| pt_gap := crlf ++ txt "   ";
     pt_name := txt "SRC_DB";
     pt_prompt := txt "Source database";
     pt_default := [];
     pt_help := Some (txt "where the customers are read from");
     pt_type := txt "1" |}.

Definition text_of_run_date : ParameterText :=
  {| pt_gap := txt " ";
     pt_name := txt "RUN_DATE";
     pt_prompt := [];
     pt_default := txt "2020-01-01";
     pt_help := None;
     pt_type := txt "6" |}.

(** two results for jobs of the same name *)
Definition results_of_one_name : list ProcessingResult :=
  [ {| originalFile := txt "first.dsx"; data := job_without_flow;
       tokenUsage := Some (estimateTokenUsage job_without_flow) |};
    {| originalFile := txt "second.dsx"; data := job_with_flow;
       tokenUsage := Some (estimateTokenUsage job_with_flow) |} ].

(** a parameter section of two sub-records *)
Definition doc_parameters : str :=
  parameter_section
    [(txt "BEGIN DSJOB" ++ lf, text_of_source_db);
     (lf ++ txt "END DSSUBRECORD" ++ lf, text_of_run_date)]
    (lf ++ txt "END DSSUBRECORD" ++ lf ++ txt "END DSJOB").

(** two stages and the link between them, called [length]; the columns of
    an output pin whose link is called [__proto__] *)
Definition doc_reparented : str :=
  txt "StageList " ++ dq ++ txt "V0S0|V0S1" ++ dq ++ txt " StageNames " ++
  dq ++ txt "Extract|Load" ++ dq ++ txt " LinkNames " ++ dq ++ txt "length" ++
  dq ++ txt " LinkSourcePinIDs " ++ dq ++ txt "V0S0P1" ++ dq ++
  txt " TargetStageIDs " ++ dq ++ txt "V0S1" ++ dq ++
  txt " BEGIN DSRECORD Identifier " ++ dq ++ txt "V0S0P1" ++ dq ++
  txt " Name " ++ dq ++ txt "__proto__" ++ dq ++ txt " Columns " ++ dq ++
  txt "COutputColumn" ++ dq ++ txt " Name " ++ dq ++ txt "CUST_ID" ++ dq ++
  txt " SqlType " ++ dq ++ txt "4" ++ dq ++ txt " Precision " ++ dq ++
  txt "10" ++ dq ++ txt " Scale " ++ dq ++ txt "0" ++ dq ++ txt " Nullable " ++
  dq ++ txt "0" ++ dq ++ txt " MetaBag END DSRECORD".

(** three files, the second of which cannot be read *)
Definition files_with_unreadable : list File :=
  [ {| file_name := txt "first.dsx"; file_text := Some doc_header_only |};
    {| file_name := txt "second.dsx"; file_text := None |};
    {| file_name := txt "third.dsx"; file_text := Some doc_two_stages |} ].

(** *** Fields read from a text *)

(** [text] holds the field [K Q v Q] after [pre], with a value that is not
    empty and holds no double quote *)
Definition field_at (k : string) (text pre v post : str) : Prop :=
  text = pre ++ (txt k ++ txt " " ++ dq) ++ v ++ dq ++ post ∧
  v ≠ [] ∧ 34%N ∉ v.
Arguments field_at k%_string text pre v post.

(** What is read of [text] as the value of its field [K]: the value of the
    first such field, or nothing when [text] has none. *)
Definition field_read (k : string) (text : str) (read : option str) : Prop :=
  match read with
  | Some v =>
    ∃ pre post, field_at k text pre v post ∧
                ∀ pre' v' post', field_at k text pre' v' post' →
                                 length pre ≤ length pre'
  | None => ∀ pre v post, ¬ field_at k text pre v post
  end.
Arguments field_read k%_string text read.

(** the field that announces a dataset *)
Definition dataset_field : str := txt "Name " ++ dq ++ txt "dataset" ++ dq.

(** a source block under the record of a stage, a dataset field under the
    record of another, and a transformation block under a record without a
    name *)
Definition doc_entities : str :=
  txt "StageList " ++ dq ++ txt "V0S0|V0S1" ++ dq ++
  txt " StageNames " ++ dq ++ txt "CustomerExtract|Archive" ++ dq ++
  txt " BEGIN DSRECORD Name " ++ dq ++ txt "CustomerExtract" ++ dq ++
  txt " XMLProperties Value =+=+=+=<Context>1</Context>" ++
  txt "<TableName><![CDATA[CUSTOMERS]]></TableName>=+=+=+= END DSRECORD" ++
  txt " BEGIN DSRECORD Name " ++ dq ++ txt "Archive" ++ dq ++
  txt " Name " ++ dq ++ txt "dataset" ++ dq ++
  txt " Value " ++ dq ++ txt "/data/out/customers.ds" ++ dq ++ txt " END DSRECORD" ++
  txt " BEGIN DSRECORD Identifier " ++ dq ++ txt "V0S2" ++ dq ++
  txt " Name " ++ dq ++ txt "TrxGenCode" ++ dq ++
  txt " Value =+=+=+=out.TOTAL = in.NET + in.TAX;=+=+=+= END DSRECORD".

(** *** Select statements *)

(** what follows the first [*/] of a text *)
Fixpoint after_comment_end (s : str) : option str :=
  match s with
  | [] => None
  | _ :: tl =>
    if starts_with (txt "*/") s then Some (drop 2 s) else after_comment_end tl
  end.

(** A text without its block comments, read from left to right: a comment
    runs from a [/*] to the first [*/] that stands after it; a [/*] that is
    never closed stays.  [n] bounds the number of steps. *)
Fixpoint strip_comments_go (n : nat) (s : str) : str :=
  match n with
  | 0 => s
  | S n' =>
    match s with
    | [] => []
    | ch :: tl =>
      if starts_with (txt "/*") s
      then match after_comment_end (drop 2 s) with
           | Some rest => strip_comments_go n' rest
           | None => ch :: strip_comments_go n' tl
           end
      else ch :: strip_comments_go n' tl
    end
  end.

Definition strip_comments (s : str) : str := strip_comments_go (length s) s.

(** the statement of a source as the words of the specification have it:
    white space first, comments then *)
Definition normalised_select (raw : str) : str :=
  strip_comments (squash is_space (txt " ") false (trim raw)).

(** the clauses kept of the matches of the WHERE pattern *)
Definition kept_clauses (ms : list rmatch_result) : list str :=
  filter (λ c, c ≠ []) (map (λ mt, trim (grp mt 1)) ms).

(** what C8 states of the statement of a source: its white space is
    normalised, no two blanks in a row *)
Definition statement_is_single_spaced : Prop :=
  ∀ now doc flag r src sql,
    extractDSXJobInfo now doc flag = Some r → src ∈ sources r →
    s_sql src = Some sql →
    ∀ i, sql !! i = Some 32%N → sql !! S i ≠ Some 32%N.

(** what C8 states of the clauses: the text of every WHERE clause that can
    be read in the statement of a source is one of its clauses *)
Definition every_where_clause_is_listed : Prop :=
  ∀ now doc flag r src sql body,
    extractDSXJobInfo now doc flag = Some r → src ∈ sources r →
    s_sql src = Some sql → where_clause_in sql body →
    ∃ clauses, s_where_clauses src = Some clauses ∧ trim body ∈ clauses.

(** a source stage whose select statement holds a comment between two
    blanks *)
Definition doc_commented_select : str :=
  txt "StageList " ++ dq ++ txt "V0S0" ++ dq ++
  txt " StageNames " ++ dq ++ txt "CustomerExtract" ++ dq ++
  txt " BEGIN DSRECORD Name " ++ dq ++ txt "CustomerExtract" ++ dq ++
  txt " XMLProperties Value =+=+=+=<Context>1</Context>" ++
  txt "<SelectStatement><![CDATA[SELECT * FROM CUSTOMERS /* all */ " ++
  txt "WHERE STATUS = 'A']]>" ++
  txt "</SelectStatement>=+=+=+= END DSRECORD".

(** a source stage whose select statement has a WHERE clause inside a
    WHERE clause *)
Definition doc_nested_where : str :=
  txt "StageList " ++ dq ++ txt "V0S0" ++ dq ++
  txt " StageNames " ++ dq ++ txt "CustomerExtract" ++ dq ++
  txt " BEGIN DSRECORD Name " ++ dq ++ txt "CustomerExtract" ++ dq ++
  txt " XMLProperties Value =+=+=+=<Context>1</Context>" ++
  txt "<SelectStatement><![CDATA[SELECT * FROM A WHERE X IN " ++
  txt "(SELECT Y FROM B WHERE Z=1)]]>" ++
  txt "</SelectStatement>=+=+=+= END DSRECORD".

(** * Theorems *)

(** ** The matcher finds matches, and finds one when there is one *)

Section MatcherFacts.
Context {R : Type}.
Implicit Types (k : st → caps → option R) (σ : st) (c : caps).

Lemma star_loop_sound a g
    (IHa : ∀ k σ c x, rmatch a k σ c = Some x →
           ∃ σ' c', Sem a σ c σ' c' ∧ k σ' c' = Some x) :
  ∀ n k σ c x, star_loop (rmatch a) g k n σ c = Some x →
  ∃ σ' c', Sem (Star g a) σ c σ' c' ∧ k σ' c' = Some x.
Proof.
  induction n as [|n IHn]; intros k σ c x H; simpl in H.
  - exists σ, c. split; [constructor | done].
  - assert (Hiter : ∀ y,
      rmatch a (λ σ' c', if length (rest σ') <? length (rest σ)
                         then star_loop (rmatch a) g k n σ' c' else None) σ c
        = Some y →
      ∃ σ' c', Sem (Star g a) σ c σ' c' ∧ k σ' c' = Some y).
    { intros y Hy. apply IHa in Hy as (σ1 & c1 & Ha & Hk).
      destruct (Nat.ltb_spec (length (rest σ1)) (length (rest σ))) as [Hlt|];
        [|done].
      apply IHn in Hk as (σ2 & c2 & Hs & Hk).
      exists σ2, c2. split; [|done]. by eapply Sem_StarS. }
    destruct g.
    + destruct (rmatch a _ σ c) as [y|] eqn:E.
      * inversion H; subst. by apply Hiter.
      * exists σ, c. split; [constructor | done].
    + destruct (k σ c) as [y|] eqn:E.
      * inversion H; subst. exists σ, c. split; [constructor | done].
      * by apply Hiter.
Qed.

Lemma rmatch_sound r :
  ∀ k σ c x, rmatch r k σ c = Some x →
  ∃ σ' c', Sem r σ c σ' c' ∧ k σ' c' = Some x.
Proof.
  induction r as [|f|a IHa b IHb|a IHa b IHb|g a IHa|i a IHa| |];
    intros k σ c x H; simpl in H.
  - exists σ, c. split; [constructor | done].
  - destruct σ as [p [|ch tl]]; simpl in H; [done|].
    destruct (f ch) eqn:E; [|done].
    eexists _, _. split; [by constructor | done].
  - apply IHa in H as (σ1 & c1 & Ha & H).
    apply IHb in H as (σ2 & c2 & Hb & H).
    exists σ2, c2. split; [by econstructor | done].
  - destruct (rmatch a k σ c) as [y|] eqn:E.
    + inversion H; subst. apply IHa in E as (σ' & c' & Ha & E).
      exists σ', c'. split; [by apply Sem_AltL | done].
    + apply IHb in H as (σ' & c' & Hb & H).
      exists σ', c'. split; [by apply Sem_AltR | done].
  - by eapply star_loop_sound.
  - apply IHa in H as (σ' & c' & Ha & H).
    eexists _, _. split; [by apply Sem_Group | done].
  - destruct σ as [p [|ch tl]]; simpl in H; [|done].
    eexists _, _. split; [by constructor | done].
  - destruct (at_boundary σ) eqn:E; [|done].
    exists σ, c. split; [by constructor | done].
Qed.

Lemma star_loop_complete a g
    (IHa : ∀ k σ c σ' c', Sem a σ c σ' c' → is_Some (k σ' c') →
           is_Some (rmatch a k σ c)) :
  ∀ k σ c σ' c', Sem (Star g a) σ c σ' c' → is_Some (k σ' c') →
  ∀ n, length (rest σ) ≤ n → is_Some (star_loop (rmatch a) g k n σ c).
Proof.
  intros k σ c σ' c' HS. remember (Star g a) as r eqn:Er.
  induction HS as [| | | | |g' a' σ c|g' a' σ c σ1 c1 σ2 c2 Ha _ Hlt HS IH| | |];
    try discriminate; inversion Er; subst; clear Er; intros Hk n Hn.
  - destruct n as [|n]; simpl; [done|].
    destruct g.
    + destruct (rmatch a _ σ c); [done|]. done.
    + destruct (k σ c) as [y|] eqn:E; [done|]. by destruct Hk.
  - destruct n as [|n]; simpl; [lia|].
    assert (Hiter : is_Some
      (rmatch a (λ σ' c', if length (rest σ') <? length (rest σ)
                          then star_loop (rmatch a) g k n σ' c' else None) σ c)).
    { eapply IHa; [exact Ha|].
      destruct (Nat.ltb_spec (length (rest σ1)) (length (rest σ))); [|lia].
      apply IH; [done..|lia]. }
    destruct g.
    + destruct Hiter as [y ->]. done.
    + destruct (k σ c); [done|]. done.
Qed.

Lemma rmatch_complete r :
  ∀ k σ c σ' c', Sem r σ c σ' c' → is_Some (k σ' c') →
  is_Some (rmatch r k σ c).
Proof.
  induction r as [|f|a IHa b IHb|a IHa b IHb|g a IHa|i a IHa| |];
    intros k σ c σ' c' HS Hk.
  - inversion HS; subst. done.
  - inversion HS; subst. simpl.
    match goal with E : f _ = true |- _ => by rewrite E end.
  - inversion HS; subst. simpl. eapply IHa; [done|]. by eapply IHb.
  - simpl. inversion HS; subst.
    + destruct (IHa k σ c σ' c') as [y ->]; done.
    + destruct (rmatch a k σ c); [done|]. by eapply IHb.
  - simpl. by eapply star_loop_complete.
  - inversion HS; subst. simpl. by eapply IHa.
  - inversion HS; subst. done.
  - inversion HS; subst. simpl.
    match goal with E : at_boundary _ = true |- _ => by rewrite E end.
Qed.

End MatcherFacts.

(** ** What a match reads and what it captures *)

Lemma consumed_app p w tl σ' :
  rest σ' = tl → consumed (mkst p (w ++ tl)) σ' = w.
Proof.
  intros <-. unfold consumed. simpl. rewrite length_app.
  replace (length w + length (rest σ') - length (rest σ')) with (length w) by lia.
  apply take_app_length.
Qed.

(** A match reads a prefix [w] of the input, at least [min_len r] long, and
    ends right after it. *)
Lemma Sem_reads r σ c σ' c' :
  Sem r σ c σ' c' →
  ∃ w, rest σ = w ++ rest σ' ∧ min_len r ≤ length w ∧
       σ' = after σ w (rest σ').
Proof.
  induction 1 as
    [σ c|f p ch tl c Hf|a b σ c σ1 c1 σ2 c2 _ IH1 _ IH2
    |a b σ c σ' c' _ IH|a b σ c σ' c' _ IH|g a σ c
    |g a σ c σ1 c1 σ2 c2 _ IH1 _ _ IH2|i a σ c σ' c' _ IH|p c|σ c _].
  - exists []. by destruct σ.
  - exists [ch]. simpl. split_and!; [done|lia|done].
  - destruct IH1 as (w1 & E1 & L1 & P1), IH2 as (w2 & E2 & L2 & P2).
    exists (w1 ++ w2). rewrite E1, E2, length_app, <-(assoc_L (++)).
    split_and!; [done|simpl; lia|].
    rewrite P2 at 1. rewrite P1. unfold after. simpl. rewrite last_app.
    by destruct (last w2).
  - destruct IH as (w & E & L & P). exists w. split_and!; [done|simpl; lia|done].
  - destruct IH as (w & E & L & P). exists w. split_and!; [done|simpl; lia|done].
  - exists []. split_and!; [done|simpl; lia|by destruct σ].
  - destruct IH1 as (w1 & E1 & L1 & P1), IH2 as (w2 & E2 & L2 & P2).
    exists (w1 ++ w2). rewrite E1, E2, <-(assoc_L (++)).
    split_and!; [done|simpl; lia|].
    rewrite P2 at 1. rewrite P1. unfold after. simpl. rewrite last_app.
    by destruct (last w2).
  - destruct IH as (w & E & L & P). exists w. done.
  - exists []. done.
  - exists []. by destruct σ.
Qed.

Lemma Sem_shorter r σ c σ' c' :
  Sem r σ c σ' c' → length (rest σ') + min_len r ≤ length (rest σ).
Proof.
  intros (w & E & L & _)%Sem_reads. rewrite E, length_app. lia.
Qed.

Lemma Sem_cap_safe i r σ c σ' c' :
  Sem r σ c σ' c' → cap_safe i r = true →
  c !! i ≠ Some [] → c' !! i ≠ Some [].
Proof.
  induction 1 as
    [σ c|f p ch tl c Hf|a b σ c σ1 c1 σ2 c2 _ IH1 _ IH2
    |a b σ c σ' c' _ IH|a b σ c σ' c' _ IH|g a σ c
    |g a σ c σ1 c1 σ2 c2 _ IH1 _ _ IH2|j a σ c σ' c' HS IH|p c|σ c _];
    simpl; intros Hs Hc; try done.
  - apply andb_prop in Hs as [??]. auto.
  - apply andb_prop in Hs as [??]. auto.
  - apply andb_prop in Hs as [??]. auto.
  - auto.
  - apply andb_prop in Hs as [Hj Ha].
    destruct (Nat.eqb_spec j i) as [->|Hne].
    + rewrite lookup_insert_eq. intros [= E].
      apply Sem_reads in HS as (w & Ew & L & _).
      destruct σ as [p s]; simpl in *; subst s.
      rewrite consumed_app in E by done. subst w.
      apply Nat.ltb_lt in Hj. simpl in L. lia.
    + rewrite lookup_insert_ne by done. auto.
Qed.

Lemma Sem_cap_keeps i r σ c σ' c' :
  Sem r σ c σ' c' → is_Some (c !! i) → is_Some (c' !! i).
Proof.
  induction 1; intros Hc; auto.
  destruct (decide (i0 = i)) as [->|].
  - rewrite lookup_insert_eq. done.
  - rewrite lookup_insert_ne by done. auto.
Qed.

Lemma Sem_cap_set i r σ c σ' c' :
  Sem r σ c σ' c' → cap_set i r = true → is_Some (c' !! i).
Proof.
  induction 1 as
    [σ c|f p ch tl c Hf|a b σ c σ1 c1 σ2 c2 H1 IH1 H2 IH2
    |a b σ c σ' c' _ IH|a b σ c σ' c' _ IH|g a σ c
    |g a σ c σ1 c1 σ2 c2 _ IH1 _ _ IH2|j a σ c σ' c' HS IH|p c|σ c _];
    simpl; intros Hs; try done.
  - apply orb_prop in Hs as [Hs|Hs]; [|auto].
    eapply Sem_cap_keeps; [done|auto].
  - apply andb_prop in Hs as [??]. auto.
  - apply andb_prop in Hs as [??]. auto.
  - destruct (Nat.eqb_spec j i) as [->|Hne].
    + rewrite lookup_insert_eq. done.
    + rewrite lookup_insert_ne by done. auto.
Qed.

(** ** Searching and looping *)

(** A search that succeeds skipped a prefix [pre] at which no match starts
    and found a match of [re] right after it. *)
Lemma Sem_consumed r σ c σ' c' :
  Sem r σ c σ' c' →
  rest σ = consumed σ σ' ++ rest σ' ∧
  σ' = after σ (consumed σ σ') (rest σ') ∧
  min_len r ≤ length (consumed σ σ').
Proof.
  intros (w & E & L & P)%Sem_reads. destruct σ as [p s]. simpl in E. subst s.
  by rewrite consumed_app.
Qed.

Lemma search_sound re : ∀ s idx p mt,
  search re idx p s = Some mt →
  ∃ pre, s = pre ++ m_text mt ++ rest (m_after mt) ∧
         m_index mt = idx + length pre ∧
         Sem re (after (mkst p s) pre (m_text mt ++ rest (m_after mt))) ∅
             (m_after mt) (m_caps mt).
Proof.
  assert (Hhere : ∀ s idx p mt σ' c',
    rmatch re found (mkst p s) ∅ = Some (σ', c') →
    Some (mkmatch idx (consumed (mkst p s) σ') c' σ') = Some mt →
    ∃ pre, s = pre ++ m_text mt ++ rest (m_after mt) ∧
           m_index mt = idx + length pre ∧
           Sem re (after (mkst p s) pre (m_text mt ++ rest (m_after mt))) ∅
               (m_after mt) (m_caps mt)).
  { intros s idx p mt σ' c' E [= <-]. simpl.
    apply rmatch_sound in E as (σ1 & c1 & HS & [= -> ->]).
    pose proof (Sem_consumed _ _ _ _ _ HS) as (Ew & _ & _). simpl in Ew.
    exists []. split_and!; [done|simpl; lia|].
    unfold after. simpl. by rewrite <-Ew. }
  induction s as [|ch tl IH]; intros idx p mt H; simpl in H.
  - destruct (rmatch re _ (mkst p []) ∅) as [[σ' c']|] eqn:E; [|done].
    by eapply Hhere.
  - destruct (rmatch re _ (mkst p (ch :: tl)) ∅) as [[σ' c']|] eqn:E.
    + by eapply Hhere.
    + apply IH in H as (pre & Es & Ei & HS).
      exists (ch :: pre). split_and!.
      * simpl. by rewrite <-Es.
      * simpl. lia.
      * unfold after in *. simpl in *. rewrite last_cons.
        by destruct (last pre).
Qed.

Lemma search_shorter re s idx p mt :
  search re idx p s = Some mt →
  length (rest (m_after mt)) + min_len re ≤ length s ∧
  min_len re ≤ length (m_text mt).
Proof.
  intros (pre & Es & _ & HS)%search_sound.
  apply Sem_reads in HS as (w & Ew & L & _). simpl in Ew.
  apply app_inv_tail in Ew. subst w.
  rewrite Es, !length_app. lia.
Qed.

(** A loop over the matches of a pattern that cannot match the empty
    string always ends. *)
Lemma exec_loop_total re : 0 < min_len re →
  ∀ fuel idx p s, length s < fuel → is_Some (exec_loop re fuel idx p s).
Proof.
  intros Hre. induction fuel as [|fuel IH]; intros idx p s Hf; [lia|].
  simpl. destruct (search re idx p s) as [mt|] eqn:E; [|done].
  apply search_shorter in E as [E _].
  destruct (Nat.ltb_spec (length (rest (m_after mt))) (length s)); [|lia].
  destruct (IH (m_end mt) (prev (m_after mt)) (rest (m_after mt))) as [l ->];
    [lia|done].
Qed.

Lemma exec_all_total re s : 0 < min_len re → is_Some (exec_all re s).
Proof. intros. apply exec_loop_total; [done|lia]. Qed.

Lemma exec_all_none re s : re_match re s = None → exec_all re s = Some [].
Proof. unfold exec_all, re_match. simpl. by intros ->. Qed.

(** Every match a loop returns is a match of the pattern. *)
Lemma exec_loop_caps re (P : rmatch_result → Prop) :
  (∀ idx p s mt, search re idx p s = Some mt → P mt) →
  ∀ fuel idx p s l, exec_loop re fuel idx p s = Some l → Forall P l.
Proof.
  intros HP. induction fuel as [|fuel IH]; intros idx p s l H; [done|].
  simpl in H. destruct (search re idx p s) as [mt|] eqn:E.
  - destruct (_ <? _); [|done].
    destruct (exec_loop re fuel _ _ _) as [l'|] eqn:E'; [|done].
    inversion H; subst. constructor; eauto.
  - inversion H. constructor.
Qed.

(** A group that the pattern always sets, and never to the empty string,
    is a non-empty text in every match the search returns. *)
Lemma search_grp_nonempty re i idx p s mt :
  cap_set i re = true → cap_safe i re = true →
  search re idx p s = Some mt → grp mt i ≠ [].
Proof.
  intros Hset Hsafe (pre & _ & _ & HS)%search_sound.
  pose proof (Sem_cap_set i _ _ _ _ _ HS Hset) as [v Hv].
  pose proof (Sem_cap_safe i _ _ _ _ _ HS Hsafe) as Hne.
  unfold grp, cap. rewrite Hv in *. simpl. intros ->. by apply Hne.
Qed.

Lemma re_match_grp_nonempty re i s mt :
  cap_set i re = true → cap_safe i re = true →
  re_match re s = Some mt → grp mt i ≠ [].
Proof. apply search_grp_nonempty. Qed.

(** ** The bounds on the loops are never reached *)

Lemma search_after_length re s idx p mt :
  search re idx p s = Some mt →
  length s = m_index mt - idx + length (m_text mt) + length (rest (m_after mt)).
Proof.
  intros (pre & Es & Ei & _)%search_sound.
  rewrite Es at 1. rewrite !length_app. lia.
Qed.

(** [replace_all] does not depend on the bound it gives its loop. *)
Lemma replace_loop_bound re rep : ∀ n m p s,
  length s < n → length s < m →
  replace_loop re rep n p s = replace_loop re rep m p s.
Proof.
  induction n as [|n IH]; intros [|m] p s Hn Hm; try lia. simpl.
  destruct (search re 0 p s) as [mt|] eqn:E; [|done].
  apply search_after_length in E.
  destruct (m_text mt) as [|c t] eqn:Et.
  - destruct (rest (m_after mt)) as [|ch tl] eqn:Er; [done|].
    simpl in E. do 3 f_equal. apply IH; lia.
  - simpl in E. do 2 f_equal. apply IH; lia.
Qed.

(** nor does [s.match(re)] with the [g] flag *)
Lemma match_loop_bound re : ∀ n m p s,
  length s < n → length s < m →
  match_loop re n p s = match_loop re m p s.
Proof.
  induction n as [|n IH]; intros [|m] p s Hn Hm; try lia. simpl.
  destruct (search re 0 p s) as [mt|] eqn:E; [|done].
  apply search_after_length in E.
  destruct (m_text mt) as [|c t] eqn:Et.
  - destruct (rest (m_after mt)) as [|ch tl] eqn:Er; [done|].
    simpl in E. f_equal. apply IH; lia.
  - simpl in E. f_equal. apply IH; lia.
Qed.

(** nor [split], for a separator that is not empty *)
Lemma split_go_bound sep : sep ≠ [] → ∀ n m cur s,
  length s < n → length s < m →
  split_go sep n cur s = split_go sep m cur s.
Proof.
  intros Hsep. induction n as [|n IH]; intros [|m] cur s Hn Hm; try lia.
  simpl. destruct s as [|c tl]; [done|].
  destruct (starts_with sep (c :: tl)).
  - f_equal. apply IH; rewrite length_drop; destruct sep; simpl in *; try done; lia.
  - apply IH; simpl in *; lia.
Qed.

(** nor the loop over the matches of a pattern that cannot match the
    empty string *)
Lemma exec_loop_bound re : 0 < min_len re → ∀ n m idx p s,
  length s < n → length s < m →
  exec_loop re n idx p s = exec_loop re m idx p s.
Proof.
  intros Hre. induction n as [|n IH]; intros [|m] idx p s Hn Hm; try lia.
  simpl. destruct (search re idx p s) as [mt|] eqn:E; [|done].
  apply search_shorter in E as [E _].
  destruct (_ <? _); [|done]. f_equal. apply IH; lia.
Qed.

(** ** The extraction always returns *)

Ltac positive_min_len := apply Nat.ltb_lt; vm_compute; reflexivity.

Lemma collect_total {A B} (f : A → option (list B)) l :
  (∀ a, is_Some (f a)) → is_Some (collect f l).
Proof.
  intros Hf. induction l as [|a l [xs IH]]; simpl; [done|].
  destruct (Hf a) as [x ->]. simpl. by rewrite IH.
Qed.

Lemma traverse_total {A B} (f : A → option B) l :
  (∀ a, is_Some (f a)) → is_Some (traverse f l).
Proof.
  intros Hf. induction l as [|a l [xs IH]]; simpl; [done|].
  destruct (Hf a) as [x ->]. simpl. by rewrite IH.
Qed.

Lemma extract_parameters_total doc : is_Some (extract_parameters doc).
Proof.
  unfold extract_parameters.
  destruct (exec_all_total paramRegex doc) as [l ->]; [positive_min_len|done].
Qed.

Lemma build_stage_type_map_total doc : is_Some (build_stage_type_map doc).
Proof.
  unfold build_stage_type_map.
  destruct (exec_all_total stageTypeRegex doc) as [l ->]; [positive_min_len|done].
Qed.

Lemma extractWhereClauses_total sql : is_Some (extractWhereClauses sql).
Proof.
  unfold extractWhereClauses.
  destruct (exec_all_total whereRegex sql) as [l ->]; [positive_min_len|done].
Qed.

Lemma source_of_block_total stm stageName xml :
  is_Some (source_of_block stm stageName xml).
Proof.
  unfold source_of_block.
  destruct (normalize_select <$> _) as [q|]; simpl; [|done].
  destruct (extractWhereClauses_total q) as [l ->]. done.
Qed.

Lemma process_block_total stm doc xmlMatch :
  is_Some (process_block stm doc xmlMatch).
Proof.
  unfold process_block.
  destruct (re_match nameRe _); [|done].
  destruct (re_match contextRe _); [|done].
  destruct (bool_decide (parseInt _ = Some 1%Z)); [|done].
  destruct (source_of_block_total stm (grp r 1) (grp xmlMatch 1)) as [l ->].
  done.
Qed.

Lemma process_blocks_total stm doc xmlMatches :
  is_Some (process_blocks stm doc xmlMatches).
Proof.
  induction xmlMatches as [|m l [[[ss ts] qs] IH]]; simpl; [done|].
  destruct (process_block_total stm doc m) as [[[s t] q] ->]. simpl.
  by rewrite IH.
Qed.

Lemma lookup_of_match_total lookupMatch : is_Some (lookup_of_match lookupMatch).
Proof.
  unfold lookup_of_match.
  destruct (exec_all_total inputRegex (m_text lookupMatch)) as [l1 ->];
    [positive_min_len|].
  destruct (exec_all_total keyRegex (m_text lookupMatch)) as [l2 ->];
    [positive_min_len|].
  done.
Qed.

Lemma extract_lookups_total doc : is_Some (extract_lookups doc).
Proof.
  unfold extract_lookups.
  destruct (exec_all_total lookupRegex doc) as [l ->]; [positive_min_len|].
  apply collect_total, lookup_of_match_total.
Qed.

Lemma extract_dataset_targets_total doc : is_Some (extract_dataset_targets doc).
Proof.
  unfold extract_dataset_targets.
  destruct (exec_all_total datasetRegex doc) as [l ->]; [positive_min_len|done].
Qed.

Lemma extract_transforms_total doc : is_Some (extract_transforms doc).
Proof.
  unfold extract_transforms.
  destruct (exec_all_total trxRegex doc) as [l ->]; [positive_min_len|done].
Qed.

Lemma columns_of_match_total outputMatch : is_Some (columns_of_match outputMatch).
Proof.
  unfold columns_of_match.
  destruct (exec_all_total colRegex (grp outputMatch 2)) as [l1 ->];
    [positive_min_len|].
  destruct (exec_all_total derivRegex (grp outputMatch 2)) as [l2 ->];
    [positive_min_len|].
  done.
Qed.

Lemma build_column_info_total doc : is_Some (build_column_info doc).
Proof.
  unfold build_column_info.
  destruct (exec_all_total outputRegex doc) as [l ->]; [positive_min_len|].
  simpl. destruct (traverse_total columns_of_match l) as [x ->]; [|done].
  apply columns_of_match_total.
Qed.

Lemma extract_flow_total stageMap cim doc : is_Some (extract_flow stageMap cim doc).
Proof.
  unfold extract_flow. destruct (re_match linkNamesRe doc); [done|].
  destruct (exec_all_total linkRegex doc) as [l ->]; [positive_min_len|done].
Qed.

Lemma extract_stages_total doc a b result :
  is_Some (extract_stages doc a b result).
Proof.
  unfold extract_stages.
  destruct (build_stage_type_map_total doc) as [stm ->].
  destruct (exec_all_total xmlPropsRegex doc) as [xs ->]; [positive_min_len|].
  simpl. destruct (process_blocks_total stm doc xs) as [[[ss ts] qs] ->].
  destruct (extract_lookups_total doc) as [lk ->].
  destruct (extract_dataset_targets_total doc) as [ds ->].
  destruct (extract_transforms_total doc) as [tr ->].
  destruct (build_column_info_total doc) as [cim ->].
  simpl.
  destruct (extract_flow_total (build_stage_map a b) cim doc) as [fl ->].
  done.
Qed.

Lemma gated_stages_total doc result : is_Some (gated_stages doc result).
Proof.
  unfold gated_stages.
  destruct (re_match stageListRe doc); [|done].
  destruct (re_match stageNamesRe doc); [|done].
  apply extract_stages_total.
Qed.

Lemma extractDSXJobInfo_total now doc flag :
  is_Some (extractDSXJobInfo now doc flag).
Proof.
  unfold extractDSXJobInfo.
  destruct (extract_parameters_total doc) as [ps ->]. simpl.
  destruct (gated_stages_total doc (initial_result now doc ps)) as [r ->].
  done.
Qed.

(** ** The shape of the result *)

Lemma extract_stages_inv doc a b result r :
  extract_stages doc a b result = Some r →
  ∃ stm xs srcs tgts scripts lkps datasets trfs cim flw,
    build_stage_type_map doc = Some stm ∧
    exec_all xmlPropsRegex doc = Some xs ∧
    process_blocks stm doc xs = Some (srcs, tgts, scripts) ∧
    extract_lookups doc = Some lkps ∧
    extract_dataset_targets doc = Some datasets ∧
    extract_transforms doc = Some trfs ∧
    build_column_info doc = Some cim ∧
    extract_flow (build_stage_map a b) cim doc = Some flw ∧
    r = {| name := name result; description := description result;
           type := type result; parameters := parameters result;
           sources := srcs; targets := tgts ++ datasets; transforms := trfs;
           sql_scripts := scripts; lookups := lkps; filters := filters result;
           specialized_stages := specialized_stages result; flow := flw;
           metadata := metadata result |}.
Proof.
  unfold extract_stages. intros H.
  destruct (build_stage_type_map doc) as [stm|] eqn:E1; [|done].
  destruct (exec_all xmlPropsRegex doc) as [xs|] eqn:E2; [|done]. simpl in H.
  destruct (process_blocks stm doc xs) as [[[srcs tgts] scripts]|] eqn:E3;
    [|done].
  destruct (extract_lookups doc) as [lkps|] eqn:E4; [|done].
  destruct (extract_dataset_targets doc) as [datasets|] eqn:E5; [|done].
  destruct (extract_transforms doc) as [trfs|] eqn:E6; [|done].
  destruct (build_column_info doc) as [cim|] eqn:E7; [|done]. simpl in H.
  destruct (extract_flow _ cim doc) as [flw|] eqn:E8; [|done].
  inversion H; subst.
  by exists stm, xs, srcs, tgts, scripts, lkps, datasets, trfs, cim, flw.
Qed.

Lemma extractDSXJobInfo_inv now doc flag r :
  extractDSXJobInfo now doc flag = Some r →
  ∃ params r1,
    extract_parameters doc = Some params ∧
    gated_stages doc (initial_result now doc params) = Some r1 ∧
    r = add_token_count flag r1.
Proof.
  unfold extractDSXJobInfo. intros H.
  destruct (extract_parameters doc) as [params|] eqn:E1; [|done]. simpl in H.
  destruct (gated_stages doc _) as [r1|] eqn:E2; [|done].
  inversion H. by exists params, r1.
Qed.

(** Whatever the stage part does, the header fields, the parameters and the
    metadata are those of the initial result. *)
Lemma gated_stages_header doc result r :
  gated_stages doc result = Some r →
  name r = name result ∧ description r = description result ∧
  type r = type result ∧ parameters r = parameters result ∧
  filters r = filters result ∧
  specialized_stages r = specialized_stages result ∧
  metadata r = metadata result.
Proof.
  unfold gated_stages. intros H.
  destruct (re_match stageListRe doc); [|inversion H; subst; done].
  destruct (re_match stageNamesRe doc); [|inversion H; subst; done].
  apply extract_stages_inv in H
    as (?&?&?&?&?&?&?&?&?&?&_&_&_&_&_&_&_&_&->). done.
Qed.

Lemma gated_stages_absent doc result :
  re_match stageListRe doc = None ∨ re_match stageNamesRe doc = None →
  gated_stages doc result = Some result.
Proof.
  unfold gated_stages. intros [-> | ->]; [done|].
  by destruct (re_match stageListRe doc).
Qed.

Lemma add_token_count_fields flag r :
  name (add_token_count flag r) = name r ∧
  description (add_token_count flag r) = description r ∧
  type (add_token_count flag r) = type r ∧
  parameters (add_token_count flag r) = parameters r ∧
  sources (add_token_count flag r) = sources r ∧
  targets (add_token_count flag r) = targets r ∧
  transforms (add_token_count flag r) = transforms r ∧
  sql_scripts (add_token_count flag r) = sql_scripts r ∧
  lookups (add_token_count flag r) = lookups r ∧
  filters (add_token_count flag r) = filters r ∧
  specialized_stages (add_token_count flag r) = specialized_stages r ∧
  flow (add_token_count flag r) = flow r ∧
  extractedAt (metadata (add_token_count flag r)) = extractedAt (metadata r) ∧
  version (metadata (add_token_count flag r)) = version (metadata r).
Proof. by destruct flag. Qed.

(** ** Documents without the stage lists, documents without anything *)

(** C2.  For every document the extraction returns a job, stamped with the
    time of the call; for a document in which none of the header fields, no
    parameter record and not both stage lists are found, name, description
    and type are empty and so is every collection. *)
Theorem extraction_always_returns now doc flag :
  ∃ r, extractDSXJobInfo now doc flag = Some r ∧
       extractedAt (metadata r) = now ∧
       (no_constructs doc →
        name r = [] ∧ description r = [] ∧ type r = VStr [] ∧
        parameters r = [] ∧ sources r = [] ∧ targets r = [] ∧
        transforms r = [] ∧ sql_scripts r = [] ∧ lookups r = [] ∧
        filters r = [] ∧ specialized_stages r = [] ∧ flow r = []).
Proof.
  destruct (extractDSXJobInfo_total now doc flag) as [r Hr].
  exists r. split; [done|].
  pose proof Hr as (params & r1 & Hp & Hg & ->)%extractDSXJobInfo_inv.
  pose proof (add_token_count_fields flag r1)
    as (En & Ed & Et & Ep & Es & Etg & Ex & Eq & El & Ef & Ez & Efl & Ea & _).
  split.
  - rewrite Ea. by apply gated_stages_header in Hg as (_&_&_&_&_&_&->).
  - intros (Hn & Hd & Ht & Hpm & Hst).
    rewrite gated_stages_absent in Hg by done. inversion Hg; subst r1.
    unfold extract_parameters in Hp. rewrite exec_all_none in Hp by done.
    inversion Hp; subst params.
    rewrite En, Ed, Et, Ep, Es, Etg, Ex, Eq, El, Ef, Ez, Efl. simpl.
    unfold extract_name, extract_description, extract_type.
    by rewrite Hn, Hd, Ht.
Qed.

Lemma extraction_always_returns_witness :
  ∃ r, extractDSXJobInfo (txt "2024-05-01T10:00:00.000Z") doc_plain_text false
         = Some r ∧
       extractedAt (metadata r) = txt "2024-05-01T10:00:00.000Z" ∧
       name r = [] ∧ description r = [] ∧ type r = VStr [] ∧
       parameters r = [] ∧ sources r = [] ∧ targets r = [] ∧
       transforms r = [] ∧ sql_scripts r = [] ∧ lookups r = [] ∧
       filters r = [] ∧ specialized_stages r = [] ∧ flow r = [].
Proof.
  destruct (extraction_always_returns (txt "2024-05-01T10:00:00.000Z")
              doc_plain_text false) as (r & Hr & Hat & Hempty).
  exists r. split; [exact Hr|]. split; [exact Hat|].
  apply Hempty. unfold no_constructs.
  split_and!; [vm_compute; reflexivity..|left; vm_compute; reflexivity].
Defined.

(** C1, refuted as stated: without the stage lists the transform extractor
    is not run, although it would find a transform in the document. *)
Lemma missing_lists_suppress_extraction : ¬ transforms_survive_missing_lists.
Proof.
  intros H.
  specialize (H [] doc_without_lists false
                (initial_result [] doc_without_lists [])).
  assert (E : extract_transforms doc_without_lists =
              Some [ {| x_name := txt "T1"; x_rules := [txt "a = b;"];
                        x_input := None; x_output := None;
                        x_reject_conditions := None |} ])
    by (vm_compute; reflexivity).
  rewrite E in H. discriminate H.
  - left. vm_compute. reflexivity.
  - vm_compute. reflexivity.
Qed.

(** C1, as the code has it.  When the stage-identifier list or the
    stage-name list is not found, the extraction still returns; name,
    description, type and parameters are extracted as ever, but no stage
    map is built and none of the section extractors is run: sources,
    targets, transforms, SQL scripts, lookups and flow are empty. *)
Theorem missing_lists_gate_the_extractors now doc flag :
  re_match stageListRe doc = None ∨ re_match stageNamesRe doc = None →
  ∃ r, extractDSXJobInfo now doc flag = Some r ∧
       stage_map_of doc = ∅ ∧
       name r = extract_name doc ∧
       description r = extract_description doc ∧
       type r = extract_type doc ∧
       Some (parameters r) = extract_parameters doc ∧
       sources r = [] ∧ targets r = [] ∧ transforms r = [] ∧
       sql_scripts r = [] ∧ lookups r = [] ∧ flow r = [].
Proof.
  intros Habs.
  destruct (extractDSXJobInfo_total now doc flag) as [r Hr].
  exists r. split; [done|].
  pose proof Hr as (params & r1 & Hp & Hg & ->)%extractDSXJobInfo_inv.
  pose proof (add_token_count_fields flag r1)
    as (En & Ed & Et & Ep & Es & Etg & Ex & Eq & El & Ef & Ez & Efl & Ea & _).
  rewrite gated_stages_absent in Hg by done. inversion Hg; subst r1.
  rewrite En, Ed, Et, Ep, Es, Etg, Ex, Eq, El, Efl. simpl.
  split_and!; try done.
  unfold stage_map_of. destruct Habs as [-> | ->]; [done|].
  by destruct (re_match stageListRe doc).
Qed.

Lemma missing_lists_gate_the_extractors_witness :
  ∃ r, extractDSXJobInfo [] doc_without_lists true = Some r ∧
       stage_map_of doc_without_lists = ∅ ∧
       name r = extract_name doc_without_lists ∧
       description r = extract_description doc_without_lists ∧
       type r = extract_type doc_without_lists ∧
       Some (parameters r) = extract_parameters doc_without_lists ∧
       sources r = [] ∧ targets r = [] ∧ transforms r = [] ∧
       sql_scripts r = [] ∧ lookups r = [] ∧ flow r = [].
Proof.
  apply (missing_lists_gate_the_extractors [] doc_without_lists true).
  left. vm_compute. reflexivity.
Defined.

(** ** The token count *)

Lemma ceil4_is_ceiling n : n ≤ 4 * ceil4 n ∧ 4 * ceil4 n < n + 4.
Proof.
  unfold ceil4. pose proof (Nat.div_mod_eq n 4) as E.
  pose proof (Nat.mod_upper_bound n 4) as U.
  destruct (Nat.eqb_spec (n mod 4) 0); lia.
Qed.

Lemma join_snoc sep l x :
  l ≠ [] → join sep (l ++ [x]) = join sep l ++ sep ++ x.
Proof.
  induction l as [|a [|b l] IH]; intros Hl; [done|done|].
  change (join sep ((a :: b :: l) ++ [x]))
    with (a ++ sep ++ join sep ((b :: l) ++ [x])).
  rewrite IH by done.
  change (join sep (a :: b :: l)) with (a ++ sep ++ join sep (b :: l)).
  by rewrite <-!(assoc_L (++)).
Qed.

Lemma stringify_object fs :
  stringify (JObject fs) = txt "{" ++ join (txt ",") (map field_text fs) ++ txt "}".
Proof. done. Qed.

Lemma stringify_object_snoc fs k j :
  fs ≠ [] →
  length (stringify (JObject (fs ++ [(k, j)]))) =
  length (stringify (JObject fs)) + 1 + length (quote k) + 1 + length (stringify j).
Proof.
  intros Hfs. rewrite !stringify_object, map_app. simpl map at 2.
  rewrite join_snoc by (by destruct fs).
  unfold field_text at 2. simpl fst. simpl snd.
  rewrite !length_app. simpl. lia.
Qed.

Lemma metadata_with_count_length m n :
  tokenCount m = None →
  length (stringify (json_of_metadata
            {| extractedAt := extractedAt m; version := version m;
               tokenCount := Some n |})) =
  length (stringify (json_of_metadata m)) + 14 + length (decimal n).
Proof.
  intros Hm. unfold json_of_metadata. rewrite Hm. simpl tokenCount.
  simpl extractedAt. simpl version. simpl fmap.
  unfold field_opt, field. rewrite app_nil_r.
  rewrite (assoc_L (++)).
  rewrite stringify_object_snoc by done.
  change (stringify (JNumber n)) with (decimal n).
  change (length (quote (txt "tokenCount"))) with 12. lia.
Qed.

(** Writing the count into the metadata makes the serialisation longer:
    the count was taken from the shorter text. *)
Lemma with_token_count_longer r0 n :
  tokenCount (metadata r0) = None →
  length (JSON_stringify (with_token_count r0 n)) =
  length (JSON_stringify r0) + 14 + length (decimal n).
Proof.
  intros Hm. unfold JSON_stringify, json_of_job.
  change (sections (with_token_count r0 n)) with (sections r0).
  simpl name. simpl description. simpl type. simpl metadata.
  unfold field at 3 6. rewrite !(assoc_L (++)).
  rewrite !stringify_object_snoc by (by destruct (type r0)).
  rewrite metadata_with_count_length by done. lia.
Qed.

(** C10.  The token count is present exactly when it was asked for.  When
    present it is the ceiling of a quarter of the length of the
    serialisation of the result as it stood without the count (which is
    what the same call returns when the count is not asked for); the
    serialisation of the result that carries the count is longer.  The
    count is a function of the job alone. *)
Theorem token_count_when_requested now doc flag r :
  extractDSXJobInfo now doc flag = Some r →
  (is_Some (tokenCount (metadata r)) ↔ flag = true) ∧
  (flag = true →
   ∃ r0 n,
     extractDSXJobInfo now doc false = Some r0 ∧
     tokenCount (metadata r0) = None ∧
     r = with_token_count r0 n ∧
     tokenCount (metadata r) = Some n ∧
     n = total (estimateTokenUsage r0) ∧
     n = ceil4 (length (JSON_stringify r0)) ∧
     length (JSON_stringify r0) ≤ 4 * n < length (JSON_stringify r0) + 4 ∧
     length (JSON_stringify r0) < length (JSON_stringify r)) ∧
  (∀ data, total (estimateTokenUsage data) = ceil4 (length (JSON_stringify data))).
Proof.
  intros Hr.
  pose proof Hr as (params & r1 & Hp & Hg & ->)%extractDSXJobInfo_inv.
  assert (Hnone : tokenCount (metadata r1) = None).
  { by apply gated_stages_header in Hg as (_&_&_&_&_&_&->). }
  split_and!.
  - destruct flag; simpl.
    + split; [done|]. intros _. by eexists.
    + rewrite Hnone. split; [by intros [? ?]|done].
  - intros ->. exists r1, (total (estimateTokenUsage r1)).
    split_and!; try done.
    + unfold extractDSXJobInfo. rewrite Hp. simpl. by rewrite Hg.
    + apply ceil4_is_ceiling.
    + apply ceil4_is_ceiling.
    + simpl add_token_count. rewrite with_token_count_longer by done. lia.
  - done.
Qed.

Lemma token_count_when_requested_witness :
  let r := add_token_count true (initial_result [] doc_header_only []) in
  (is_Some (tokenCount (metadata r)) ↔ true = true) ∧
  (true = true →
   ∃ r0 n,
     extractDSXJobInfo [] doc_header_only false = Some r0 ∧
     tokenCount (metadata r0) = None ∧
     r = with_token_count r0 n ∧
     tokenCount (metadata r) = Some n ∧
     n = total (estimateTokenUsage r0) ∧
     n = ceil4 (length (JSON_stringify r0)) ∧
     length (JSON_stringify r0) ≤ 4 * n < length (JSON_stringify r0) + 4 ∧
     length (JSON_stringify r0) < length (JSON_stringify r)) ∧
  (∀ data, total (estimateTokenUsage data) = ceil4 (length (JSON_stringify data))).
Proof.
  apply (token_count_when_requested [] doc_header_only true).
  vm_compute. reflexivity.
Defined.

(** ** Validation *)

Lemma distinct_go_elem {A} `{EqDecision A} (x : A) l :
  ∀ seen, x ∈ distinct_go seen l ↔ x ∈ l ∧ x ∉ seen.
Proof.
  induction l as [|a l IH]; intros seen; simpl.
  - split; [by intros ?%elem_of_nil | by intros [?%elem_of_nil _]].
  - case_bool_decide as Ha.
    + rewrite IH, elem_of_cons. split; [tauto|].
      intros [[->|?] ?]; [done|tauto].
    + rewrite !elem_of_cons, IH, elem_of_cons. split.
      * intros [->|[? ?]]; [tauto|]. split; [tauto|]. tauto.
      * intros [[->|?] ?]; [tauto|].
        destruct (decide (x = a)); [tauto|]. right. tauto.
Qed.

Lemma distinct_elem {A} `{EqDecision A} (x : A) l : x ∈ distinct l ↔ x ∈ l.
Proof.
  unfold distinct. rewrite distinct_go_elem. split; [tauto|].
  intros ?. split; [done|]. apply not_elem_of_nil.
Qed.

(** C5, refuted as stated: with an empty flow the stages are not looked
    at, and a job whose only source is in no connection is valid. *)
Lemma empty_flow_hides_disconnected_stage : ¬ disconnected_always_reported.
Proof.
  intros H.
  destruct (H job_without_flow (Some (txt "CustomerExtract"))) as [Hv _].
  - vm_compute. apply list_elem_of_here.
  - vm_compute. reflexivity.
  - vm_compute in Hv. discriminate Hv.
Qed.

(** C5, as the code has it.  When the flow has at least one connection,
    every stage name drawn from sources, targets, transforms, lookups or
    specialized stages that is on neither side of any connection makes the
    job invalid and is named in a disconnected-stage message.  The
    validator is a function of the job: it returns a verdict for every job
    and has nothing else to change. *)
Theorem disconnected_stage_is_reported data stage :
  flow data ≠ [] →
  stage ∈ stage_names data →
  is_disconnected data stage = true →
  valid (validateExtractedData data) = false ∧
  disconnected_message stage ∈ issues (validateExtractedData data).
Proof.
  intros Hflow Hin Hdis.
  assert (Hmsg : disconnected_message stage ∈ issues (validateExtractedData data)).
  { unfold validateExtractedData. simpl issues.
    rewrite !elem_of_app. right. right. right.
    destruct (flow data); [done|]. simpl.
    apply list_elem_of_fmap. exists stage. split; [done|].
    apply list_elem_of_filter. split; [done|].
    by apply distinct_elem. }
  split; [|done].
  unfold validateExtractedData in *. simpl in *.
  destruct (_ ++ _); [by apply elem_of_nil in Hmsg|done].
Qed.

Lemma disconnected_stage_is_reported_witness :
  valid (validateExtractedData job_with_flow) = false ∧
  disconnected_message (Some (txt "CustomerExtract"))
    ∈ issues (validateExtractedData job_with_flow).
Proof.
  apply (disconnected_stage_is_reported job_with_flow
           (Some (txt "CustomerExtract"))).
  - vm_compute. discriminate.
  - vm_compute. apply list_elem_of_here.
  - vm_compute. reflexivity.
Defined.

(** ** Flow assembly over lists of unequal length *)

Lemma flow_entry_in_range sm cim sp ts i linkName f :
  flow_entry sm cim sp ts i linkName = Some f →
  i < length sp ∧ i < length ts.
Proof.
  unfold flow_entry, source_id, target_id. intros H.
  destruct (sp !! i) as [pin|] eqn:E1; [|done].
  destruct (ts !! i) as [tid|] eqn:E2.
  - apply lookup_lt_Some in E1, E2. done.
  - by repeat case_match.
Qed.

Lemma flow_loop_elem sm cim sp ts f : ∀ linkNames i0,
  f ∈ flow_loop sm cim sp ts i0 linkNames →
  ∃ j linkName, linkNames !! j = Some linkName ∧
                flow_entry sm cim sp ts (i0 + j) linkName = Some f.
Proof.
  induction linkNames as [|n tl IH]; intros i0 H; simpl in H.
  - by apply elem_of_nil in H.
  - destruct (flow_entry sm cim sp ts i0 n) as [e|] eqn:E.
    + apply elem_of_cons in H as [->|H].
      * exists 0, n. by rewrite Nat.add_0_r.
      * apply IH in H as (j & ln & Hj & He). exists (S j), ln.
        by rewrite Nat.add_succ_r.
    + apply IH in H as (j & ln & Hj & He). exists (S j), ln.
      by rewrite Nat.add_succ_r.
Qed.

Lemma flow_loop_length sm cim sp ts : ∀ linkNames i0,
  length (flow_loop sm cim sp ts i0 linkNames)
  ≤ length linkNames `min` ((length sp `min` length ts) - i0).
Proof.
  induction linkNames as [|n tl IH]; intros i0; cbn [flow_loop length]; [lia|].
  specialize (IH (S i0)).
  destruct (flow_entry sm cim sp ts i0 n) as [e|] eqn:E; cbn [length].
  - apply flow_entry_in_range in E. lia.
  - lia.
Qed.

(** C6.  With link-name, source-pin and target-stage lists of any lengths
    the assembly returns a flow; the loop body yields nothing at an index
    past the end of the source-pin list or of the target-stage list, every
    connection comes from an index inside all three lists, and there are no
    more connections than the shortest list is long. *)
Theorem unequal_lists_are_tolerated sm cim linkNamesText sp ts :
  let linkNames := link_names linkNamesText in
  let sourcePins := split (txt "|") sp in
  let targetStages := split (txt "|") ts in
  let flw := assemble_flow sm cim linkNamesText (Some sp) (Some ts) in
  (∀ doc, is_Some (extract_flow sm cim doc)) ∧
  (∀ i linkName,
     length sourcePins ≤ i ∨ length targetStages ≤ i →
     flow_entry sm cim sourcePins targetStages i linkName = None) ∧
  (∀ f, f ∈ flw →
     ∃ i linkName,
       linkNames !! i = Some linkName ∧
       i < length sourcePins ∧ i < length targetStages ∧
       flow_entry sm cim sourcePins targetStages i linkName = Some f) ∧
  length flw
  ≤ (length linkNames `min` length sourcePins) `min` length targetStages.
Proof.
  intros linkNames sourcePins targetStages flw. split_and!.
  - intros doc. apply extract_flow_total.
  - intros i linkName Hi.
    destruct (flow_entry sm cim sourcePins targetStages i linkName) eqn:E;
      [|done].
    apply flow_entry_in_range in E. lia.
  - intros f Hf. apply flow_loop_elem in Hf as (j & ln & Hj & He).
    simpl in He. exists j, ln.
    pose proof (flow_entry_in_range _ _ _ _ _ _ _ He). tauto.
  - subst flw. unfold assemble_flow.
    pose proof (flow_loop_length sm cim sourcePins targetStages linkNames 0).
    subst linkNames sourcePins targetStages. lia.
Qed.

(** three link names over two source pins and one target stage *)
Example assembly_of_unequal_lists :
  assemble_flow (<[txt "V0" := txt "A"]> (<[txt "V1" := txt "B"]> ∅)) ∅
    (txt "L1|L2|L3") (Some (txt "V0P1|V1P1")) (Some (txt "V1")) =
  [ {| f_link := txt "L1"; f_from := VStr (txt "A"); f_to := VStr (txt "B");
       f_columns := None |} ].
Proof. vm_compute. reflexivity. Qed.

(** ** The endpoints of the flow *)


Lemma or_value_str x d s :
  or_value x d = VStr s →
  (x = Some (VStr s) ∧ s ≠ []) ∨
  (s = d ∧ (x = None ∨ x = Some (VStr []))).
Proof.
  destruct x as [[[|ch tl]|k]|]; simpl; intros [= <-]; auto.
Qed.

Lemma obj_get_str o k s : obj_get o k = Some (VStr s) → o !! k = Some s.
Proof.
  unfold obj_get. destruct (o !! k); [by intros [= ->]|].
  by destruct (inherited k).
Qed.

Lemma known_str s :
  known (VStr s) = true → s ≠ txt "Unknown" ∧ s ≠ txt " ".
Proof.
  unfold known. intros [H1 H2]%andb_prop.
  apply negb_true_iff, bool_decide_eq_false in H1, H2.
  split; intros ->; auto.
Qed.

(** the name the primary strategy gives an endpoint, when it is a string *)
Lemma resolved_or_unknown sm id s :
  or_value (obj_get sm id) (txt "Unknown") = VStr s →
  known (VStr s) = true →
  s ≠ [] ∧ s ≠ txt "Unknown" ∧ s ≠ txt " " ∧ sm !! id = Some s.
Proof.
  intros Hv Hk. apply known_str in Hk as [Hu Hb].
  apply or_value_str in Hv as [[Hg Hne]|[-> _]]; [|done].
  apply obj_get_str in Hg. done.
Qed.

Lemma flow_entry_endpoints sm cim sp ts i linkName f s :
  flow_entry sm cim sp ts i linkName = Some f →
  f_from f = VStr s ∨ f_to f = VStr s →
  s ≠ [] ∧ s ≠ txt "Unknown" ∧ s ≠ txt " " ∧ ∃ id, sm !! id = Some s.
Proof.
  unfold flow_entry. intros H Hs.
  destruct (source_id sp i) as [sid|]; [|done].
  destruct (target_id ts i) as [tid|]; [|done].
  destruct (known _ && known _) eqn:Hk; [|done].
  apply andb_prop in Hk as [Hk1 Hk2].
  inversion H; subst f; clear H. simpl in Hs.
  destruct Hs as [Hs|Hs]; rewrite Hs in *.
  - destruct (resolved_or_unknown sm sid s Hs Hk1) as (?&?&?&?). eauto.
  - destruct (resolved_or_unknown sm tid s Hs Hk2) as (?&?&?&?). eauto.
Qed.

(** the name the fallback strategy gives an endpoint, when it is a string *)
Lemma resolved_or_raw sm id s :
  id ≠ [] →
  or_value (obj_get sm id) id = VStr s →
  s ≠ [] ∧ (sm !! id = Some s ∨ s = id).
Proof.
  intros Hid Hv. apply or_value_str in Hv as [[Hg Hne]|[-> _]].
  - apply obj_get_str in Hg. auto.
  - auto.
Qed.

Lemma linkRegex_groups idx p s mt :
  search linkRegex idx p s = Some mt → grp mt 1 ≠ [] ∧ grp mt 2 ≠ [].
Proof.
  intros H. split; eapply search_grp_nonempty; try exact H; reflexivity.
Qed.



(** ** The names of the entities *)


Lemma nameRe_group s mt : re_match nameRe s = Some mt → grp mt 1 ≠ [].
Proof. by apply re_match_grp_nonempty. Qed.

Lemma source_of_block_names stm stageName xml srcs :
  source_of_block stm stageName xml = Some srcs →
  Forall (λ s, s_name s = stageName) srcs.
Proof.
  unfold source_of_block. intros H.
  destruct (match _ with Some q => _ | None => _ end) as [w|]; [|done].
  simpl in H. inversion H; subst; clear H.
  destruct (_ || _); repeat constructor.
Qed.

Lemma target_of_block_names stm stageName xml :
  Forall (λ t, ∃ tt, t = OfTable tt ∧ t_name tt = stageName)
         (target_of_block stm stageName xml).
Proof.
  unfold target_of_block. destruct (_ || _); repeat constructor. by eexists.
Qed.

Lemma process_block_names stm doc xmlMatch srcs tgts qs :
  process_block stm doc xmlMatch = Some (srcs, tgts, qs) →
  Forall (λ s, s_name s ≠ []) srcs ∧ Forall target_named tgts.
Proof.
  unfold process_block. intros H.
  destruct (re_match nameRe _) as [nm|] eqn:En;
    [|inversion H; subst; split; constructor].
  apply nameRe_group in En.
  destruct (re_match contextRe _) as [cm|];
    [|inversion H; subst; split; constructor].
  destruct (if bool_decide (parseInt (grp cm 1) = Some 1%Z) then _ else _)
    as [ss|] eqn:Es; [|done].
  simpl in H. inversion H; subst; clear H. split.
  - destruct (bool_decide (parseInt (grp cm 1) = Some 1%Z)).
    + apply source_of_block_names in Es.
      eapply Forall_impl; [exact Es|]. simpl. by intros s ->.
    + inversion Es. constructor.
  - destruct (bool_decide (parseInt (grp cm 1) = Some 2%Z)); [|constructor].
    eapply Forall_impl; [apply target_of_block_names|].
    intros t (tt & -> & E). simpl. by rewrite E.
Qed.

Lemma process_blocks_names stm doc : ∀ xmlMatches srcs tgts qs,
  process_blocks stm doc xmlMatches = Some (srcs, tgts, qs) →
  Forall (λ s, s_name s ≠ []) srcs ∧ Forall target_named tgts.
Proof.
  induction xmlMatches as [|m l IH]; intros srcs tgts qs H; simpl in H.
  - inversion H. split; constructor.
  - destruct (process_block stm doc m) as [[[s t] q]|] eqn:E1; [|done].
    simpl in H.
    destruct (process_blocks stm doc l) as [[[ss ts] qq]|] eqn:E2; [|done].
    simpl in H. inversion H; subst; clear H.
    apply process_block_names in E1 as [? ?].
    destruct (IH _ _ _ eq_refl) as [? ?].
    split; by apply Forall_app.
Qed.

Lemma dataset_target_named doc datasetMatch :
  target_named (dataset_target doc datasetMatch).
Proof.
  unfold dataset_target, target_named. simpl.
  destruct (re_match nameRe _) as [nm|] eqn:En; simpl; [|by left].
  right. eexists. split; [done|]. by eapply nameRe_group.
Qed.

Lemma transform_of_match_named doc trxMatch :
  Forall (λ x, x_name x ≠ []) (transform_of_match doc trxMatch).
Proof.
  unfold transform_of_match. destruct (0 <? _); repeat constructor. simpl.
  destruct (re_match nameRe _) as [nm|] eqn:En; [|done].
  by eapply nameRe_group.
Qed.

Lemma lookup_of_match_named lookupMatch lk :
  grp lookupMatch 1 ≠ [] →
  lookup_of_match lookupMatch = Some lk →
  Forall (λ l, l_name l ≠ []) lk.
Proof.
  unfold lookup_of_match. intros Hn H.
  destruct (exec_all inputRegex _); [|done].
  destruct (exec_all keyRegex _); [|done].
  simpl in H. inversion H; subst; clear H.
  destruct (_ || _); repeat constructor. done.
Qed.

Lemma collect_Forall {A B} (f : A → option (list B)) (P : A → Prop)
    (Q : B → Prop) :
  (∀ a bs, P a → f a = Some bs → Forall Q bs) →
  ∀ l bs, Forall P l → collect f l = Some bs → Forall Q bs.
Proof.
  intros Hf. induction l as [|a l IH]; intros bs HP H; simpl in H.
  - inversion H. constructor.
  - inversion HP; subst.
    destruct (f a) as [x|] eqn:E1; [|done]. simpl in H.
    destruct (collect f l) as [xs|] eqn:E2; [|done].
    simpl in H. inversion H; subst. apply Forall_app. eauto.
Qed.

(** ** Code tables *)

Lemma table_miss l code :
  code ∉ map (λ kv, txt (fst kv)) l → inherited code = false →
  ∀ d, or_value (obj_get (table l) code) d = VStr d.
Proof.
  intros Hl Hi d. unfold obj_get, table.
  assert (E : (list_to_map (map (λ kv, (txt (fst kv), txt (snd kv))) l)
                 : gmap str str) !! code = None).
  { apply not_elem_of_list_to_map. by rewrite <-list_fmap_compose. }
  by rewrite E, Hi.
Qed.

(** the labels of the codes of the job-type and parameter-type tables *)
Lemma known_codes_are_labelled :
  map job_type_label [txt "0"; txt "1"; txt "2"; txt "3"] =
  map VStr [txt "Server Job"; txt "Parallel Job"; txt "Sequence Job";
            txt "Server Routine"] ∧
  map param_type_label
      [txt "1"; txt "2"; txt "3"; txt "4"; txt "5"; txt "6"; txt "7";
       txt "8"; txt "13"] =
  map VStr [txt "String"; txt "Integer"; txt "Float"; txt "Pathname";
            txt "List"; txt "Date"; txt "Time"; txt "Timestamp";
            txt "EnvironmentVar"].
Proof. split; vm_compute; reflexivity. Qed.

(** a code that is in no table, and is not the name of a member of
    [Object.prototype] either, is labelled as unknown *)
Lemma other_codes_are_unknown code :
  inherited code = false →
  (code ∉ [txt "0"; txt "1"; txt "2"; txt "3"] →
   job_type_label code = VStr (txt "Unknown (" ++ code ++ txt ")")) ∧
  (code ∉ [txt "1"; txt "2"; txt "3"; txt "4"; txt "5"; txt "6"; txt "7";
           txt "8"; txt "13"] →
   param_type_label code = VStr (txt "Unknown (" ++ code ++ txt ")")) ∧
  (typeMap !! code = None →
   ∀ precision scale,
     mapSqlType code precision scale = VStr (txt "UNKNOWN(" ++ code ++ txt ")")).
Proof.
  intros Hi. split_and!.
  - intros Hc. by apply table_miss.
  - intros Hc. by apply table_miss.
  - intros Hc precision scale. unfold mapSqlType, obj_get.
    rewrite Hc, Hi. simpl or_value. cbv iota beta.
    rewrite bool_decide_eq_false_2; [done|].
    intros H. repeat (apply elem_of_cons in H as [H|H]; [discriminate H|]).
    by apply elem_of_nil in H.
Qed.

(** C7, where the code departs from it: [constructor] is in no code table,
    yet reading the table under that key finds the member that every
    object inherits, which is truthy, so the fallback label is not used:
    the type is the inherited function, not [Unknown (constructor)]; the
    serialised job has no type at all.  The parameter-type and SQL-type
    tables are read the same way. *)
Theorem inherited_name_escapes_the_tables :
  jobTypeMap !! txt "constructor" = None ∧
  (∃ r, extractDSXJobInfo [] doc_inherited_code false = Some r ∧
        type r = VObj (txt "constructor") ∧
        type r ≠ VStr (txt "Unknown (constructor)") ∧
        JSON_stringify r =
          txt "{" ++ dq ++ txt "name" ++ dq ++ txt ":" ++ dq ++ dq ++ txt "," ++
          dq ++ txt "description" ++ dq ++ txt ":" ++ dq ++ dq ++ txt "," ++
          dq ++ txt "parameters" ++ dq ++ txt ":[]," ++
          dq ++ txt "sources" ++ dq ++ txt ":[]," ++
          dq ++ txt "targets" ++ dq ++ txt ":[]," ++
          dq ++ txt "transforms" ++ dq ++ txt ":[]," ++
          dq ++ txt "sql_scripts" ++ dq ++ txt ":[]," ++
          dq ++ txt "lookups" ++ dq ++ txt ":[]," ++
          dq ++ txt "filters" ++ dq ++ txt ":[]," ++
          dq ++ txt "specialized_stages" ++ dq ++ txt ":[]," ++
          dq ++ txt "flow" ++ dq ++ txt ":[]," ++
          dq ++ txt "metadata" ++ dq ++ txt ":{" ++
          dq ++ txt "extractedAt" ++ dq ++ txt ":" ++ dq ++ dq ++ txt "," ++
          dq ++ txt "version" ++ dq ++ txt ":" ++ dq ++ txt "1.2.0" ++ dq ++
          txt "}}") ∧
  param_type_label (txt "toString") = VObj (txt "toString") ∧
  mapSqlType (txt "valueOf") (Some (txt "10")) (Some (txt "0"))
    = VObj (txt "valueOf").
Proof.
  split_and!; [vm_compute; reflexivity| |vm_compute; reflexivity..].
  eexists. split; [vm_compute; reflexivity|].
  split_and!; [reflexivity|discriminate|vm_compute; reflexivity].
Qed.

(** ** The description *)

(** C9, where the code departs from it: paragraphs are split at two CRLF
    in a row only.  With LF line ends the whole block is the description,
    second paragraph included; with CRLF line ends it is the first
    paragraph. *)
Theorem lf_paragraphs_are_not_split :
  extract_description doc_lf_description =
    txt "Loads the customers every night.  Owner: the data team." ∧
  extract_description doc_crlf_description =
    txt "Loads the customers every night.".
Proof. split; vm_compute; reflexivity. Qed.

(** ** Reading matches of particular shapes *)

Lemma after_nil σ : after σ [] (rest σ) = σ.
Proof. by destruct σ. Qed.

Lemma after_after σ a t b t' : after (after σ a t) b t' = after σ (a ++ b) t'.
Proof. unfold after. simpl. rewrite last_app. by destruct (last b). Qed.

Lemma after_cons p s ch w t :
  after (mkst p s) (ch :: w) t = after (mkst (Some ch) (w ++ t)) w t.
Proof. unfold after. simpl. rewrite last_cons. by destruct (last w). Qed.

(** from the start of the input, the character before a position is the
    last one read *)
Lemma after_start sql w t : after (mkst None sql) w t = mkst (last w) t.
Proof. unfold after. simpl. by destruct (last w). Qed.

Lemma Sem_Seq_inv a b σ c σ' c' :
  Sem (Seq a b) σ c σ' c' → ∃ σ1 c1, Sem a σ c σ1 c1 ∧ Sem b σ1 c1 σ' c'.
Proof. inversion 1; subst. eauto. Qed.

Lemma Sem_Alt_inv a b σ c σ' c' :
  Sem (Alt a b) σ c σ' c' → Sem a σ c σ' c' ∨ Sem b σ c σ' c'.
Proof. inversion 1; subst; auto. Qed.

Lemma Sem_WordB_inv σ c σ' c' :
  Sem WordB σ c σ' c' → σ' = σ ∧ c' = c ∧ at_boundary σ = true.
Proof. inversion 1; subst. auto. Qed.

Lemma Sem_Eos_inv σ c σ' c' :
  Sem Eos σ c σ' c' → σ' = σ ∧ c' = c ∧ rest σ = [].
Proof. inversion 1; subst. auto. Qed.

Lemma Sem_Chr_inv f σ c σ' c' :
  Sem (Chr f) σ c σ' c' →
  c' = c ∧ ∃ ch, rest σ = ch :: rest σ' ∧ f ch = true ∧ prev σ' = Some ch.
Proof. inversion 1; subst. simpl. eauto. Qed.

Lemma Sem_Group_inv i a σ c σ' c' :
  Sem (Group i a) σ c σ' c' →
  ∃ c1, Sem a σ c σ' c1 ∧ c' = <[i := consumed σ σ']> c1.
Proof. inversion 1; subst. eauto. Qed.

(** a run of characters of one class *)
Lemma Sem_class g f σ c σ' c' :
  Sem (Star g (Chr f)) σ c σ' c' →
  c' = c ∧ ∃ u, rest σ = u ++ rest σ' ∧ Forall (λ x, f x = true) u ∧
                σ' = after σ u (rest σ').
Proof.
  intros H. remember (Star g (Chr f)) as r eqn:Er.
  induction H as [| | | | |g' a σ c|g' a σ c σ1 c1 σ2 c2 Ha _ Hlt Hs IH| | |];
    try discriminate; inversion Er; subst; clear Er.
  - split; [done|]. exists []. by destruct σ.
  - inversion Ha; subst. destruct (IH eq_refl) as (-> & u & E & Hu & P).
    split; [done|]. exists (ch :: u). simpl in *. rewrite E.
    split_and!; [done|by constructor|].
    rewrite P at 1. rewrite <-E. by rewrite after_cons, <-E.
Qed.

(** a literal under the [i] flag reads the literal up to the case of its
    letters *)
Lemma Sem_lit_i w : ∀ σ c σ' c',
  Sem (lit_i w) σ c σ' c' →
  c' = c ∧ ∃ u, rest σ = u ++ rest σ' ∧ map canon u = map canon w ∧
                σ' = after σ u (rest σ').
Proof.
  induction w as [|x w IH]; intros σ c σ' c' H; simpl in H.
  - inversion H; subst. split; [done|]. exists []. by destruct σ'.
  - inversion H as [| |a b σ0 c0 σ1 c1 σ2 c2 Ha Hb| | | | | | |]; subst.
    inversion Ha as [|f p ch tl c0 Hf| | | | | | | |]; subst.
    apply IH in Hb as (-> & u & E & Hu & P).
    split; [done|]. exists (ch :: u). simpl in *. rewrite E.
    apply N.eqb_eq in Hf.
    split_and!; [done|by rewrite Hf, Hu|].
    rewrite P at 1. rewrite <-E. by rewrite after_cons, <-E.
Qed.

Lemma Sem_lit_i_intro w : ∀ u p tl c,
  map canon u = map canon w →
  Sem (lit_i w) (mkst p (u ++ tl)) c (after (mkst p (u ++ tl)) u tl) c.
Proof.
  induction w as [|x w IH]; intros [|ch u] p tl c Hu; try discriminate Hu.
  - simpl. unfold after. simpl. constructor.
  - simpl in Hu. injection Hu as Hx Hu. simpl.
    eapply Sem_Seq.
    + constructor. by apply N.eqb_eq.
    + rewrite after_cons. by apply IH.
Qed.

Section Lazy.
Context {R : Type}.

(** The lazy run of one class of characters stops at the first position at
    which what follows the run matches: the continuation failed at every
    position before. *)
Lemma lazy_stops_first f (k : st → caps → option R) c x : ∀ n σ,
  star_loop (rmatch (Chr f)) false k n σ c = Some x →
  ∃ u tl, rest σ = u ++ tl ∧ Forall (λ y, f y = true) u ∧
          k (after σ u tl) c = Some x ∧
          ∀ j, j < length u →
               k (after σ (take j u) (drop j u ++ tl)) c = None.
Proof.
  induction n as [|n IH]; intros σ H; simpl in H.
  - exists [], (rest σ). rewrite after_nil.
    split_and!; [done|constructor|done|]. simpl. lia.
  - destruct (k σ c) as [y|] eqn:Ek.
    + exists [], (rest σ). rewrite after_nil.
      split_and!; [done|constructor|congruence|]. simpl. lia.
    + destruct σ as [p [|ch s]]; simpl in H; [done|].
      destruct (f ch) eqn:Ef; [|done].
      destruct (length s <? S (length s)); [|done].
      apply IH in H as (u & tl & E & Hu & Hk & Hmin). simpl in E. subst s.
      exists (ch :: u), tl. split_and!; [done|by constructor|..].
      * by rewrite after_cons.
      * intros [|j] Hj; simpl.
        -- unfold after. simpl. done.
        -- rewrite after_cons. apply (Hmin j). simpl in Hj. lia.
Qed.

End Lazy.

(** ** WHERE clauses *)

Lemma canon_word x a :
  is_upper a = true → canon x = canon a → is_word x = true.
Proof.
  unfold canon, is_word, is_upper, is_lower, is_digit.
  repeat match goal with
  | |- context [(?a <=? ?b)%N] => destruct (N.leb_spec a b)
  | |- context [(?a =? ?b)%N] => destruct (N.eqb_spec a b)
  end; simpl; try done; intros _ ?; lia.
Qed.

Lemma capital_ends_read u w :
  capital_ends w → map canon u = map canon w →
  word_at (head u) = true ∧ word_at (last u) = true.
Proof.
  intros [(a & Ha & Ua) (b & Hb & Ub)] E. split.
  - destruct u as [|x u], w as [|a' w]; try discriminate.
    simpl in *. injection Ha as ->. injection E as E _.
    by apply (canon_word x a).
  - assert (El : canon <$> last u = canon <$> last w)
      by (rewrite <-!fmap_last; exact (f_equal last E)).
    rewrite Hb in El. destruct (last u) as [y|]; [|discriminate].
    simpl in *. injection El as El. by apply (canon_word y b).
Qed.

(** [\bK\b] reads the keyword, in any case, between two word boundaries *)
Lemma Sem_keyword k σ c σ' c' :
  capital_ends (txt k) →
  Sem (keyword k) σ c σ' c' →
  c' = c ∧ ∃ u, rest σ = u ++ rest σ' ∧ map canon u = map canon (txt k) ∧
                word_at (prev σ) = false ∧ word_at (head (rest σ')) = false ∧
                σ' = after σ u (rest σ').
Proof.
  intros Hk H. unfold keyword in H.
  apply Sem_Seq_inv in H as (σ1 & c1 & H1 & H).
  apply Sem_WordB_inv in H1 as (-> & -> & B1).
  apply Sem_Seq_inv in H as (σ2 & c2 & H2 & H3).
  apply Sem_WordB_inv in H3 as (E2 & -> & B2). subst σ2.
  apply Sem_lit_i in H2 as (-> & u & E & Hu & P).
  destruct (capital_ends_read u (txt k) Hk Hu) as [Hh Hl].
  split; [done|]. exists u. split_and!; try done.
  - unfold at_boundary in B1. rewrite E in B1.
    destruct u as [|x u]; [done|]. simpl in *.
    rewrite Hh in B1. by destruct (word_at (prev σ)).
  - unfold at_boundary in B2. rewrite P in B2 at 1.
    simpl in *. destruct (last u); [|done]. simpl in *.
    rewrite Hl in B2. by destruct (word_at (head (rest σ'))).
Qed.

Lemma Sem_keyword_intro k p u tl c :
  capital_ends (txt k) → map canon u = map canon (txt k) →
  word_at p = false → word_at (head tl) = false →
  Sem (keyword k) (mkst p (u ++ tl)) c (after (mkst p (u ++ tl)) u tl) c.
Proof.
  intros Hk Hu Hp Htl.
  destruct (capital_ends_read u (txt k) Hk Hu) as [Hh Hl].
  unfold keyword. eapply Sem_Seq; [|eapply Sem_Seq].
  - constructor. unfold at_boundary. simpl.
    destruct u as [|x u]; [done|]. simpl in *. by rewrite Hp, Hh.
  - by apply Sem_lit_i_intro.
  - constructor. unfold at_boundary, after. simpl.
    destruct (last u); [|done]. simpl in *. by rewrite Hl, Htl.
Qed.

Lemma capital_ends_keywords :
  capital_ends (txt "WHERE") ∧ capital_ends (txt "GROUP BY") ∧
  capital_ends (txt "ORDER BY") ∧ capital_ends (txt "HAVING").
Proof. repeat split; eexists; split; reflexivity. Qed.

Lemma Sem_terminators σ c σ' c' :
  Sem terminators σ c σ' c' → c' = c ∧ terminator_here (prev σ) (rest σ).
Proof.
  destruct capital_ends_keywords as (_ & Kg & Ko & Kh).
  assert (Hkw : ∀ k, capital_ends (txt k) → txt k ∈ terminator_words →
                Sem (keyword k) σ c σ' c' →
                c' = c ∧ terminator_here (prev σ) (rest σ)).
  { intros k Hk Hin (-> & u & E & Hu & Hp & Hn & _)%Sem_keyword; [|done].
    split; [done|]. right. exists u, (rest σ'), (txt k).
    split_and!; try done. rewrite Hu. unfold terminator_words in Hin.
    repeat (apply elem_of_cons in Hin as [Ek|Hin]; [by rewrite Ek|]).
    by apply elem_of_nil in Hin. }
  unfold terminators. intros H.
  apply Sem_Alt_inv in H as [H|H].
  { apply (Hkw "GROUP BY"%string); [done| |done]. apply list_elem_of_here. }
  apply Sem_Alt_inv in H as [H|H].
  { apply (Hkw "ORDER BY"%string); [done| |done].
    apply list_elem_of_further, list_elem_of_here. }
  apply Sem_Alt_inv in H as [H|H].
  { apply (Hkw "HAVING"%string); [done| |done].
    do 2 apply list_elem_of_further. apply list_elem_of_here. }
  apply Sem_Eos_inv in H as (_ & -> & E). split; [done|]. by left.
Qed.

Lemma Sem_terminators_intro p s c :
  terminator_here p s → ∃ σ', Sem terminators (mkst p s) c σ' c.
Proof.
  destruct capital_ends_keywords as (_ & Kg & Ko & Kh).
  intros [->|(u & tl & kw & -> & Hin & Hu & Hp & Hn)].
  - eexists. unfold terminators. do 3 apply Sem_AltR. constructor.
  - unfold terminator_words in Hin.
    apply elem_of_cons in Hin as [->|Hin];
      [|apply elem_of_cons in Hin as [->|Hin];
        [|apply elem_of_cons in Hin as [->|Hin];
          [|by apply elem_of_nil in Hin]]];
      eexists; unfold terminators.
    + apply Sem_AltL. by apply Sem_keyword_intro.
    + apply Sem_AltR, Sem_AltL. by apply Sem_keyword_intro.
    + do 2 apply Sem_AltR. apply Sem_AltL. by apply Sem_keyword_intro.
Qed.

Lemma after_last pre s w t :
  after (mkst (last pre) s) w t = mkst (last (pre ++ w)) t.
Proof. unfold after. simpl. rewrite last_app. by destruct (last w). Qed.

(** what a successful search ran: the matcher succeeded right after the
    prefix it skipped *)
Lemma search_inv re : ∀ s idx p mt,
  search re idx p s = Some mt →
  ∃ pre t, s = pre ++ t ∧ m_index mt = idx + length pre ∧
           rmatch re found (after (mkst p s) pre t) ∅
             = Some (m_after mt, m_caps mt) ∧
           m_text mt = consumed (after (mkst p s) pre t) (m_after mt).
Proof.
  induction s as [|ch tl IH]; intros idx p mt H; simpl in H.
  - destruct (rmatch re found (mkst p []) ∅) as [[σ' c']|] eqn:E; [|done].
    inversion H; subst; clear H. exists [], []. simpl.
    split_and!; [done|lia|done|done].
  - destruct (rmatch re found (mkst p (ch :: tl)) ∅) as [[σ' c']|] eqn:E.
    + inversion H; subst; clear H. exists [], (ch :: tl). simpl.
      split_and!; [done|lia|done|done].
    + apply IH in H as (pre & t & Es & Ei & Hm & Ht).
      exists (ch :: pre), t. subst tl. rewrite after_cons.
      split_and!; [done|simpl; lia|done|done].
Qed.

(** The matches of a loop over a text, each seen at its place in the
    text. *)
Lemma exec_loop_in_context re sql (P : rmatch_result → Prop) :
  (∀ pre t mt,
     sql = pre ++ t →
     rmatch re found (mkst (last pre) t) ∅ = Some (m_after mt, m_caps mt) →
     P mt) →
  ∀ fuel idx read s l,
    sql = read ++ s →
    exec_loop re fuel idx (last read) s = Some l → Forall P l.
Proof.
  intros HP. induction fuel as [|fuel IH]; intros idx read s l Hs H; [done|].
  simpl in H. destruct (search re idx (last read) s) as [mt|] eqn:E;
    [|inversion H; constructor].
  destruct (_ <? _); [|done].
  destruct (exec_loop re fuel _ _ _) as [l'|] eqn:E'; [|done].
  inversion H; subst l; clear H.
  apply search_inv in E as (pre & t & Est & _ & Hm & _).
  rewrite after_last in Hm. subst s.
  constructor.
  - apply (HP (read ++ pre) t); [by rewrite <-(assoc_L (++))|done].
  - pose proof Hm as (σ1 & c1 & HS & [= -> ->])%rmatch_sound.
    apply Sem_consumed in HS as (Er & Ea & _). simpl in Er.
    rewrite after_last in Ea.
    remember (consumed (mkst (last (read ++ pre)) t) (m_after mt)) as w eqn:Ew.
    clear Ew. apply (IH (m_end mt) ((read ++ pre) ++ w) (rest (m_after mt))).
    + rewrite Hs, Er. by rewrite <-!(assoc_L (++)).
    + apply (f_equal prev) in Ea. simpl in Ea. by rewrite <-Ea.
Qed.

Lemma consumed_after σ w tl : rest σ = w ++ tl → consumed σ (after σ w tl) = w.
Proof. destruct σ as [p s]. simpl. intros ->. by apply consumed_app. Qed.

(** one character of a class or more *)
Lemma Sem_plus_class f σ c σ' c' :
  Sem (plus (Chr f)) σ c σ' c' →
  c' = c ∧ ∃ u, u ≠ [] ∧ rest σ = u ++ rest σ' ∧
                Forall (λ x, f x = true) u ∧ σ' = after σ u (rest σ').
Proof.
  unfold plus. intros (σa & ca & Ha & Hb)%Sem_Seq_inv.
  inversion Ha; subst.
  apply Sem_class in Hb as (-> & u & E & Hu & P). cbn [rest] in *.
  split; [done|]. exists (ch :: u). rewrite E.
  split_and!; [done|done|by constructor|].
  rewrite after_cons, <-E. done.
Qed.

Lemma state_after_last pre s w σ :
  σ = after (mkst (last pre) s) w (rest σ) → σ = mkst (last (pre ++ w)) (rest σ).
Proof. by rewrite after_last. Qed.

Lemma where_match_shape pre s σ' c' :
  rmatch whereRegex found (mkst (last pre) s) ∅ = Some (σ', c') →
  ∃ body, c' !! 1 = Some body ∧ where_clause_in (pre ++ s) body.
Proof.
  destruct capital_ends_keywords as (Kw & _).
  intros H. unfold whereRegex in H.
  change (rmatch (keyword "WHERE")
            (rmatch (plus ws ∙ Group 1 (Star false dot) ∙ terminators)%re found)
            (mkst (last pre) s) ∅ = Some (σ', c')) in H.
  apply rmatch_sound in H as (σ1 & c1 & H1 & H).
  apply Sem_keyword in H1 as (-> & kw & E1 & Hkw & Hp & _ & P1); [|done].
  cbn [rest prev] in E1, Hp. apply state_after_last in P1.
  change (rmatch (plus ws)
            (rmatch (Group 1 (Star false dot) ∙ terminators)%re found)
            σ1 ∅ = Some (σ', c')) in H.
  apply rmatch_sound in H as (σ2 & c2 & H2 & H).
  apply Sem_plus_class in H2 as (-> & sp & Hsp & E2 & Hws & P2).
  rewrite P1 in P2. apply state_after_last in P2.
  change (star_loop (rmatch dot) false
            (λ σ c, rmatch terminators found σ (<[1 := consumed σ2 σ]> c))
            (length (rest σ2)) σ2 ∅ = Some (σ', c')) in H.
  apply lazy_stops_first in H as (body & tail & E3 & Hbody & Hk & Hmin).
  rewrite consumed_after in Hk by done.
  apply rmatch_sound in Hk as (σ3 & c3 & H3 & [= -> ->]).
  apply Sem_terminators in H3 as (-> & Hterm).
  exists body. split; [apply lookup_insert_eq|].
  exists pre, kw, sp, tail.
  assert (Es : s = kw ++ sp ++ body ++ tail) by (by rewrite E1, E2, E3).
  split_and!; try done.
  - by rewrite Es.
  - eapply Forall_impl; [exact Hbody|]. intros x. by apply negb_true_iff.
  - rewrite P2 in Hterm. rewrite after_last in Hterm. cbn [prev rest] in Hterm.
    by rewrite <-!(assoc_L (++)) in Hterm.
  - intros j Hj Ht. specialize (Hmin j Hj).
    rewrite P2, after_last in Hmin.
    rewrite <-!(assoc_L (++)) in Hmin.
    destruct (Sem_terminators_intro _ _
                (<[1 := consumed σ2 (mkst (last (pre ++ kw ++ sp ++ take j body))
                                          (drop j body ++ tail))]> ∅) Ht)
      as [σ'' HS].
    eapply (rmatch_complete _ found) in HS; [|done].
    rewrite P2 in HS at 1. rewrite <-!(assoc_L (++)) in HS.
    rewrite Hmin in HS. by destruct HS.
Qed.

(** ** A loop finds every match that does not overlap an earlier one *)

(** a search that fails tried every position *)
Lemma search_none re : ∀ s idx p,
  search re idx p s = None →
  ∀ a b, s = a ++ b → rmatch re found (after (mkst p s) a b) ∅ = None.
Proof.
  induction s as [|ch tl IH]; intros idx p H a b Hs; simpl in H.
  - destruct (rmatch re found (mkst p []) ∅) as [[σ' c']|] eqn:E; [done|].
    symmetry in Hs. apply app_eq_nil in Hs as [-> ->]. exact E.
  - destruct (rmatch re found (mkst p (ch :: tl)) ∅) as [[σ' c']|] eqn:E;
      [done|].
    destruct a as [|x a]; simpl in Hs.
    + subst b. exact E.
    + injection Hs as -> ->. rewrite after_cons. by eapply IH.
Qed.

(** a search that succeeds tried, and failed at, every position it
    skipped *)
Lemma search_skipped re : ∀ s idx p mt,
  search re idx p s = Some mt →
  ∀ a b, s = a ++ b → idx + length a < m_index mt →
         rmatch re found (after (mkst p s) a b) ∅ = None.
Proof.
  induction s as [|ch tl IH]; intros idx p mt H a b Hs Hlt; simpl in H.
  - destruct (rmatch re found (mkst p []) ∅) as [[σ' c']|] eqn:E; [|done].
    inversion H; subst. simpl in Hlt. lia.
  - destruct (rmatch re found (mkst p (ch :: tl)) ∅) as [[σ' c']|] eqn:E.
    + inversion H; subst. simpl in Hlt. lia.
    + destruct a as [|x a]; simpl in Hs.
      * subst b. exact E.
      * injection Hs as -> ->. rewrite after_cons.
        eapply IH; [exact H|done|]. simpl in Hlt. lia.
Qed.

Lemma exec_loop_covers re sql : ∀ fuel read s ms,
  sql = read ++ s →
  exec_loop re fuel (length read) (last read) s = Some ms →
  ∀ i, length read ≤ i → can_match re sql i → covered ms i.
Proof.
  induction fuel as [|fuel IH]; intros read s ms Hs H i Hi Hcan; [done|].
  destruct Hcan as (a & b & σ' & c' & Hab & Hlen & HS).
  assert (Hsplit : ∃ a', a = read ++ a' ∧ s = a' ++ b).
  { exists (drop (length read) a).
    assert (Ha : a = take (length read) a ++ drop (length read) a)
      by (by rewrite take_drop).
    assert (Hrs : read ++ s = a ++ b) by (by rewrite <-Hs).
    assert (Hr : take (length read) a = read).
    { apply (f_equal (take (length read))) in Hrs.
      rewrite take_app_length in Hrs.
      rewrite take_app_le in Hrs by lia. done. }
    rewrite Hr in Ha. split; [done|].
    rewrite Ha, <-(assoc_L (++)) in Hrs. by apply app_inv_head in Hrs. }
  destruct Hsplit as (a' & -> & Hs').
  assert (Hfound : is_Some (rmatch re found (after (mkst (last read) s) a' b) ∅)).
  { rewrite after_last. eapply rmatch_complete; [exact HS|done]. }
  simpl in H.
  destruct (search re (length read) (last read) s) as [mt|] eqn:E.
  - destruct (_ <? _); [|done].
    destruct (exec_loop re fuel _ _ _) as [l'|] eqn:E'; [|done].
    inversion H; subst ms; clear H.
    rewrite length_app in Hlen.
    destruct (decide (length read + length a' < m_index mt)) as [Hlt|Hge].
    { rewrite (search_skipped _ _ _ _ _ E a' b Hs' Hlt) in Hfound.
      by destruct Hfound. }
    destruct (decide (i < m_end mt)) as [Hin|Hout].
    { exists mt. split; [apply list_elem_of_here|lia]. }
    pose proof E as (pre & t & Est & Eidx & Hm & Htext)%search_inv.
    rewrite after_last in Hm, Htext.
    pose proof Hm as (σ1 & c1 & HS1 & [= -> ->])%rmatch_sound.
    apply Sem_consumed in HS1 as (Er & Ea & _). cbn [rest] in Er.
    rewrite <-Htext in Er, Ea. rewrite after_last in Ea.
    assert (Hsql : sql = (read ++ pre ++ m_text mt) ++ rest (m_after mt)).
    { rewrite Hs, Est, Er. by rewrite <-!(assoc_L (++)). }
    assert (Hend : m_end mt = length (read ++ pre ++ m_text mt)).
    { unfold m_end. rewrite Eidx, !length_app. lia. }
    destruct (IH (read ++ pre ++ m_text mt) (rest (m_after mt)) l' Hsql) with (i := i)
      as (mt' & Hin' & Hcov).
    + rewrite <-Hend. apply (f_equal prev) in Ea. cbn [prev] in Ea.
      rewrite (assoc_L (++)), <-Ea. exact E'.
    + lia.
    + exists (read ++ a'), b, σ', c'. rewrite length_app. done.
    + exists mt'. split; [by apply list_elem_of_further|done].
  - rewrite (search_none _ _ _ _ E a' b Hs') in Hfound. by destruct Hfound.
Qed.

(** A loop over the matches of a pattern covers every place at which the
    pattern can match: such a place is where a match of the loop starts,
    or lies inside an earlier match. *)
Lemma exec_all_covers re sql ms :
  exec_all re sql = Some ms → ∀ i, can_match re sql i → covered ms i.
Proof.
  intros H i Hi. eapply (exec_loop_covers re sql _ [] sql); [done|exact H|simpl; lia|done].
Qed.

Lemma Sem_class_intro g f c : ∀ u p tl,
  Forall (λ x, f x = true) u →
  Sem (Star g (Chr f)) (mkst p (u ++ tl)) c (after (mkst p (u ++ tl)) u tl) c.
Proof.
  induction u as [|x u IH]; intros p tl Hu.
  - apply Sem_Star0.
  - inversion Hu; subst. eapply Sem_StarS.
    + by apply (Sem_Chr f p x (u ++ tl)).
    + simpl. lia.
    + rewrite after_cons. by apply IH.
Qed.

Lemma Sem_plus_class_intro f c u p tl :
  u ≠ [] → Forall (λ x, f x = true) u →
  Sem (plus (Chr f)) (mkst p (u ++ tl)) c (after (mkst p (u ++ tl)) u tl) c.
Proof.
  destruct u as [|x u]; [done|]. intros _ Hu. inversion Hu; subst.
  unfold plus. eapply Sem_Seq.
  - by apply (Sem_Chr f p x (u ++ tl)).
  - rewrite after_cons. by apply Sem_class_intro.
Qed.

Lemma word_bounds x : is_word x = true → (48 ≤ x ≤ 122)%N.
Proof.
  unfold is_word, is_upper, is_lower, is_digit.
  repeat match goal with
  | |- context [(?a <=? ?b)%N] => destruct (N.leb_spec a b)
  | |- context [(?a =? ?b)%N] => destruct (N.eqb_spec a b)
  end; simpl; try done; lia.
Qed.

Lemma space_not_word x : is_space x = true → is_word x = false.
Proof.
  destruct (is_word x) eqn:E; [|done]. apply word_bounds in E.
  unfold is_space.
  repeat match goal with
  | |- context [(?a =? ?b)%N] => destruct (N.eqb_spec a b); [exfalso; lia|]
  | |- context [(?a <=? ?b)%N] => destruct (N.leb_spec a b); [exfalso; lia|]
  end.
  done.
Qed.

Lemma Sem_Group_intro i a p w tl c σ' c1 :
  Sem a (mkst p (w ++ tl)) c σ' c1 → rest σ' = tl →
  Sem (Group i a) (mkst p (w ++ tl)) c σ' (<[i := w]> c1).
Proof.
  intros H E. pose proof (Sem_Group i _ _ _ _ _ H) as HG.
  by rewrite (consumed_app p w tl σ' E) in HG.
Qed.

(** where a WHERE clause can be read, the pattern can match *)
Lemma where_occurs_can_match sql i :
  where_occurs_at sql i → can_match whereRegex sql i.
Proof.
  destruct capital_ends_keywords as (Kw & _).
  intros (pre & kw & sp & body & tail & -> & Hi & Hp & Hkw & Hsp & Hws & Hb & Ht).
  destruct (Sem_terminators_intro _ _
              (<[1 := body]> ∅) Ht) as [σ' HT].
  exists pre, (kw ++ sp ++ body ++ tail), σ', (<[1 := body]> ∅).
  split_and!; [done|done|].
  unfold whereRegex. eapply Sem_Seq; [|eapply Sem_Seq; [|eapply Sem_Seq]].
  - apply Sem_keyword_intro; [done|by rewrite Hkw|done|].
    destruct sp as [|x sp]; [done|]. inversion Hws; subst. simpl.
    by apply space_not_word.
  - rewrite after_last. by apply Sem_plus_class_intro.
  - rewrite after_last. apply Sem_Group_intro.
    + apply Sem_class_intro.
      eapply Forall_impl; [exact Hb|]. intros x Hx. simpl. by rewrite Hx.
    + reflexivity.
  - rewrite after_last. rewrite <-!(assoc_L (++)). exact HT.
Qed.

Lemma filter_map_Forall {A B} (f : A → option B) (P : A → Prop) (Q : B → Prop) l :
  (∀ a b, P a → f a = Some b → Q b) → Forall P l → Forall Q (filter_map f l).
Proof.
  intros Hf. induction 1 as [|a l Ha _ IH]; simpl; [constructor|].
  destruct (f a) eqn:E; [constructor; eauto|done].
Qed.

(** Every clause the helper returns is the trimmed, non-empty text of a
    WHERE clause of the statement. *)
Lemma where_clauses_shape sql clauses :
  extractWhereClauses sql = Some clauses →
  Forall (λ c, c ≠ [] ∧ ∃ body, c = trim body ∧ where_clause_in sql body)
         clauses.
Proof.
  unfold extractWhereClauses. intros H.
  destruct (exec_all whereRegex sql) as [ms|] eqn:E; [|done].
  inversion H; subst clauses; clear H.
  eapply (filter_map_Forall _
            (λ mt, ∃ body, cap mt 1 = Some body ∧ where_clause_in sql body)).
  - intros mt c (body & Hc & Hb) Hg. unfold clause_of_match, grp in Hg.
    rewrite Hc in Hg.
    simpl in Hg. destruct (trim body) eqn:Et; [done|].
    inversion Hg; subst c. split; [done|]. exists body. by rewrite Et.
  - unfold exec_all in E.
    eapply (exec_loop_in_context whereRegex sql) with (read := []);
      [|reflexivity|exact E].
    intros pre t mt -> Hm. by apply where_match_shape in Hm.
Qed.

Lemma extractWhereClauses_empty : extractWhereClauses [] = Some [].
Proof. vm_compute. reflexivity. Qed.

Lemma process_blocks_elem stm doc m : ∀ xs srcs tgts qs,
  process_blocks stm doc xs = Some (srcs, tgts, qs) → m ∈ xs →
  ∃ s t q, process_block stm doc m = Some (s, t, q) ∧ ∀ x, x ∈ s → x ∈ srcs.
Proof.
  induction xs as [|a xs IH]; intros srcs tgts qs H Hin; simpl in H.
  - by apply elem_of_nil in Hin.
  - destruct (process_block stm doc a) as [[[s t] q]|] eqn:E1; [|done].
    simpl in H.
    destruct (process_blocks stm doc xs) as [[[ss ts] qq]|] eqn:E2; [|done].
    simpl in H. inversion H; subst; clear H.
    apply elem_of_cons in Hin as [->|Hin].
    + exists s, t, q. split; [done|]. intros x Hx. apply elem_of_app. by left.
    + destruct (IH _ _ _ eq_refl Hin) as (s' & t' & q' & Hb & Hsub).
      exists s', t', q'. split; [done|]. intros x Hx.
      apply elem_of_app. right. by apply Hsub.
Qed.

(** * Further properties of the code *)

(** ** The validator *)

Lemma distinct_go_NoDup {A} `{EqDecision A} (l : list A) :
  ∀ seen, NoDup (distinct_go seen l).
Proof.
  induction l as [|a l IH]; intros seen; simpl; [constructor|].
  case_bool_decide as Ha; [apply IH|].
  constructor; [|apply IH].
  rewrite distinct_go_elem. intros [_ Hn]. apply Hn, list_elem_of_here.
Qed.

Lemma distinct_NoDup {A} `{EqDecision A} (l : list A) : NoDup (distinct l).
Proof. apply distinct_go_NoDup. Qed.

Lemma issues_empty_valid data :
  valid (validateExtractedData data) = true ↔ issues (validateExtractedData data) = [].
Proof.
  unfold validateExtractedData. simpl.
  destruct (_ ++ _); simpl; split; done.
Qed.

Lemma connected_not_disconnected data stage :
  connected data stage ↔ is_disconnected data stage = false.
Proof.
  unfold connected, is_disconnected, has_stage.
  destruct stage as [s|]; simpl.
  - rewrite andb_false_iff, !negb_false_iff, !bool_decide_eq_true.
    split; [by intros (? & [= <-] & ?)|]. intros H. by exists s.
  - split; [by intros (? & ? & _)|done].
Qed.

Lemma disconnected_none data :
  filter (λ stage, is_disconnected data stage = true) (all_stages data) = [] ↔
  ∀ stage, stage ∈ stage_names data → connected data stage.
Proof.
  split.
  - intros H stage Hin. apply connected_not_disconnected.
    destruct (is_disconnected data stage) eqn:E; [|done].
    assert (Hx : stage ∈ filter (λ stage, is_disconnected data stage = true)
                   (all_stages data)).
    { apply list_elem_of_filter. split; [done|by apply distinct_elem]. }
    rewrite H in Hx. by apply elem_of_nil in Hx.
  - intros H. destruct (filter _ _) as [|x l] eqn:E; [done|].
    assert (Hx : x ∈ x :: l) by apply list_elem_of_here.
    rewrite <-E in Hx. apply list_elem_of_filter in Hx as [Hd Hin].
    apply distinct_elem, H, connected_not_disconnected in Hin. congruence.
Qed.

(** X1.  A job is judged valid exactly when its name is not empty, its type is
    not the empty string, it has a source or a target, and either its flow is
    empty or every stage name drawn from sources, targets, transforms, lookups
    and specialized stages is defined and is the [from] or the [to] of some
    connection. *)
Theorem valid_iff data :
  valid (validateExtractedData data) = true ↔
  name data ≠ [] ∧ type data ≠ VStr [] ∧
  (sources data ≠ [] ∨ targets data ≠ []) ∧
  (flow data = [] ∨ ∀ stage, stage ∈ stage_names data → connected data stage).
Proof.
  rewrite issues_empty_valid. unfold validateExtractedData. simpl.
  rewrite !app_nil, <-disconnected_none.
  split.
  - intros (H1 & H2 & H3 & H4). split_and!.
    + by destruct (name data).
    + by case_bool_decide.
    + destruct (sources data); [|by left]. destruct (targets data); [done|by right].
    + destruct (flow data) as [|f fl]; [by left|right]. simpl in H4.
      by apply fmap_nil_inv in H4.
  - intros (H1 & H2 & H3 & H4). split_and!.
    + by destruct (name data).
    + by rewrite bool_decide_eq_false_2.
    + destruct (sources data); [|done]. destruct (targets data); [|done].
      by destruct H3.
    + destruct (flow data) as [|f fl]; [done|]. simpl.
      destruct H4 as [?|H4]; [done|]. by rewrite H4.
Qed.

Lemma disconnected_message_inj s1 s2 :
  disconnected_message (Some s1) = disconnected_message (Some s2) → s1 = s2.
Proof.
  unfold disconnected_message, stage_text. intros H.
  do 2 apply app_inv_head in H.
  rewrite !(assoc_L (++)) in H.
  apply app_inv_tail in H. by apply app_inv_tail in H.
Qed.

Lemma disconnected_message_head stage :
  ∃ tl, disconnected_message stage = txt "Stage " ++ tl.
Proof. by eexists. Qed.

Lemma NoDup_optional {A} (x : A) (l0 l : list A) :
  l0 = [] ∨ l0 = [x] → x ∉ l → NoDup l → NoDup (l0 ++ l).
Proof. intros [-> | ->] ? ?; [done|]. by constructor. Qed.

(** X2.  The validator lists no message twice, provided the job does not hold
    both an entity without a name and a stage literally named [undefined]:
    these two give the same disconnected-stage message. *)
Theorem no_issue_twice data :
  (None ∈ stage_names data → Some (txt "undefined") ∉ stage_names data) →
  NoDup (issues (validateExtractedData data)).
Proof.
  intros Hu. unfold validateExtractedData. simpl.
  set (b := if bool_decide (type data = VStr []) then [txt "Missing job type"] else []).
  set (c := if (length (sources data) =? 0) && (length (targets data) =? 0)
            then [txt "No sources or targets found - possible parsing issue"] else []).
  set (d := if 0 <? length (flow data)
            then map disconnected_message
                   (filter (λ stage, is_disconnected data stage = true) (all_stages data))
            else []).
  assert (Hb : b = [] ∨ b = [txt "Missing job type"]) by (subst b; destruct (bool_decide _); auto).
  assert (Hc : c = [] ∨ c = [txt "No sources or targets found - possible parsing issue"])
    by (subst c; destruct (_ && _); auto).
  assert (Hd : NoDup d ∧ ∀ m, m ∈ d → ∃ tl, m = txt "Stage " ++ tl).
  { subst d. destruct (0 <? _); [|split; [constructor|by intros ? ?%elem_of_nil]].
    split.
    - apply NoDup_fmap_2_strong; [|apply NoDup_filter, distinct_NoDup].
      unfold all_stages.
      intros x y [_ Hx]%list_elem_of_filter [_ Hy]%list_elem_of_filter E.
      apply (proj1 (distinct_elem _ _)) in Hx.
      apply (proj1 (distinct_elem _ _)) in Hy.
      destruct x as [x|], y as [y|]; try done.
      + f_equal. by apply disconnected_message_inj.
      + apply (disconnected_message_inj x (txt "undefined")) in E. subst x.
        by destruct (Hu Hy).
      + apply (disconnected_message_inj (txt "undefined") y) in E. subst y.
        by destruct (Hu Hx).
    - intros m (stage & -> & _)%list_elem_of_fmap. apply disconnected_message_head. }
  clearbody b c d. destruct Hd as [Hd Hm].
  assert (Hs : ∀ m, m ∈ d → m ≠ txt "Missing job name" ∧ m ≠ txt "Missing job type" ∧
             m ≠ txt "No sources or targets found - possible parsing issue").
  { intros m (tl' & ->)%Hm. split_and!; discriminate. }
  apply (NoDup_optional (txt "Missing job name")).
  { destruct (nonempty _); auto. }
  { rewrite !elem_of_app. intros [H|[H|H]].
    - destruct Hb as [-> | ->]; [by apply elem_of_nil in H|].
      apply list_elem_of_singleton in H. discriminate H.
    - destruct Hc as [-> | ->]; [by apply elem_of_nil in H|].
      apply list_elem_of_singleton in H. discriminate H.
    - by destruct (Hs _ H) as (? & _). }
  apply (NoDup_optional (txt "Missing job type")); [done| |].
  { rewrite !elem_of_app. intros [H|H].
    - destruct Hc as [-> | ->]; [by apply elem_of_nil in H|].
      apply list_elem_of_singleton in H. discriminate H.
    - by destruct (Hs _ H) as (_ & ? & _). }
  apply (NoDup_optional (txt "No sources or targets found - possible parsing issue"));
    [done| |done].
  intros H. by destruct (Hs _ H) as (_ & _ & ?).
Qed.

Lemma no_issue_twice_witness :
  NoDup (issues (validateExtractedData job_with_flow)).
Proof.
  apply (no_issue_twice job_with_flow).
  intros H. apply list_elem_of_In in H. vm_compute in H.
  destruct H as [H|[]]. discriminate H.
Defined.

(** ** The token estimate *)

Lemma length_join sep l :
  length (join sep l) + length sep = list_sum (map length l) + length sep * length l
  ∨ l = [].
Proof.
  induction l as [|x [|y l] IH]; [by right|left..].
  - clear IH. simpl. lia.
  - destruct IH as [IH|IH]; [|done].
    change (join sep (x :: y :: l)) with (x ++ sep ++ join sep (y :: l)).
    rewrite !length_app. 
    change (list_sum (map length (x :: y :: l)))
      with (length x + list_sum (map length (y :: l))).
    change (length (x :: y :: l)) with (S (length (y :: l))).
    lia.
Qed.

Lemma length_object fs :
  fs ≠ [] →
  length (stringify (JObject fs)) =
  1 + list_sum (map (λ kv, length (field_text kv)) fs) + length fs.
Proof.
  intros Hfs. rewrite stringify_object, !length_app.
  destruct (length_join (txt ",") (map field_text fs)) as [H|H].
  - rewrite length_map, map_map in H.
    change (length (txt ",")) with 1 in *. change (length (txt "{")) with 1.
    change (length (txt "}")) with 1.
    lia.
  - by apply fmap_nil_inv in H.
Qed.

Lemma sections_keys data : map fst (sections data) = section_names.
Proof. reflexivity. Qed.

Lemma length_field_text k j :
  length (field_text (k, j)) = length (quote k) + 1 + length (stringify j).
Proof. unfold field_text. simpl fst. simpl snd. rewrite !length_app. simpl. lia. Qed.

(** X3.  The breakdown of a token estimate has the nine section keys and
    [basic], in this order, and the total exceeds the sum of the breakdown by
    at least 22 and at most 30 tokens: the parts never add up to the total. *)
Theorem breakdown_and_total data :
  let usage := estimateTokenUsage data in
  map fst (breakdown usage) = section_names ++ [txt "basic"] ∧
  list_sum (map snd (breakdown usage)) + 22 ≤ total usage ≤
  list_sum (map snd (breakdown usage)) + 30.
Proof.
  cbv zeta. split; [reflexivity|].
  unfold estimateTokenUsage. cbn [total breakdown].
  unfold JSON_stringify, json_of_job.
  set (head := field "name" (JString (name data)) ++
               field "description" (JString (description data)) ++
               field_value "type" (type data)).
  set (meta := field "metadata" (json_of_metadata (metadata data))).
  replace (field "name" (JString (name data)) ++
           field "description" (JString (description data)) ++
           field_value "type" (type data) ++ sections data ++ meta)
    with (head ++ sections data ++ meta)
    by (subst head; by rewrite <-!(assoc_L (++))).
  replace (field "name" (JString (name data)) ++
           field "description" (JString (description data)) ++
           field_value "type" (type data) ++ meta)
    with (head ++ meta)
    by (subst head; by rewrite <-!(assoc_L (++))).
  assert (Hh : head ≠ []) by (subst head; done).
  rewrite !length_object by (by destruct head).
  rewrite !map_app, !list_sum_app, !length_app.
  unfold sections. unfold field.
  cbn [map app list_sum length fst snd].
  rewrite !length_field_text.
  change (length (quote (txt "parameters"))) with 12.
  change (length (quote (txt "sources"))) with 9.
  change (length (quote (txt "targets"))) with 9.
  change (length (quote (txt "transforms"))) with 12.
  change (length (quote (txt "sql_scripts"))) with 13.
  change (length (quote (txt "lookups"))) with 9.
  change (length (quote (txt "filters"))) with 9.
  change (length (quote (txt "specialized_stages"))) with 20.
  change (length (quote (txt "flow"))) with 6.
  clearbody head meta.
  repeat match goal with
  | |- context [ceil4 ?n] =>
    let H := fresh in pose proof (ceil4_is_ceiling n) as H;
    generalize dependent (ceil4 n); intros
  end.
  unfold list_sum in *. cbn [fold_right] in *. lia.
Qed.

(** ** The stage map *)

Lemma trim_start_head s c :
  head (trim_start s) = Some c → is_space c = false.
Proof.
  induction s as [|x s IH]; simpl; [done|].
  destruct (is_space x) eqn:E; [done|]. simpl. by intros [= <-].
Qed.

Lemma trim_head s c : head (trim s) = Some c → is_space c = false.
Proof.
  unfold trim, trim_end.
  destruct (trim_start s) as [|x s'] eqn:E; [done|].
  assert (Hx : is_space x = false) by (apply (trim_start_head s); by rewrite E).
  destruct (trim_start (rev (x :: s'))) as [|y t] eqn:E'; [done|].
  (* the reversed text ends with x, which trimming from the other side keeps *)
  assert (Hk : ∀ l, trim_start (l ++ [x]) = trim_start l ++ [x] ∨
                    trim_start (l ++ [x]) = [x]).
  { induction l as [|z l IHl]; simpl; [rewrite Hx; by left|].
    destruct (is_space z); [|by left].
    destruct IHl as [-> | ->]; auto. }
  simpl rev in E'. destruct (Hk (rev s')) as [H|H]; rewrite H in E'.
  - rewrite <-E', rev_app_distr. simpl. by intros [= <-].
  - rewrite <-E'. simpl. by intros [= <-].
Qed.

Lemma trim_not_blank s : trim s ≠ txt " ".
Proof.
  intros H. pose proof (trim_head s 32%N) as Hh. rewrite H in Hh.
  by specialize (Hh eq_refl).
Qed.

Lemma obj_set_other k v o k' : k' ≠ k → obj_set k v o !! k' = o !! k'.
Proof.
  intros Hk. unfold obj_set. destruct (str_eqb _ _); [done|].
  by rewrite lookup_insert_ne.
Qed.

Lemma obj_set_same k v o :
  k ≠ txt "__proto__" → obj_set k v o !! k = Some v.
Proof.
  intros Hk. unfold obj_set, str_eqb. rewrite bool_decide_eq_false_2 by done.
  by rewrite lookup_insert_eq.
Qed.

Lemma obj_set_proto k v o :
  o !! txt "__proto__" = None → obj_set k v o !! txt "__proto__" = None.
Proof.
  intros Ho. unfold obj_set, str_eqb. case_bool_decide as E; [done|].
  by rewrite lookup_insert_ne.
Qed.

Lemma stage_map_loop_keeps names k : ∀ ids i0 m,
  (∀ j, ids !! j = Some k → length names ≤ i0 + j) →
  stage_map_loop names i0 ids m !! k = m !! k.
Proof.
  induction ids as [|id tl IH]; intros i0 m Hk; simpl; [done|].
  rewrite IH.
  - destruct (names !! i0) as [n|] eqn:En; [|done].
    destruct (str_eqb n _); [done|].
    apply obj_set_other. intros ->.
    apply lookup_lt_Some in En. specialize (Hk 0 eq_refl). lia.
  - intros j Hj. specialize (Hk (S j) Hj). lia.
Qed.

Lemma stage_map_loop_proto names : ∀ ids i0 m,
  m !! txt "__proto__" = None →
  stage_map_loop names i0 ids m !! txt "__proto__" = None.
Proof.
  induction ids as [|id tl IH]; intros i0 m Hm; simpl; [done|].
  apply IH. destruct (names !! i0) as [n|]; [|done].
  destruct (str_eqb n _); [done|]. by apply obj_set_proto.
Qed.

Lemma stage_map_loop_last names k :
  Forall (λ n, n ≠ txt " ") names → k ≠ txt "__proto__" →
  ∀ ids i0 m j,
  ids !! j = Some k → i0 + j < length names →
  (∀ j', j < j' → i0 + j' < length names → ids !! j' ≠ Some k) →
  stage_map_loop names i0 ids m !! k = names !! (i0 + j).
Proof.
  intros Hn Hk. induction ids as [|id tl IH]; intros i0 m j Hj Hlt Hlast; [done|].
  destruct j as [|j]; simpl in Hj.
  - injection Hj as ->. simpl. rewrite Nat.add_0_r in *.
    destruct (names !! i0) as [n|] eqn:En; [|apply lookup_ge_None in En; lia].
    assert (n ≠ txt " ").
    { rewrite Forall_forall in Hn. apply Hn. by eapply list_elem_of_lookup_2. }
    unfold str_eqb at 1. rewrite bool_decide_eq_false_2 by done.
    rewrite stage_map_loop_keeps; [by apply obj_set_same|].
    intros j' Hj'. destruct (decide (S i0 + j' < length names)) as [Hin|]; [|lia].
    exfalso. apply (Hlast (S j')); [lia|lia|done].
  - simpl. rewrite (IH (S i0) _ j Hj); [f_equal; lia|lia|].
    intros j' ? ?. apply (Hlast (S j')); lia.
Qed.

(** X4.  In the stage map, an identifier other than [__proto__] is mapped to
    the trimmed name at its last position in the identifier list that lies
    within the name list; an identifier that occurs only past the end of the
    name list is not in the map; [__proto__] is never a key of the map. *)
Theorem stage_map_lookup stageList stageNamesText :
  let stageIds := split (txt "|") stageList in
  let stageNames := map trim (split (txt "|") stageNamesText) in
  let stageMap := build_stage_map stageList stageNamesText in
  (∀ i id, stageIds !! i = Some id → id ≠ txt "__proto__" →
           i < length stageNames →
           (∀ j, i < j → j < length stageNames → stageIds !! j ≠ Some id) →
           stageMap !! id = stageNames !! i) ∧
  (∀ id, (∀ i, stageIds !! i = Some id → length stageNames ≤ i) →
         stageMap !! id = None) ∧
  stageMap !! txt "__proto__" = None.
Proof.
  cbv zeta. unfold build_stage_map. split_and!.
  - intros i id Hi Hid Hlt Hlast.
    rewrite (stage_map_loop_last _ id) with (j := i); try done.
    apply Forall_forall. intros n (x & -> & _)%list_elem_of_fmap.
    apply trim_not_blank.
  - intros id Hid. rewrite stage_map_loop_keeps; [done|].
    intros j Hj. simpl. by apply Hid.
  - by apply stage_map_loop_proto.
Qed.

(** ** Column types *)

Lemma table_entry l k v :
  table l !! k = Some v → (k, v) ∈ map (λ kv, (txt (fst kv), txt (snd kv))) l.
Proof. unfold table. apply elem_of_list_to_map_2. Qed.

Lemma typeMap_sized k v :
  typeMap !! k = Some v → (v ∈ sized_names ↔ k ∈ sized_codes).
Proof.
  intros H%table_entry. cbn [map fst snd] in H.
  repeat (apply elem_of_cons in H as [H|H];
          [injection H as -> ->; vm_compute; split; intros H;
           repeat (apply elem_of_cons in H as [H|H]; [try discriminate H|]);
           try (by apply elem_of_nil in H);
           repeat first [apply list_elem_of_here | apply list_elem_of_further] |]).
  by apply elem_of_nil in H.
Qed.

(** X5.  For the type codes 1, 2, 3 and 12 the mapped type is the name of the
    type (CHAR, NUMERIC, DECIMAL or VARCHAR), followed by [(precision)] or
    [(precision,scale)] when the precision is given and is neither empty nor
    0, the scale being written only when it is given and is neither empty nor
    0.  For every other code precision and scale have no effect. *)
Theorem sql_type_format sqlType precision scale :
  (sqlType ∈ sized_codes →
   ∃ n, typeMap !! sqlType = Some n ∧ n ∈ sized_names ∧
        mapSqlType sqlType precision scale =
          VStr (n ++
                if meaningful precision
                then txt "(" ++ default [] precision ++
                     (if meaningful scale then txt "," ++ default [] scale else []) ++
                     txt ")"
                else [])) ∧
  (sqlType ∉ sized_codes →
   mapSqlType sqlType precision scale = mapSqlType sqlType None None).
Proof.
  split.
  - intros H.
    assert (∃ n, typeMap !! sqlType = Some n ∧ n ∈ sized_names ∧ n ≠ []) as (n & En & Hn & Hne).
    { unfold sized_codes in H.
      repeat (apply elem_of_cons in H as [-> | H];
              [eexists; split; [vm_compute; reflexivity|];
               split; [|discriminate];
               repeat first [apply list_elem_of_here | apply list_elem_of_further] |]).
      by apply elem_of_nil in H. }
    exists n. split_and!; [done..|].
    unfold mapSqlType, obj_get. rewrite En. destruct n as [|x n]; [done|].
    cbn [or_value]. unfold sized_names in Hn.
    rewrite (bool_decide_eq_true_2 _ Hn).
    destruct (meaningful precision); [|by rewrite app_nil_r].
    destruct (meaningful scale); [|done].
    by rewrite <-!(assoc_L (++)).
  - intros H. unfold mapSqlType, obj_get.
    destruct (typeMap !! sqlType) as [n|] eqn:En.
    + destruct n as [|x n]; cbn [or_value].
      * rewrite bool_decide_eq_false_2; [done|].
        intros Hin. repeat (apply elem_of_cons in Hin as [Hin|Hin]; [discriminate Hin|]).
        by apply elem_of_nil in Hin.
      * rewrite bool_decide_eq_false_2; [done|].
        intros Hin. by apply H, (typeMap_sized _ _ En).
    + destruct (inherited sqlType); cbn [or_value]; [done|].
      rewrite bool_decide_eq_false_2; [done|].
      intros Hin. repeat (apply elem_of_cons in Hin as [Hin|Hin]; [discriminate Hin|]).
      by apply elem_of_nil in Hin.
Qed.

(** ** Dataset targets *)

Lemma elem_of_rev {A} (x : A) l : x ∈ rev l ↔ x ∈ l.
Proof. rewrite !list_elem_of_In. symmetry. apply in_rev. Qed.

Lemma split_go_last c : ∀ n cur s,
  (length s < n) → (c ∉ cur) →
  ∃ pre x, last (split_go [c] n cur s) = Some x ∧ rev cur ++ s = pre ++ x ∧
           (c ∉ x) ∧ (pre = [] ∨ last pre = Some c).
Proof.
  induction n as [|n IH]; intros cur s Hn Hc; [lia|].
  destruct s as [|ch tl]; simpl.
  - exists [], (rev cur). rewrite app_nil_r. split_and!; [done|done| |by left].
    by rewrite elem_of_rev.
  - destruct (N.eqb_spec c ch) as [<-|Hne]; simpl.
    + destruct (IH [] tl) as (pre & x & Hl & He & Hx & Hp);
        [simpl in Hn; lia|apply not_elem_of_nil|].
      simpl in He. subst tl.
      exists (rev cur ++ c :: pre), x. split_and!.
      * change (drop 0 (pre ++ x)) with (pre ++ x).
        destruct (split_go [c] n [] (pre ++ x)) as [|y l] eqn:E; [done|].
        exact Hl.
      * by rewrite <-(assoc_L (++)).
      * done.
      * right. rewrite last_app. simpl. rewrite last_cons.
        destruct Hp as [-> | ->]; done.
    + destruct (IH (ch :: cur) tl) as (pre & x & Hl & He & Hx & Hp).
      * simpl in Hn. lia.
      * rewrite not_elem_of_cons. split; [done|done].
      * exists pre, x. split_and!; [done| |done|done].
        simpl in He. by rewrite <-(assoc_L (++)) in He.
Qed.

Lemma split_last c s :
  ∃ pre x, last (split [c] s) = Some x ∧ s = pre ++ x ∧
           (c ∉ x) ∧ (pre = [] ∨ last pre = Some c).
Proof.
  unfold split. destruct (split_go_last c (S (length s)) [] s)
    as (pre & x & ? & ? & ? & ?); [lia|apply not_elem_of_nil|].
  by exists pre, x.
Qed.

Lemma last_elem_of {A} (l : list A) x : last l = Some x → x ∈ l.
Proof.
  intros H. apply last_Some in H as (l' & ->).
  apply elem_of_app. right. apply list_elem_of_here.
Qed.

(** X6.  A dataset target has the type [dataset]; its dataset is the whole
    path when the path ends with a slash, and otherwise what follows the last
    slash of the path, which contains no slash. *)
Theorem dataset_is_last_path_component dsx_content datasetMatch :
  let datasetPath := grp datasetMatch 1 in
  ∃ d, dataset_target dsx_content datasetMatch = OfDataset d ∧
       d_type d = txt "dataset" ∧
       (last datasetPath = Some 47%N → d_dataset d = datasetPath) ∧
       (last datasetPath ≠ Some 47%N →
        ∃ dir, datasetPath = dir ++ d_dataset d ∧ (47%N ∉ d_dataset d) ∧
               (dir = [] ∨ last dir = Some 47%N)).
Proof.
  cbv zeta. unfold dataset_target. eexists. split; [reflexivity|].
  cbn [d_type d_dataset]. split; [done|].
  unfold pop.
  change (txt "/") with [47%N].
  destruct (split_last 47%N (grp datasetMatch 1)) as (pre & x & -> & E & Hx & Hp).
  destruct x as [|y x]; cbn [or_undef]; rewrite E.
  - rewrite !app_nil_r. split; [done|]. intros Hl.
    destruct Hp as [-> | ?]; [|by destruct Hl].
    exists []. split_and!; [done|apply not_elem_of_nil|by left].
  - split.
    + intros Hl. rewrite last_app in Hl. 
      destruct (last (y :: x)) as [z|] eqn:Ez; [|by apply last_None in Ez].
      injection Hl as ->. apply last_elem_of in Ez. by destruct Hx.
    + intros _. by exists pre.
Qed.

(** ** Batches of files and what the page shows *)

Lemma no_count_without_flag now doc r :
  extractDSXJobInfo now doc false = Some r → tokenCount (metadata r) = None.
Proof.
  intros (params & r1 & _ & Hg & ->)%extractDSXJobInfo_inv.
  simpl. by apply gated_stages_header in Hg as (_&_&_&_&_&_&->).
Qed.

Lemma count_with_flag now doc r0 r :
  extractDSXJobInfo now doc false = Some r0 →
  extractDSXJobInfo now doc true = Some r →
  tokenCount (metadata r) = Some (total (estimateTokenUsage r0)).
Proof.
  intros (params & r1 & E1 & Hg & ->)%extractDSXJobInfo_inv
         (params' & r1' & E1' & Hg' & ->)%extractDSXJobInfo_inv.
  rewrite E1 in E1'. injection E1' as <-.
  rewrite Hg in Hg'. injection Hg' as <-. reflexivity.
Qed.

Lemma process_from_fulfilled clock : ∀ files i0,
  Forall (λ file, is_Some (file_text file)) files →
  ∃ results, process_from clock i0 files = Some (Fulfilled results) ∧
    map originalFile results = map file_name files ∧
    ∀ i file content, files !! i = Some file → file_text file = Some content →
      ∃ res, results !! i = Some res ∧
        extractDSXJobInfo (clock (i0 + i)) content false = Some (data res) ∧
        tokenUsage res = Some (estimateTokenUsage (data res)).
Proof.
  induction files as [|file tl IH]; intros i0 Hall.
  - exists []. split_and!; [done|done|]. intros i f c Hf. done.
  - inversion Hall as [|? ? [content Hc] Hall']; subst. cbn [process_from].
    rewrite Hc.
    destruct (extractDSXJobInfo_total (clock i0) content false) as [job Ej].
    rewrite Ej. cbn [mbind option_bind].
    destruct (IH (S i0) Hall') as (results & -> & Hn & Hr). cbn [mbind option_bind].
    eexists. split; [reflexivity|]. split; [simpl; by rewrite Hn|].
    intros [|i] f c Hf Hfc; simpl in Hf.
    + injection Hf as <-. rewrite Hc in Hfc. injection Hfc as <-.
      eexists. split; [reflexivity|]. simpl. by rewrite Nat.add_0_r.
    + destruct (Hr i f c Hf Hfc) as (res & ? & ? & ?). exists res. simpl.
      replace (i0 + S i) with (S i0 + i) by lia. done.
Qed.

Lemma process_from_rejected clock : ∀ files i0 i file,
  files !! i = Some file → file_text file = None →
  (∀ j earlier, j < i → files !! j = Some earlier → is_Some (file_text earlier)) →
  process_from clock i0 files = Some (Rejected (file_name file)).
Proof.
  induction files as [|f tl IH]; intros i0 i file Hi Hnone Hbefore; [done|].
  destruct i as [|i]; simpl in Hi.
  - injection Hi as ->. cbn [process_from]. by rewrite Hnone.
  - cbn [process_from].
    destruct (Hbefore 0 f) as [content Hc]; [lia|done|]. rewrite Hc.
    destruct (extractDSXJobInfo_total (clock i0) content false) as [job ->].
    cbn [mbind option_bind].
    rewrite (IH (S i0) i file Hi Hnone); [done|].
    intros j e Hj He. apply (Hbefore (S j) e); [lia|done].
Qed.

(** X7.  When every file can be read, [processDSXFiles] is fulfilled with one
    result per file, in the order of the files; each carries the name of the
    file, the job extracted from its text without a token count, and the
    token usage estimated from that job, whose total is the token count the
    extraction would store if asked for one.  When the read of a file is
    rejected, and every file before it can be read, the call is rejected
    with the error of that file, and no result is returned. *)
Theorem files_are_processed_in_order clock files :
  (Forall (λ file, is_Some (file_text file)) files →
   ∃ results, processDSXFiles clock files = Some (Fulfilled results) ∧
     map originalFile results = map file_name files ∧
     ∀ i file content, files !! i = Some file → file_text file = Some content →
       ∃ res, results !! i = Some res ∧
         extractDSXJobInfo (clock i) content false = Some (data res) ∧
         tokenCount (metadata (data res)) = None ∧
         tokenUsage res = Some (estimateTokenUsage (data res)) ∧
         ∀ r, extractDSXJobInfo (clock i) content true = Some r →
              tokenCount (metadata r) = Some (total (estimateTokenUsage (data res)))) ∧
  (∀ i file, files !! i = Some file → file_text file = None →
     (∀ j earlier, j < i → files !! j = Some earlier → is_Some (file_text earlier)) →
     processDSXFiles clock files = Some (Rejected (file_name file))).
Proof.
  split.
  - intros Hall.
    destruct (process_from_fulfilled clock files 0 Hall) as (results & Hp & Hn & Hr).
    exists results. split_and!; [done|done|].
    intros i file content Hf Hc. destruct (Hr i file content Hf Hc) as (res & Hi & He & Hu).
    exists res. simpl in He. split_and!; [done|done| |done|].
    + by eapply no_count_without_flag.
    + intros r. by apply count_with_flag.
  - intros i file. apply process_from_rejected.
Qed.

Lemma files_are_processed_in_order_witness :
  (∃ results,
     processDSXFiles (λ _, []) (take 1 files_with_unreadable) = Some (Fulfilled results) ∧
     map originalFile results = [txt "first.dsx"]) ∧
  processDSXFiles (λ _, []) files_with_unreadable = Some (Rejected (txt "second.dsx")).
Proof.
  split.
  - destruct (proj1 (files_are_processed_in_order (λ _, []) (take 1 files_with_unreadable)))
      as (results & Hp & Hn & _).
    + repeat constructor. by eexists.
    + exists results. split; [exact Hp|exact Hn].
  - apply (proj2 (files_are_processed_in_order (λ _, []) files_with_unreadable)
             1 {| file_name := txt "second.dsx"; file_text := None |}).
    + reflexivity.
    + reflexivity.
    + intros [|j] e Hj He; [|lia]. injection He as <-. by eexists.
Defined.

Lemma find_first {A} (f : A → bool) l i x :
  l !! i = Some x → f x = true →
  ∃ j y, j ≤ i ∧ l !! j = Some y ∧ f y = true ∧ List.find f l = Some y ∧
         ∀ k z, k < j → l !! k = Some z → f z = false.
Proof.
  revert i. induction l as [|a l IH]; intros i Hi Hx; [done|].
  simpl. destruct (f a) eqn:Ea.
  - exists 0, a. split_and!; [lia|done|done|done|]. intros k z Hk. lia.
  - destruct i as [|i]; simpl in Hi; [congruence|].
    destruct (IH i Hi Hx) as (j & y & Hj & Hy & Hfy & Hfind & Hmin).
    exists (S j), y. split_and!; [lia|done|done|done|].
    intros [|k] z Hk Hz; simpl in Hz; [congruence|]. apply (Hmin k); [lia|done].
Qed.

(** X8.  The explorer item made for the [i]-th result has the job name of that
    result and the path made of a slash and the name, but its content and its
    JSON content are those of the first result with that job name: when two
    files give jobs of the same name, the later item shows the earlier job. *)
Theorem item_shows_first_job_of_its_name results i res :
  results !! i = Some res →
  ∃ item j first,
    newFiles results !! i = Some item ∧
    item_name item = name (data res) ∧
    path item = txt "/" ++ name (data res) ∧
    j ≤ i ∧ results !! j = Some first ∧
    name (data first) = name (data res) ∧
    (∀ k r, k < j → results !! k = Some r → name (data r) ≠ name (data res)) ∧
    jsonContent item = Some (data first) ∧
    content item = Some (JSON_stringify_indented (data first)).
Proof.
  intros Hi. unfold newFiles, createFileTree. rewrite map_map.
  destruct (find_first (λ r, str_eqb (name (data r)) (name (data res))) results i res Hi)
    as (j & first & Hj & Hfirst & Hname & Hfind & Hmin).
  { unfold str_eqb. by apply bool_decide_eq_true_2. }
  eexists _, j, first. split.
  { rewrite list_lookup_fmap. rewrite Hi. reflexivity. }
  cbn [item_name path jsonContent content entry_name].
  unfold find_data. rewrite Hfind. unfold str_eqb in *.
  apply bool_decide_eq_true in Hname.
  split_and!; try done.
  intros k r Hk Hr E. specialize (Hmin k r Hk Hr).
  by rewrite bool_decide_eq_true_2 in Hmin.
Qed.

Lemma item_shows_first_job_of_its_name_witness :
  ∃ item first,
    newFiles results_of_one_name !! 1 = Some item ∧
    first ∈ results_of_one_name ∧
    name (data first) = txt "Job" ∧
    jsonContent item = Some (data first) ∧
    content item = Some (JSON_stringify_indented (data first)).
Proof.
  destruct (item_shows_first_job_of_its_name results_of_one_name 1 _ eq_refl)
    as (item & j & first & H1 & _ & _ & _ & H2 & H3 & _ & H4 & H5).
  exists item, first. split_and!; [exact H1| |exact H3|exact H4|exact H5].
  by eapply list_elem_of_lookup_2.
Defined.

(** X9.  For a result that is the first with its job name, the text handed to
    the archive for it, under the name of the job followed by [.json], is the
    very text the explorer item shows, and the JSON content of the item is the
    job of the result. *)
Theorem saved_text_is_the_text_shown results i res :
  results !! i = Some res →
  (∀ k r, k < i → results !! k = Some r → name (data r) ≠ name (data res)) →
  ∃ item text,
    newFiles results !! i = Some item ∧
    saveAsZip_files results !! i = Some (item_name item ++ txt ".json", text) ∧
    content item = Some text ∧
    jsonContent item = Some (data res).
Proof.
  intros Hi Hfirst. unfold newFiles, createFileTree, saveAsZip_files.
  rewrite map_map.
  destruct (find_first (λ r, str_eqb (name (data r)) (name (data res))) results i res Hi)
    as (j & first & Hj & Hfirst' & Hname & Hfind & _).
  { unfold str_eqb. by apply bool_decide_eq_true_2. }
  assert (j = i) as ->.
  { destruct (decide (j = i)) as [|Hne]; [done|]. exfalso.
    apply (Hfirst j first); [lia|done|].
    unfold str_eqb in Hname. by apply bool_decide_eq_true in Hname. }
  assert (first = res) as -> by congruence.
  eexists _, _. split.
  { rewrite list_lookup_fmap, Hi. reflexivity. }
  cbn [item_name content jsonContent entry_name].
  unfold find_data. rewrite Hfind. split_and!; [|done|done].
  by rewrite list_lookup_fmap, Hi.
Qed.

Lemma saved_text_is_the_text_shown_witness :
  ∃ item text,
    newFiles results_of_one_name !! 0 = Some item ∧
    saveAsZip_files results_of_one_name !! 0 = Some (txt "Job.json", text) ∧
    content item = Some text.
Proof.
  destruct (saved_text_is_the_text_shown results_of_one_name 0 _ eq_refl)
    as (item & text & H1 & H2 & H3 & _).
  { intros k r Hk. lia. }
  exists item, text. split_and!; [exact H1| |exact H3].
  rewrite H2. vm_compute in H1. injection H1 as <-. reflexivity.
Defined.

(** ** Computing matches, searches and replacements *)

Section Computing.

Context {R : Type}.

Implicit Types (k : st → caps → option R) (σ : st) (c : caps).

Lemma starts_with_app w s : starts_with w s = true ↔ ∃ tl, s = w ++ tl.
Proof.
  revert s. induction w as [|x w IH]; intros s; simpl.
  - split; [by exists s|done].
  - destruct s as [|y s]; [split; [done|by intros (? & ?)]|].
    rewrite andb_true_iff, N.eqb_eq, IH. split.
    + intros [-> (tl & ->)]. by exists tl.
    + intros (tl & [= -> ->]). split; [done|by exists tl].
Qed.

Lemma rmatch_lit w k : ∀ p s c,
  rmatch (lit w) k (mkst p s) c =
  if starts_with w s
  then k (after (mkst p s) w (drop (length w) s)) c
  else None.
Proof.
  induction w as [|x w IH]; intros p s c; simpl.
  - by rewrite after_nil.
  - destruct s as [|y s]; [done|]. simpl.
    destruct (x =? y)%N eqn:E; [|done]. simpl.
    rewrite IH. destruct (starts_with w s) eqn:Es; [|done].
    apply N.eqb_eq in E as ->. apply starts_with_app in Es as (tl & ->).
    cbn [length drop]. rewrite !drop_app_length. by rewrite after_cons.
Qed.

(** the state after reading depends on the character before only *)
Lemma after_step p s s' ch w t :
  after (mkst p s) (ch :: w) t = after (mkst (Some ch) s') w t.
Proof. unfold after. simpl. rewrite last_cons. by destruct (last w). Qed.

(** one turn of the loop for one class of characters *)
Lemma greedy_step f k n p s c :
  star_loop (rmatch (Chr f)) true k (S n) (mkst p s) c =
  match s with
  | ch :: tl =>
    if f ch
    then match star_loop (rmatch (Chr f)) true k n (mkst (Some ch) tl) c with
         | Some x => Some x
         | None => k (mkst p s) c
         end
    else k (mkst p s) c
  | [] => k (mkst p s) c
  end.
Proof.
  destruct s as [|ch tl]; [done|]. cbn [star_loop]. simpl rmatch. cbn [rest].
  destruct (f ch); [|done].
  destruct (_ <? _) eqn:E; [done|].
  apply Nat.ltb_ge in E. simpl in E. lia.
Qed.

Lemma lazy_step f k n p s c :
  star_loop (rmatch (Chr f)) false k (S n) (mkst p s) c =
  match k (mkst p s) c with
  | Some x => Some x
  | None =>
    match s with
    | ch :: tl =>
      if f ch then star_loop (rmatch (Chr f)) false k n (mkst (Some ch) tl) c
      else None
    | [] => None
    end
  end.
Proof.
  cbn [star_loop]. destruct (k _ c); [done|].
  destruct s as [|ch tl]; [done|]. simpl rmatch. cbn [rest].
  destruct (f ch); [|done].
  destruct (_ <? _) eqn:E; [done|].
  apply Nat.ltb_ge in E. simpl in E. lia.
Qed.

(** the greedy run of one class of characters: when what follows the run
    fails after every shorter run, the result is what it gives after the
    whole run *)
Lemma greedy_whole f k c : ∀ u n p tl,
  Forall (λ x, f x = true) u →
  (∀ x, head tl = Some x → f x = false) →
  length (u ++ tl) ≤ n →
  (∀ j, j < length u →
        k (after (mkst p (u ++ tl)) (take j u) (drop j u ++ tl)) c = None) →
  star_loop (rmatch (Chr f)) true k n (mkst p (u ++ tl)) c =
  k (after (mkst p (u ++ tl)) u tl) c.
Proof.
  induction u as [|x u IH]; intros n p tl Hu Htl Hn Hk.
  - cbn [app]. rewrite after_nil. destruct n as [|n]; [done|].
    rewrite greedy_step.
    destruct tl as [|y tl]; [done|]. by rewrite (Htl y eq_refl).
  - inversion Hu as [|? ? Hx Hu']; subst. destruct n as [|n]; [simpl in Hn; lia|].
    cbn [app]. rewrite greedy_step, Hx.
    rewrite (IH n (Some x) tl Hu' Htl); [|simpl in Hn; lia|].
    + rewrite (after_step p _ (u ++ tl)).
      destruct (k _ c) eqn:Ek; [done|].
      apply (Hk 0). simpl. lia.
    + intros j Hj. rewrite <-(after_step p ((x :: u) ++ tl)).
      apply (Hk (S j)). simpl. lia.
Qed.

(** ... and when it succeeds after the whole run, that is the result *)
Lemma greedy_longest f k c x : ∀ u n p tl,
  Forall (λ y, f y = true) u →
  length (u ++ tl) ≤ n →
  k (after (mkst p (u ++ tl)) u tl) c = Some x →
  (∀ y, head tl = Some y → f y = false) →
  star_loop (rmatch (Chr f)) true k n (mkst p (u ++ tl)) c = Some x.
Proof.
  induction u as [|y u IH]; intros n p tl Hu Hn Hk Htl.
  - cbn [app] in *. rewrite after_nil in Hk. destruct n as [|n]; [done|].
    rewrite greedy_step.
    destruct tl as [|z tl]; [done|]. by rewrite (Htl z eq_refl).
  - inversion Hu as [|? ? Hy Hu']; subst. destruct n as [|n]; [simpl in Hn; lia|].
    cbn [app]. rewrite greedy_step, Hy.
    rewrite (IH n (Some y) tl Hu'); [done|simpl in Hn; lia| |done].
    by rewrite <-(after_step p ((y :: u) ++ tl)).
Qed.

(** the lazy run: the first place at which what follows succeeds *)
Lemma lazy_first f k c x : ∀ u n p tl,
  Forall (λ y, f y = true) u →
  length (u ++ tl) ≤ n →
  k (after (mkst p (u ++ tl)) u tl) c = Some x →
  (∀ j, j < length u →
        k (after (mkst p (u ++ tl)) (take j u) (drop j u ++ tl)) c = None) →
  star_loop (rmatch (Chr f)) false k n (mkst p (u ++ tl)) c = Some x.
Proof.
  induction u as [|y u IH]; intros n p tl Hu Hn Hk Hnone.
  - cbn [app] in *. rewrite after_nil in Hk. destruct n as [|n]; [done|].
    by rewrite lazy_step, Hk.
  - inversion Hu as [|? ? Hy Hu']; subst. destruct n as [|n]; [simpl in Hn; lia|].
    cbn [app]. rewrite lazy_step.
    pose proof (Hnone 0) as H0. cbn [take drop app length] in H0.
    rewrite after_nil in H0. rewrite H0 by lia. rewrite Hy.
    apply IH; [done|simpl in Hn; lia|by rewrite <-(after_step p ((y :: u) ++ tl))|].
    intros j Hj. rewrite <-(after_step p ((y :: u) ++ tl)).
    apply (Hnone (S j)). simpl. lia.
Qed.

End Computing.

Lemma search_shift re : ∀ s idx p,
  search re (S idx) p s = shifted <$> search re idx p s.
Proof.
  induction s as [|ch tl IH]; intros idx p; simpl.
  - by destruct (rmatch re found _ ∅) as [[σ' c']|].
  - destruct (rmatch re found _ ∅) as [[σ' c']|]; [done|]. apply IH.
Qed.

Lemma search_here re idx p s σ' c' :
  rmatch re found (mkst p s) ∅ = Some (σ', c') →
  search re idx p s = Some (mkmatch idx (consumed (mkst p s) σ') c' σ').
Proof. intros H. destruct s; simpl; by rewrite H. Qed.

Lemma search_next re idx p ch tl :
  rmatch re found (mkst p (ch :: tl)) ∅ = None →
  search re idx p (ch :: tl) = search re (S idx) (Some ch) tl.
Proof. intros H. simpl. by rewrite H. Qed.

Lemma replace_loop_unfold re rep n p s :
  replace_loop re rep (S n) p s =
  match search re 0 p s with
  | None => s
  | Some mt =>
    take (m_index mt) s ++ rep ++
    match m_text mt, rest (m_after mt) with
    | [], [] => []
    | [], ch :: tl => ch :: replace_loop re rep n (Some ch) tl
    | _ :: _, _ => replace_loop re rep n (prev (m_after mt)) (rest (m_after mt))
    end
  end.
Proof. reflexivity. Qed.

(** a replacement where the pattern matches a non-empty text here *)
Lemma replace_here re rep n p s σ' c' :
  rmatch re found (mkst p s) ∅ = Some (σ', c') →
  consumed (mkst p s) σ' ≠ [] →
  replace_loop re rep (S n) p s =
  rep ++ replace_loop re rep n (prev σ') (rest σ').
Proof.
  intros H Hne. rewrite replace_loop_unfold, (search_here _ _ _ _ _ _ H).
  cbn [m_index m_text m_after take app].
  by destruct (consumed _ _).
Qed.

(** a replacement where the pattern does not match here *)
Lemma replace_next re rep n p ch tl :
  rmatch re found (mkst p (ch :: tl)) ∅ = None →
  length tl < n →
  replace_loop re rep (S n) p (ch :: tl) =
  ch :: replace_loop re rep n (Some ch) tl.
Proof.
  intros H Hn. rewrite replace_loop_unfold, (search_next _ _ _ _ _ H), search_shift.
  destruct n as [|n]; [lia|]. rewrite (replace_loop_unfold _ _ n (Some ch) tl).
  destruct (search re 0 (Some ch) tl) as [mt|] eqn:E; [|done].
  cbn [fmap option_fmap option_map shifted m_index m_text m_after take app].
  f_equal. f_equal. f_equal.
  pose proof (search_after_length _ _ _ _ _ E) as Hlen.
  destruct (m_text mt) as [|x w] eqn:Et.
  - destruct (rest (m_after mt)) as [|y t] eqn:Er; [done|]. f_equal.
    apply replace_loop_bound; simpl in *; lia.
  - apply replace_loop_bound; simpl in *; lia.
Qed.

(** the longest run of characters of a class at the head of a text *)
Lemma longest_run (f : N → bool) s :
  ∃ u tl, s = u ++ tl ∧ Forall (λ x, f x = true) u ∧
          ∀ x, head tl = Some x → f x = false.
Proof.
  induction s as [|ch s (u & tl & -> & Hu & Htl)].
  - exists [], []. by split_and!.
  - destruct (f ch) eqn:E.
    + exists (ch :: u), tl. split_and!; [done|by constructor|done].
    + exists [], (ch :: u ++ tl). split_and!; [done|constructor|].
      by intros x [= <-].
Qed.

Lemma squash_run f rep : ∀ u tl,
  Forall (λ x, f x = true) u →
  (∀ x, head tl = Some x → f x = false) →
  squash f rep true (u ++ tl) = squash f rep false tl.
Proof.
  induction u as [|x u IH]; intros tl Hu Htl.
  - destruct tl as [|y tl]; [done|]. simpl. by rewrite (Htl y eq_refl).
  - inversion Hu; subst. simpl. rewrite H1. simpl. by apply IH.
Qed.

(** what the pattern [c+] gives at the head of a text *)
Lemma rmatch_plus_class f p u tl :
  u ≠ [] → Forall (λ x, f x = true) u →
  (∀ x, head tl = Some x → f x = false) →
  rmatch (plus (Chr f)) found (mkst p (u ++ tl)) ∅ =
  Some (after (mkst p (u ++ tl)) u tl, ∅).
Proof.
  destruct u as [|x u]; [done|]. intros _ Hu Htl. inversion Hu; subst.
  unfold plus. cbn [rmatch rest app]. rewrite H1.
  rewrite (greedy_longest f found ∅ (after (mkst (Some x) (u ++ tl)) u tl, ∅));
    [by rewrite (after_step p _ (u ++ tl))|done|done|done|done].
Qed.

Lemma rmatch_plus_class_none f p s :
  (∀ x, head s = Some x → f x = false) →
  rmatch (plus (Chr f)) found (mkst p s) ∅ = None.
Proof.
  intros H. unfold plus. cbn [rmatch rest]. destruct s as [|x s]; [done|].
  by rewrite (H x eq_refl).
Qed.

Lemma replace_class f rep : ∀ n p s,
  length s < n →
  replace_loop (plus (Chr f)) rep n p s = squash f rep false s.
Proof.
  induction n as [|n IH]; intros p s Hn; [lia|].
  destruct s as [|ch s]; [done|].
  destruct (f ch) eqn:E.
  - destruct (longest_run f s) as (u & tl & -> & Hu & Htl).
    rewrite (replace_here _ _ _ _ _ (after (mkst p ((ch :: u) ++ tl)) (ch :: u) tl) ∅).
    + cbn [squash]. rewrite E. cbn [rest]. rewrite squash_run by done.
      f_equal. apply IH. simpl in Hn. rewrite length_app in Hn. lia.
    + apply (rmatch_plus_class f p (ch :: u) tl); [done|by constructor|done].
    + rewrite consumed_after; done.
  - rewrite replace_next; [|by apply rmatch_plus_class_none; intros x [= <-]|simpl in Hn; lia].
    cbn [squash]. rewrite E. f_equal. apply IH. simpl in Hn. lia.
Qed.

Lemma replace_all_class f rep s :
  replace_all (plus (Chr f)) rep s = squash f rep false s.
Proof. apply replace_class. lia. Qed.

Lemma squash_spaces b s :
  Forall (λ c, is_space c = true → c = 32%N) (squash is_space (txt " ") b s).
Proof.
  revert b. induction s as [|ch s IH]; intros b; simpl; [constructor|].
  destruct (is_space ch) eqn:E.
  - destruct b; simpl; [apply IH|]. constructor; [done|apply IH].
  - constructor; [congruence|apply IH].
Qed.

Lemma squash_apart s : ∀ b,
  let t := squash is_space (txt " ") b s in
  (∀ i x y, t !! i = Some x → t !! S i = Some y →
            is_space x = true → is_space y = false) ∧
  (b = true → ∀ x, head t = Some x → is_space x = false).
Proof.
  induction s as [|ch s IH]; intros b; cbv zeta; simpl; [by split|].
  destruct (is_space ch) eqn:E.
  - destruct b; simpl.
    + destruct (IH true) as [H1 H2]. split; [exact H1|]. intros _. by apply H2.
    + destruct (IH true) as [H1 H2]. split; [|done].
      intros [|i] x y Hx Hy Hs; simpl in *.
      * apply H2; [done|]. rewrite head_lookup. exact Hy.
      * exact (H1 i x y Hx Hy Hs).
  - destruct (IH false) as [H1 _]. split.
    + intros [|i] x y Hx Hy Hs; simpl in *; [congruence|].
      exact (H1 i x y Hx Hy Hs).
    + intros _ x [= <-]. done.
Qed.

Lemma squash_letters b s :
  filter (λ c, is_space c = false) (squash is_space (txt " ") b s) =
  filter (λ c, is_space c = false) s.
Proof.
  revert b. induction s as [|ch s IH]; intros b; simpl; [done|].
  destruct (is_space ch) eqn:E.
  - rewrite (filter_cons_False _ ch) by congruence.
    destruct b; simpl; [apply IH|].
    rewrite filter_cons_False by done. apply IH.
  - rewrite !filter_cons_True by done. f_equal. apply IH.
Qed.

(** X10.  Replacing every run of white space by one blank leaves a text whose
    only white space is the blank, never two in a row, and whose other
    characters are those of the original text in their order. *)
Theorem spaces_are_collapsed s :
  let t := replace_all spacesRe (txt " ") s in
  single_spaced t ∧
  filter (λ c, is_space c = false) t = filter (λ c, is_space c = false) s.
Proof.
  cbv zeta. unfold spacesRe, ws. rewrite replace_all_class.
  split; [split|].
  - apply squash_spaces.
  - apply (squash_apart s false).
  - apply squash_letters.
Qed.

(** ** Checking where a field stands *)

(** [first_at] can be checked by looking at every earlier position *)
Lemma first_at_check w pre doc :
  forallb (λ i, negb (starts_with w (drop i doc))) (seq 0 (length pre)) = true →
  first_at w pre doc.
Proof.
  intros H a b ->. destruct (decide (length pre ≤ length a)) as [|Hlt]; [done|].
  exfalso. rewrite forallb_forall in H.
  specialize (H (length a)). rewrite drop_app_length in H.
  assert (Hs : starts_with w (w ++ b) = true) by (apply starts_with_app; by exists b).
  rewrite Hs in H. discriminate H. apply in_seq. lia.
Qed.

Lemma first_field_check (k : string) doc pre v post :
  doc = pre ++ (txt k ++ txt " " ++ dq) ++ v ++ dq ++ post →
  forallb (λ i, negb (starts_with (txt k ++ txt " " ++ dq) (drop i doc)))
          (seq 0 (length pre)) = true →
  first_field k doc pre v post.
Proof. intros E H. split; [exact E|by apply first_at_check]. Qed.

Lemma list_text_check v :
  forallb (λ x, negb (N.eqb x 34) && negb (is_line_terminator x)) v = true →
  list_text v.
Proof.
  intros H. rewrite forallb_forall in H. split.
  - intros Hin. apply list_elem_of_In, H in Hin. done.
  - apply Forall_forall. intros x Hx. apply list_elem_of_In, H in Hx.
    apply andb_true_iff in Hx as [_ Hx]. by apply negb_true_iff.
Qed.

Lemma not_elem_check (x : N) v :
  forallb (λ y, negb (N.eqb y x)) v = true → x ∉ v.
Proof.
  intros H Hin. rewrite forallb_forall in H.
  apply list_elem_of_In, H in Hin. by rewrite N.eqb_refl in Hin.
Qed.

(** ** What a replacement can leave *)

(** a replacement brings no character that is neither in the text nor in
    what replaces the matches *)
Lemma replace_subset re rep x : ∀ n p s,
  x ∈ replace_loop re rep n p s → x ∈ rep ∨ x ∈ s.
Proof.
  induction n as [|n IH]; intros p s; [by right|].
  rewrite replace_loop_unfold.
  destruct (search re 0 p s) as [mt|] eqn:E; [|by right].
  pose proof (search_sound _ _ _ _ _ E) as (pre & Es & _ & _).
  rewrite !elem_of_app. intros [H|[H|H]]; [right|by left|].
  - eapply elem_of_sublist; [exact H|apply sublist_take].
  - assert (Hrest : ∀ y, y ∈ rest (m_after mt) → y ∈ s).
    { intros y Hy. rewrite Es, !elem_of_app. auto. }
    destruct (m_text mt) as [|c w].
    + destruct (rest (m_after mt)) as [|ch tl] eqn:Er; [by apply elem_of_nil in H|].
      apply elem_of_cons in H as [->|H].
      * right. apply Hrest, list_elem_of_here.
      * apply IH in H as [?|H]; [by left|right].
        by apply Hrest, list_elem_of_further.
    + apply IH in H as [?|H]; [by left|right]. by apply Hrest.
Qed.

Lemma normalize_select_spaces raw :
  Forall (λ c, is_space c = true → c = 32%N) (normalize_select raw).
Proof.
  apply Forall_forall. intros x Hx. unfold normalize_select, replace_all in Hx.
  apply replace_subset in Hx as [Hx|Hx]; [by apply elem_of_nil in Hx|].
  revert x Hx. apply (proj1 (Forall_forall (λ c, is_space c = true → c = 32%N) _)).
  change (replace_loop spacesRe (txt " ") (S (length (trim raw))) None (trim raw))
    with (replace_all spacesRe (txt " ") (trim raw)).
  unfold spacesRe, ws. rewrite replace_all_class. apply squash_spaces.
Qed.

(** ** The sections of an extracted job *)

(** what the result of an extraction is made of *)
Lemma extraction_sections now doc flag r :
  extractDSXJobInfo now doc flag = Some r →
  filters r = [] ∧ specialized_stages r = [] ∧
  version (metadata r) = txt "1.2.0" ∧
  (((re_match stageListRe doc = None ∨ re_match stageNamesRe doc = None) ∧
    sources r = [] ∧ targets r = [] ∧ transforms r = [] ∧
    sql_scripts r = [] ∧ lookups r = [] ∧ flow r = []) ∨
   ∃ a b stm xs tgts datasets cim,
     re_match stageListRe doc = Some a ∧
     re_match stageNamesRe doc = Some b ∧
     build_stage_type_map doc = Some stm ∧
     exec_all xmlPropsRegex doc = Some xs ∧
     process_blocks stm doc xs = Some (sources r, tgts, sql_scripts r) ∧
     extract_lookups doc = Some (lookups r) ∧
     extract_dataset_targets doc = Some datasets ∧
     targets r = tgts ++ datasets ∧
     extract_transforms doc = Some (transforms r) ∧
     build_column_info doc = Some cim ∧
     extract_flow (build_stage_map (grp a 1) (grp b 1)) cim doc = Some (flow r)).
Proof.
  intros Hr.
  apply extractDSXJobInfo_inv in Hr as (params & r1 & _ & Hg & ->).
  destruct (add_token_count_fields flag r1)
    as (_&_&_&_&Es&Et&Ex&Eq&El&Ef&Ez&Ew&_&Ev).
  rewrite Es, Et, Ex, Eq, El, Ef, Ez, Ew, Ev. clear Es Et Ex Eq El Ef Ez Ew Ev.
  pose proof (gated_stages_header _ _ _ Hg) as (_&_&_&_&Hf&Hz&Hm).
  rewrite Hf, Hz, Hm. split_and!; [done..|].
  unfold gated_stages in Hg.
  destruct (re_match stageListRe doc) as [a|];
    [|inversion Hg; subst; left; split_and!; try done; by left].
  destruct (re_match stageNamesRe doc) as [b|];
    [|inversion Hg; subst; left; split_and!; try done; by right].
  apply extract_stages_inv in Hg
    as (stm&xs&srcs&tgts&scripts&lkps&ds&trfs&cim&flw
        &?&?&?&?&?&?&?&?&->).
  right. exists a, b, stm, xs, tgts, ds, cim. by split_and!.
Qed.

Lemma process_blocks_Forall stm doc (P : DSXSource → Prop)
    (Q : DSXTarget → Prop) (S : DSXSqlScript → Prop) :
  (∀ m srcs tgts qs, process_block stm doc m = Some (srcs, tgts, qs) →
     Forall P srcs ∧ Forall Q tgts ∧ Forall S qs) →
  ∀ xs srcs tgts qs, process_blocks stm doc xs = Some (srcs, tgts, qs) →
     Forall P srcs ∧ Forall Q tgts ∧ Forall S qs.
Proof.
  intros Hb. induction xs as [|m l IH]; intros srcs tgts qs H; simpl in H.
  - inversion H. split_and!; constructor.
  - destruct (process_block stm doc m) as [[[s t] q]|] eqn:E1; [|done].
    simpl in H.
    destruct (process_blocks stm doc l) as [[[ss ts] qq]|] eqn:E2; [|done].
    simpl in H. inversion H; subst; clear H.
    apply Hb in E1 as (? & ? & ?).
    destruct (IH _ _ _ eq_refl) as (? & ? & ?).
    split_and!; by apply Forall_app.
Qed.

(** a block seen as the calls it makes *)
Lemma process_block_inv stm doc m srcs tgts qs :
  process_block stm doc m = Some (srcs, tgts, qs) →
  (srcs = [] ∧ tgts = [] ∧ qs = []) ∨
  ∃ nm cm,
    re_match nameRe (preceding_record doc (m_index m)) = Some nm ∧
    grp nm 1 ≠ [] ∧
    re_match contextRe (grp m 1) = Some cm ∧
    (srcs = [] ∨ (parseInt (grp cm 1) = Some 1%Z ∧
                  source_of_block stm (grp nm 1) (grp m 1) = Some srcs)) ∧
    (tgts = [] ∨ (parseInt (grp cm 1) = Some 2%Z ∧
                  tgts = target_of_block stm (grp nm 1) (grp m 1))) ∧
    qs = scripts_of_block (grp nm 1) (grp m 1).
Proof.
  unfold process_block. intros H.
  destruct (re_match nameRe _) as [nm|] eqn:En;
    [|inversion H; subst; by left].
  destruct (re_match contextRe _) as [cm|] eqn:Ec;
    [|inversion H; subst; by left].
  destruct (if bool_decide (parseInt (grp cm 1) = Some 1%Z) then _ else _)
    as [ss|] eqn:Es; [|done].
  simpl in H. inversion H; subst; clear H. right.
  exists nm, cm. split_and!; [done|by eapply nameRe_group|done|..|done].
  - case_bool_decide; [right; by split|left; by inversion Es].
  - clear Es. case_bool_decide; [right; by split|by left].
Qed.

Lemma source_of_block_columns stm stageName xml srcs :
  source_of_block stm stageName xml = Some srcs →
  Forall (λ s, s_columns s = []) srcs.
Proof.
  unfold source_of_block. intros H.
  destruct (match _ with Some q => _ | None => _ end) as [w|]; [|done].
  simpl in H. inversion H; subst; clear H.
  destruct (_ || _); repeat constructor.
Qed.

Lemma write_mode_in_modes raw m : write_mode raw = Some m → m ∈ modes.
Proof.
  unfold write_mode. destruct (parseInt raw) as [i|]; [|done].
  destruct (_ && _); [|done]. apply list_elem_of_lookup_2.
Qed.

Lemma target_of_block_well_formed stm stageName xml :
  Forall (λ t, target_well_formed t ∧ ∀ tgt, t = OfTable tgt → t_columns tgt = [])
         (target_of_block stm stageName xml).
Proof.
  unfold target_of_block. cbn [t_table t_columns length].
  rewrite orb_false_r.
  destruct (cdata_of "TableName" false xml) as [[|x tb]|] eqn:E; cbn [truthy];
    [constructor| |constructor].
  constructor; [|constructor]. split.
  - cbn [target_well_formed t_table t_mode]. split; [by eexists|].
    intros m Hm. destruct (cdata_of "WriteMode" false xml) as [raw|]; [|done].
    by eapply write_mode_in_modes.
  - by intros tgt [= <-].
Qed.

Lemma exec_all_group_nonempty re i s ms :
  cap_set i re = true → cap_safe i re = true →
  exec_all re s = Some ms → Forall (λ mt, grp mt i ≠ []) ms.
Proof.
  intros H1 H2. apply exec_loop_caps.
  intros idx p s' mt H. by eapply search_grp_nonempty.
Qed.

Lemma lookup_of_match_well_formed lookupMatch lk :
  lookup_of_match lookupMatch = Some lk →
  Forall (λ l, lookup_well_formed l ∧ l_output l = []) lk.
Proof.
  unfold lookup_of_match. intros H.
  destruct (exec_all inputRegex _) as [ims|] eqn:Ei; [|done].
  destruct (exec_all keyRegex _) as [kms|] eqn:Ek; [|done].
  simpl in H. inversion H; subst; clear H.
  apply (exec_all_group_nonempty _ 2) in Ei; [|reflexivity..].
  apply (exec_all_group_nonempty _ 2) in Ek; [|reflexivity..].
  destruct (_ || _) eqn:Ekeep; [|constructor].
  constructor; [|constructor]. split; [|done].
  unfold lookup_well_formed. cbn [l_type l_inputs l_key_columns l_fail_mode] in *.
  split_and!.
  - done.
  - apply orb_true_iff in Ekeep as [E|E]; apply Nat.ltb_lt in E;
      [left|right]; intros E'; rewrite E' in E; simpl in E; lia.
  - destruct (re_match lookupFailRe _) as [cm|] eqn:Ec; [|done].
    apply re_match_grp_nonempty with (i := 1) in Ec; [|reflexivity..].
    destruct ims; [done|]. split; [done|]. by intros _.
  - destruct (re_match lookupFailRe _); [|constructor].
    by apply Forall_fmap.
  - by apply Forall_fmap.
Qed.

Lemma collect_Forall_all {A B} (f : A → option (list B)) (Q : B → Prop) :
  (∀ a bs, f a = Some bs → Forall Q bs) →
  ∀ l bs, collect f l = Some bs → Forall Q bs.
Proof.
  intros Hf l bs. apply (collect_Forall f (λ _, True) Q); [by eauto|].
  by apply Forall_forall.
Qed.

Lemma dataset_target_well_formed doc datasetMatch :
  grp datasetMatch 1 ≠ [] →
  target_well_formed (dataset_target doc datasetMatch).
Proof.
  intros Hp. unfold dataset_target.
  cbn [target_well_formed d_type d_dataset d_mode]. split_and!; [done|..].
  - destruct (pop _) as [[|x n]|]; done.
  - intros m. destruct (re_match datasetModeRe _) as [mm|] eqn:E; [|done].
    intros [= <-]. by apply re_match_grp_nonempty with (i := 1) in E.
Qed.

(** lifting to the result *)
Lemma block_results now doc flag r (P : DSXSource → Prop)
    (Q : DSXTarget → Prop) (S : DSXSqlScript → Prop) :
  (∀ stm stageName xml srcs, stageName ≠ [] →
     source_of_block stm stageName xml = Some srcs → Forall P srcs) →
  (∀ stm stageName xml, stageName ≠ [] →
     Forall Q (target_of_block stm stageName xml)) →
  (∀ datasetMatch, grp datasetMatch 1 ≠ [] → Q (dataset_target doc datasetMatch)) →
  (∀ stageName xml, stageName ≠ [] → Forall S (scripts_of_block stageName xml)) →
  extractDSXJobInfo now doc flag = Some r →
  Forall P (sources r) ∧ Forall Q (targets r) ∧ Forall S (sql_scripts r).
Proof.
  intros HP HQ HD HS Hr.
  apply extraction_sections in Hr as (_ & _ & _ & [H|H]).
  { destruct H as (_ & -> & -> & _ & -> & _). split_and!; constructor. }
  destruct H as (a & b & stm & xs & tgts & ds & cim & _ & _ & _ & _ & Hb & _ & Hd & -> & _).
  apply (process_blocks_Forall stm doc P Q S) in Hb as (? & ? & ?).
  - split_and!; [done| |done]. apply Forall_app. split; [done|].
    unfold extract_dataset_targets in Hd.
    destruct (exec_all datasetRegex doc) as [ms|] eqn:Ems; [|done].
    inversion Hd; subst. apply Forall_fmap.
    apply (exec_all_group_nonempty _ 1) in Ems; [|reflexivity..].
    eapply Forall_impl; [exact Ems|]. intros m. apply HD.
  - intros m srcs tgts' qs [(-> & -> & ->)|H]%process_block_inv;
      [split_and!; constructor|].
    destruct H as (nm & cm & _ & Hn & _ & Hs & Ht & ->).
    split_and!.
    + destruct Hs as [-> | [_ Hs]]; [constructor|by eapply HP].
    + destruct Ht as [-> | [_ ->]]; [constructor|by apply HQ].
    + by apply HS.
Qed.

(** X11.  Every target of an extracted job is well formed: a table target has
    a non-empty table and, if any, one of the four write modes; a dataset
    target has the type [dataset], a non-empty dataset name and, if any, a
    non-empty mode. *)
Theorem targets_are_well_formed now doc flag r :
  extractDSXJobInfo now doc flag = Some r →
  Forall target_well_formed (targets r).
Proof.
  intros Hr.
  apply (block_results now doc flag r (λ _, True) target_well_formed (λ _, True))
    in Hr as (_ & ? & _); [done|..].
  - intros. by apply Forall_forall.
  - intros stm n xml _. eapply Forall_impl; [apply target_of_block_well_formed|].
    by intros t [? _].
  - intros m. apply dataset_target_well_formed.
  - intros. by apply Forall_forall.
Qed.

Lemma targets_are_well_formed_witness :
  ∃ r, extractDSXJobInfo [] doc_customer_load false = Some r ∧
       length (targets r) = 2 ∧ Forall target_well_formed (targets r).
Proof.
  destruct (extractDSXJobInfo [] doc_customer_load false) as [r|] eqn:E;
    [|vm_compute in E; discriminate E].
  exists r. split; [reflexivity|]. split.
  - vm_compute in E. injection E as <-. reflexivity.
  - exact (targets_are_well_formed [] doc_customer_load false r E).
Defined.

Lemma lookups_Forall now doc flag r (Q : DSXLookup → Prop) :
  (∀ lookupMatch lk, lookup_of_match lookupMatch = Some lk → Forall Q lk) →
  extractDSXJobInfo now doc flag = Some r → Forall Q (lookups r).
Proof.
  intros HQ Hr.
  apply extraction_sections in Hr as (_ & _ & _ & [H|H]).
  { destruct H as (_ & _ & _ & _ & _ & -> & _). constructor. }
  destruct H as (a & b & stm & xs & tgts & ds & cim & _ & _ & _ & _ & _ & Hl & _).
  unfold extract_lookups in Hl.
  destruct (exec_all lookupRegex doc) as [ms|]; [|done]. simpl in Hl.
  by eapply collect_Forall_all.
Qed.

(** X12.  Every lookup of an extracted job has the type [Lookup], an input or
    a key column, only non-empty input and key-column names, and a non-empty
    fail mode exactly when it has inputs. *)
Theorem lookups_are_well_formed now doc flag r :
  extractDSXJobInfo now doc flag = Some r →
  Forall lookup_well_formed (lookups r).
Proof.
  apply lookups_Forall. intros m lk H%lookup_of_match_well_formed.
  eapply Forall_impl; [exact H|]. by intros l [? _].
Qed.

Lemma lookups_are_well_formed_witness :
  ∃ r, extractDSXJobInfo [] doc_lookup false = Some r ∧
       lookups r ≠ [] ∧ Forall lookup_well_formed (lookups r).
Proof.
  destruct (extractDSXJobInfo [] doc_lookup false) as [r|] eqn:E;
    [|vm_compute in E; discriminate E].
  exists r. split; [reflexivity|]. split.
  - vm_compute in E. injection E as <-. discriminate.
  - exact (lookups_are_well_formed [] doc_lookup false r E).
Defined.

(** X13.  Whatever the document, the extraction leaves [filters] and
    [specialized_stages] empty, the columns of every source and of every table
    target empty, and the output of every lookup empty. *)
Theorem fields_never_filled now doc flag r :
  extractDSXJobInfo now doc flag = Some r → never_filled r.
Proof.
  intros Hr. unfold never_filled.
  pose proof (extraction_sections _ _ _ _ Hr) as (-> & -> & _ & _).
  split_and!; [done|done|..].
  - apply (block_results now doc flag r (λ s, s_columns s = []) (λ _, True) (λ _, True))
      in Hr as (? & _); [done|..].
    + intros stm n xml srcs _. apply source_of_block_columns.
    + intros. by apply Forall_forall.
    + done.
    + intros. by apply Forall_forall.
  - apply (block_results now doc flag r (λ _, True)
             (λ t, ∀ tgt, t = OfTable tgt → t_columns tgt = []) (λ _, True))
      in Hr as (_ & ? & _); [done|..].
    + intros. by apply Forall_forall.
    + intros stm n xml _. eapply Forall_impl; [apply target_of_block_well_formed|].
      by intros t [_ ?].
    + intros m _ tgt. unfold dataset_target. discriminate.
    + intros. by apply Forall_forall.
  - eapply lookups_Forall; [|exact Hr]. intros m lk H%lookup_of_match_well_formed.
    eapply Forall_impl; [exact H|]. by intros l [_ ?].
Qed.

Lemma fields_never_filled_witness :
  ∃ r, extractDSXJobInfo [] doc_lookup false = Some r ∧ never_filled r.
Proof.
  destruct (extractDSXJobInfo [] doc_lookup false) as [r|] eqn:E;
    [|vm_compute in E; discriminate E].
  exists r. split; [reflexivity|].
  exact (fields_never_filled [] doc_lookup false r E).
Defined.

(** ** Validating what was extracted *)

Lemma issue_messages data :
  (txt "Missing job name" ∈ issues (validateExtractedData data) ↔ name data = []) ∧
  (txt "Missing job type" ∈ issues (validateExtractedData data) ↔
   type data = VStr []) ∧
  (txt "No sources or targets found - possible parsing issue"
     ∈ issues (validateExtractedData data) ↔
   sources data = [] ∧ targets data = []).
Proof.
  unfold validateExtractedData. cbn [issues].
  set (d := if 0 <? length (flow data) then _ else []).
  assert (Hd : ∀ m, m ∈ d → ∃ tl, m = txt "Stage " ++ tl).
  { subst d. destruct (0 <? _); [|by intros ? ?%elem_of_nil].
    intros m (stage & -> & _)%list_elem_of_fmap. apply disconnected_message_head. }
  clearbody d.
  assert (Hs : ∀ m, m ∈ d → m ≠ txt "Missing job name" ∧ m ≠ txt "Missing job type" ∧
             m ≠ txt "No sources or targets found - possible parsing issue").
  { intros m (tl' & ->)%Hd. split_and!; discriminate. }
  rewrite !elem_of_app.
  destruct (name data) as [|x nm]; cbn [nonempty];
  destruct (bool_decide_reflect (type data = VStr [])) as [Ht|Ht];
  destruct (sources data) as [|s ss]; destruct (targets data) as [|t ts];
    cbn [length Nat.eqb andb];
    rewrite ?elem_of_nil, ?list_elem_of_singleton;
    (split_and!; (split; [intros H|intros H]));
    try done; try tauto; try (by destruct H);
    repeat match goal with
    | H : _ ∨ _ |- _ => destruct H as [H|H]
    | H : _ ∈ d |- _ => apply Hs in H as (? & ? & ?)
    end; try done; try discriminate; auto.
Qed.

Lemma job_type_label_not_empty code : job_type_label code ≠ VStr [].
Proof.
  unfold job_type_label, or_value.
  destruct (obj_get jobTypeMap code) as [[[|x s]|k]|]; try done;
    change (txt "Unknown (") with (85%N :: txt "nknown ("); done.
Qed.

(** X14.  Validating the job an extraction returns: [Missing job name] is
    reported exactly when the document has no [Identifier] field, [Missing job
    type] exactly when it has no [JobType] field; and when one of the two
    stage lists is missing the job is invalid, with the issue that no sources
    or targets were found. *)
Theorem issues_of_an_extraction now doc flag r :
  extractDSXJobInfo now doc flag = Some r →
  (txt "Missing job name" ∈ issues (validateExtractedData r) ↔
   re_match jobNameRe doc = None) ∧
  (txt "Missing job type" ∈ issues (validateExtractedData r) ↔
   re_match jobTypeRe doc = None) ∧
  (re_match stageListRe doc = None ∨ re_match stageNamesRe doc = None →
   txt "No sources or targets found - possible parsing issue"
     ∈ issues (validateExtractedData r) ∧
   valid (validateExtractedData r) = false).
Proof.
  intros Hr. destruct (issue_messages r) as (H1 & H2 & H3).
  rewrite H1, H2, H3.
  pose proof Hr as (params & r1 & _ & Hg & ->)%extractDSXJobInfo_inv.
  destruct (add_token_count_fields flag r1) as (En&_&Et&_&Es&Etg&_).
  pose proof (gated_stages_header _ _ _ Hg) as (Hn&_&Hty&_).
  split_and!.
  - rewrite En, Hn. cbn [name initial_result]. unfold extract_name.
    destruct (re_match jobNameRe doc) as [m|] eqn:E; [|done].
    apply re_match_grp_nonempty with (i := 1) in E; [|reflexivity..]. 
    split; [done|discriminate].
  - rewrite Et, Hty. cbn [type initial_result]. unfold extract_type.
    destruct (re_match jobTypeRe doc) as [m|] eqn:E; [|done].
    split; [|discriminate]. intros H. by apply job_type_label_not_empty in H.
  - intros Habs. rewrite (gated_stages_absent _ _ Habs) in Hg.
    injection Hg as <-. 
    assert (Hst : sources (add_token_count flag (initial_result now doc params)) = [] ∧
                  targets (add_token_count flag (initial_result now doc params)) = [])
      by (by rewrite Es, Etg).
    split; [done|].
    destruct (valid _) eqn:Ev; [|done].
    apply issues_empty_valid in Ev. apply H3 in Hst. rewrite Ev in Hst.
    by apply elem_of_nil in Hst.
Qed.

Lemma issues_of_an_extraction_witness :
  ∃ r, extractDSXJobInfo [] doc_header_only false = Some r ∧
       valid (validateExtractedData r) = false.
Proof.
  destruct (extractDSXJobInfo [] doc_header_only false) as [r|] eqn:E;
    [|vm_compute in E; discriminate E].
  exists r. split; [reflexivity|].
  destruct (issues_of_an_extraction [] doc_header_only false r E) as (_ & _ & H).
  apply H. left. vm_compute. reflexivity.
Defined.

(** ** Columns and links of the flow *)

Lemma set_derivation_names (P : str → Prop) colName derivation columns :
  Forall (λ c, P (c_name c)) columns →
  Forall (λ c, P (c_name c)) (set_derivation colName derivation columns).
Proof.
  induction 1 as [|c l Hc Hl IH]; simpl; [constructor|].
  destruct (str_eqb _ _); by constructor.
Qed.

Lemma set_derivation_length colName derivation columns :
  length (set_derivation colName derivation columns) = length columns.
Proof.
  induction columns as [|c l IH]; simpl; [done|].
  destruct (str_eqb _ _); simpl; by rewrite ?IH.
Qed.

Lemma foldl_derive_names (P : str → Prop) ms : ∀ columns,
  Forall (λ c, P (c_name c)) columns →
  Forall (λ c, P (c_name c)) (foldl derive columns ms).
Proof.
  induction ms as [|m ms IH]; intros columns H; simpl; [done|].
  apply IH. by apply set_derivation_names.
Qed.

Lemma foldl_derive_length ms : ∀ columns,
  length (foldl derive columns ms) = length columns.
Proof.
  induction ms as [|m ms IH]; intros columns; simpl; [done|].
  rewrite IH. apply set_derivation_length.
Qed.

Lemma columns_of_match_well_formed outputMatch linkName columns :
  columns_of_match outputMatch = Some (linkName, columns) →
  Forall column_well_formed columns.
Proof.
  unfold columns_of_match. intros H.
  destruct (exec_all colRegex _) as [cms|] eqn:Ec; [|done].
  destruct (exec_all derivRegex _) as [dms|]; [|done].
  simpl in H. inversion H; subst; clear H.
  apply (foldl_derive_names (λ n, n ≠ [] ∧ is_system_column n = false)).
  apply (exec_all_group_nonempty _ 1) in Ec; [|reflexivity..].
  induction Ec as [|m l Hm Hl IH]; simpl; [constructor|].
  unfold column_of_match at 1.
  destruct (is_system_column (grp m 1)) eqn:E; [done|].
  constructor; [done|exact IH].
Qed.

Lemma traverse_Forall {A B} (f : A → option B) (Q : B → Prop) :
  (∀ a b, f a = Some b → Q b) →
  ∀ l bs, traverse f l = Some bs → Forall Q bs.
Proof.
  intros Hf. induction l as [|a l IH]; intros bs H; simpl in H.
  - inversion H. constructor.
  - destruct (f a) as [x|] eqn:E1; [|done]. simpl in H.
    destruct (traverse f l) as [xs|] eqn:E2; [|done].
    simpl in H. inversion H; subst. constructor; eauto.
Qed.

Lemma flow_loop_Forall sm cim sp ts (P : DSXFlow → Prop) :
  (∀ i linkName f, flow_entry sm cim sp ts i linkName = Some f → P f) →
  ∀ linkNames i0, Forall P (flow_loop sm cim sp ts i0 linkNames).
Proof.
  intros HP. induction linkNames as [|n l IH]; intros i0; simpl; [constructor|].
  destruct (flow_entry _ _ _ _ _ _) eqn:E; [|apply IH].
  constructor; [by eapply HP|apply IH].
Qed.

Lemma flow_entry_link sm cim sp ts i linkName f :
  flow_entry sm cim sp ts i linkName = Some f →
  f_link f = linkName ∧ f_columns f = columns_for cim linkName.
Proof.
  unfold flow_entry. destruct (source_id _ _); [|done].
  destruct (target_id _ _); [|done]. destruct (_ && _); [|done].
  by intros [= <-].
Qed.

Lemma flow_Forall now doc flag r (P : DSXFlow → Prop) :
  (∀ sm cim sp ts i linkName f,
     build_column_info doc = Some cim →
     flow_entry sm cim sp ts i linkName = Some f → P f) →
  (∀ sm linkMatch, re_match linkNamesRe doc = None → P (link_of_match sm linkMatch)) →
  extractDSXJobInfo now doc flag = Some r → Forall P (flow r).
Proof.
  intros HP HL Hr.
  apply extraction_sections in Hr as (_ & _ & _ & [H|H]).
  { destruct H as (_ & _ & _ & _ & _ & _ & ->). constructor. }
  destruct H as (a & b & stm & xs & tgts & ds & cim & _ & _ & _ & _ & _ & _ & _ & _ & _ & Hc & Hf).
  unfold extract_flow in Hf.
  destruct (re_match linkNamesRe doc) as [lm|] eqn:El.
  - inversion Hf; subst; clear Hf. unfold assemble_flow.
    destruct (_ <$> re_match sourcePinsRe doc); [|constructor].
    destruct (_ <$> re_match targetStagesRe doc); [|constructor].
    apply flow_loop_Forall. intros i n f. by apply HP.
  - destruct (exec_all linkRegex doc) as [ms|]; [|done].
    inversion Hf; subst. apply Forall_fmap, Forall_forall. intros m _. by apply HL.
Qed.

Lemma register_columns_well_formed entries : ∀ cim,
  map_Forall (λ _ columns, columns ≠ [] ∧ Forall column_well_formed columns) cim →
  Forall (λ e, Forall column_well_formed (snd e)) entries →
  map_Forall (λ _ columns, columns ≠ [] ∧ Forall column_well_formed columns)
             (foldl register_columns cim entries).
Proof.
  induction entries as [|[linkName columns] l IH]; intros cim Hc He; simpl; [done|].
  inversion He; subst. apply IH; [|done].
  destruct (0 <? length columns) eqn:E; [|done].
  apply map_Forall_insert_2; [|done].
  apply Nat.ltb_lt in E. split; [|done].
  intros ->. simpl in E. lia.
Qed.

Lemma build_column_info_well_formed doc cim :
  build_column_info doc = Some cim →
  map_Forall (λ _ columns, columns ≠ [] ∧ Forall column_well_formed columns) cim.
Proof.
  unfold build_column_info. intros H.
  destruct (exec_all outputRegex doc) as [oms|]; [|done]. simpl in H.
  destruct (traverse columns_of_match oms) as [entries|] eqn:Et; [|done].
  simpl in H. inversion H; subst; clear H.
  apply register_columns_well_formed; [apply map_Forall_empty|].
  eapply traverse_Forall; [|exact Et].
  intros m [n cs] Hm. simpl. by eapply columns_of_match_well_formed.
Qed.

Lemma array_index_spec key n i :
  array_index key n = Some i → key = decimal i ∧ i < n.
Proof.
  unfold array_index. intros [Hin Hk]%find_some.
  apply in_seq in Hin. unfold str_eqb in Hk.
  apply bool_decide_eq_true in Hk. split; [done|lia].
Qed.

(** what a read of the column table gives *)
Lemma columns_for_well_formed cim linkName from to :
  map_Forall (λ _ columns, columns ≠ [] ∧ Forall column_well_formed columns) cim →
  flow_columns_well_formed (cim !! txt "__proto__")
    {| f_link := linkName; f_from := from; f_to := to;
       f_columns := columns_for cim linkName |}.
Proof.
  intros Hc. unfold flow_columns_well_formed, columns_for. cbn [f_columns f_link].
  destruct (cim !! linkName) as [cs|] eqn:E; [exact (Hc _ _ E)|].
  destruct (cim !! txt "__proto__") as [a|] eqn:Ea; cbn [mbind option_bind].
  - destruct (Hc _ _ Ea) as [Hne Ha]. unfold array_member.
    destruct (str_eqb linkName (txt "length")) eqn:El.
    + unfold str_eqb in El. apply bool_decide_eq_true in El.
      split; [done|]. exists a. split_and!; [done|done|].
      destruct a; [done|simpl; lia].
    + destruct (array_index linkName (length a)) as [i|] eqn:Ei; cbn [mbind option_bind].
      * apply array_index_spec in Ei as [-> Hi].
        destruct (a !! i) as [c|] eqn:Ec.
        -- exists a, i. split_and!; [done..|].
           by eapply (proj1 (Forall_forall _ _) Ha), list_elem_of_lookup_2.
        -- by apply lookup_ge_None in Ec; lia.
      * destruct (array_inherited linkName) eqn:Ai; [by split; [|right]|].
        destruct (inherited linkName) eqn:Oi; [by split; [|left]|done].
  - destruct (inherited linkName) eqn:Oi; [by split; [|left]|done].
Qed.



Lemma flow_loop_sublist sm cim sp ts : ∀ linkNames i0,
  map f_link (flow_loop sm cim sp ts i0 linkNames) `sublist_of` linkNames.
Proof.
  induction linkNames as [|n l IH]; intros i0; simpl; [constructor|].
  destruct (flow_entry _ _ _ _ _ _) eqn:E.
  - apply flow_entry_link in E as [<- _]. simpl. apply sublist_skip, IH.
  - apply sublist_cons, IH.
Qed.

Lemma link_names_not_blank linkNamesText n :
  n ∈ link_names linkNamesText →
  n ∈ split (txt "|") linkNamesText ∧ trim n ≠ [].
Proof.
  unfold link_names. intros [H ?]%list_elem_of_filter. split; [done|].
  by destruct (trim n).
Qed.

(** X16.  With a [LinkNames] list in the document, the links of the flow are a
    subsequence of the names of that list, none of them is blank, and the flow
    is empty when the source-pin list or the target-stage list is missing.
    Without one, every connection is named after its two ends and carries no
    columns. *)
Theorem flow_links now doc flag r :
  extractDSXJobInfo now doc flag = Some r →
  match re_match linkNamesRe doc with
  | Some linkNamesMatch =>
    map f_link (flow r) `sublist_of` link_names (grp linkNamesMatch 1) ∧
    Forall (λ f, trim (f_link f) ≠ []) (flow r) ∧
    (re_match sourcePinsRe doc = None ∨ re_match targetStagesRe doc = None →
     flow r = [])
  | None =>
    Forall (λ f, f_link f = value_to_string (f_from f) ++ txt "_to_" ++
                            value_to_string (f_to f) ∧
                 f_columns f = None) (flow r)
  end.
Proof.
  intros Hr.
  apply extraction_sections in Hr as (_ & _ & _ & [H|H]).
  { destruct H as (_ & _ & _ & _ & _ & _ & ->).
    destruct (re_match linkNamesRe doc); [|constructor].
    split_and!; [apply sublist_nil_l|constructor|done]. }
  destruct H as (a & b & stm & xs & tgts & ds & cim & _ & _ & _ & _ & _ & _ & _ & _ & _ & Hc & Hf).
  unfold extract_flow in Hf.
  destruct (re_match linkNamesRe doc) as [lm|] eqn:El.
  - inversion Hf; subst; clear Hf. unfold assemble_flow.
    assert (Hsub : ∀ sp ts,
      map f_link (flow_loop (build_stage_map (grp a 1) (grp b 1)) cim sp ts 0
                    (link_names (grp lm 1))) `sublist_of` link_names (grp lm 1))
      by (intros; apply flow_loop_sublist).
    destruct (re_match sourcePinsRe doc) as [sp|]; cbn [fmap option_fmap option_map];
      [|split_and!; [apply sublist_nil_l|constructor|done]].
    destruct (re_match targetStagesRe doc) as [ts|]; cbn [fmap option_fmap option_map];
      [|split_and!; [apply sublist_nil_l|constructor|done]].
    split_and!; [apply Hsub| |by intros [?|?]].
    apply Forall_forall. intros f Hin.
    assert (Hl : f_link f ∈ link_names (grp lm 1)).
    { eapply elem_of_sublist; [|apply Hsub]. apply list_elem_of_fmap. by exists f. }
    by apply link_names_not_blank in Hl as [_ ?].
  - destruct (exec_all linkRegex doc) as [ms|]; [|done].
    inversion Hf; subst. apply Forall_fmap, Forall_forall. by intros m _.
Qed.

Lemma flow_links_witness :
  ∃ r, extractDSXJobInfo [] doc_columns false = Some r ∧
       flow r ≠ [] ∧ Forall (λ f, trim (f_link f) ≠ []) (flow r).
Proof.
  destruct (extractDSXJobInfo [] doc_columns false) as [r|] eqn:E;
    [|vm_compute in E; discriminate E].
  exists r. split; [reflexivity|]. split.
  - vm_compute in E. injection E as <-. discriminate.
  - pose proof (flow_links [] doc_columns false r E) as H.
    destruct (re_match linkNamesRe doc_columns) as [m|] eqn:El;
      [|vm_compute in El; discriminate El].
    exact (proj1 (proj2 H)).
Defined.

(** ** Transforms *)

Lemma last_rev {A} (l : list A) : last (rev l) = head l.
Proof. destruct l as [|x l]; [done|]. simpl. by rewrite last_snoc. Qed.

Lemma trim_last s c : last (trim s) = Some c → is_space c = false.
Proof. unfold trim, trim_end. rewrite last_rev. apply trim_start_head. Qed.

Lemma trim_trimmed s : trimmed (trim s).
Proof. split; intros c; [apply trim_head|apply trim_last]. Qed.

Lemma trim_start_keeps x s :
  x ∈ s → is_space x = false → x ∈ trim_start s.
Proof.
  induction s as [|y s IH]; simpl; [done|].
  intros [->|H]%elem_of_cons Hx.
  - rewrite Hx. apply list_elem_of_here.
  - destruct (is_space y); [by apply IH|by apply list_elem_of_further].
Qed.

Lemma trim_keeps x s : x ∈ s → is_space x = false → x ∈ trim s.
Proof.
  intros H Hx. unfold trim, trim_end.
  apply elem_of_rev, trim_start_keeps; [|done].
  by apply elem_of_rev, trim_start_keeps.
Qed.

Lemma includes_singleton x s : includes [x] s = true → x ∈ s.
Proof.
  induction s as [|y s IH]; simpl; [done|].
  rewrite andb_true_r. destruct (N.eqb_spec x y) as [->|]; simpl.
  - intros _. apply list_elem_of_here.
  - intros H. by apply list_elem_of_further, IH.
Qed.

Lemma squash_keeps x s : ∀ b,
  x ∈ s → is_space x = false → x ∈ squash is_space (txt " ") b s.
Proof.
  induction s as [|y s IH]; intros b; [done|].
  intros [->|H]%elem_of_cons Hx; simpl.
  - rewrite Hx. apply list_elem_of_here.
  - destruct (is_space y).
    + apply elem_of_app. right. by apply IH.
    + by apply list_elem_of_further, IH.
Qed.

Lemma squash_head s c :
  head s = Some c → is_space c = false →
  head (squash is_space (txt " ") false s) = Some c.
Proof. destruct s as [|x s]; [done|]. intros [= ->] H. simpl. by rewrite H. Qed.

Lemma squash_snoc s c : ∀ b,
  is_space c = false →
  squash is_space (txt " ") b (s ++ [c]) = squash is_space (txt " ") b s ++ [c].
Proof.
  induction s as [|x s IH]; intros b Hc; simpl.
  - by rewrite Hc.
  - destruct (is_space x).
    + rewrite IH by done. by rewrite (assoc_L (++)).
    + by rewrite IH.
Qed.

Lemma squash_trimmed s :
  trimmed s → trimmed (squash is_space (txt " ") false s).
Proof.
  intros [Hh Hl]. split.
  - destruct s as [|x s]; [done|]. pose proof (Hh x eq_refl) as Hx.
    intros c. simpl. rewrite Hx. by intros [= <-].
  - destruct (last s) as [x|] eqn:E.
    + pose proof (Hl x eq_refl) as Hx.
      apply last_Some in E as (s' & ->).
      rewrite squash_snoc by done. intros c. rewrite last_snoc. by intros [= <-].
    + apply last_None in E as ->. done.
Qed.

Lemma squash_starts_with w : ∀ s,
  Forall (λ x, is_space x = false) w →
  starts_with w (squash is_space (txt " ") false s) = starts_with w s.
Proof.
  induction w as [|x w IH]; intros s Hw; [done|].
  inversion Hw as [|? ? Hx Hw']; subst.
  destruct s as [|c s]; [done|]. cbn [squash].
  destruct (is_space c) eqn:Ec.
  - change (txt " ") with [32%N]. cbn [app starts_with].
    destruct (N.eqb_spec x 32) as [->|]; [vm_compute in Hx; discriminate Hx|].
    destruct (N.eqb_spec x c) as [->|]; [congruence|done].
  - cbn [starts_with]. by rewrite IH.
Qed.

Lemma rule_of_well_formed line rule :
  rule_of line = Some rule → rule_well_formed rule.
Proof.
  unfold rule_of. destruct (is_rule line) eqn:Hr; [|done].
  destruct (trim line) as [|c tl] eqn:Et; [done|]. cbn [nonempty].
  intros [= <-]. unfold spacesRe, ws. rewrite replace_all_class. rewrite <-Et.
  unfold is_rule in Hr. rewrite !andb_true_iff, !negb_true_iff in Hr.
  destruct Hr as ((((((((((Heq & Hc) & Hi) & _) & _) & _) & _) & _) & _) & _) & _).
  pose proof (trim_trimmed line) as Htr.
  unfold rule_well_formed. split_and!.
  - pose proof (squash_head (trim line) c) as H. rewrite Et in *.
    destruct Htr as [Hh _]. specialize (H eq_refl (Hh c eq_refl)).
    intros E. by rewrite E in H.
  - apply squash_keeps; [|done]. apply trim_keeps; [|done].
    by apply includes_singleton.
  - by apply squash_trimmed.
  - split; [apply squash_spaces|apply (squash_apart _ false)].
  - rewrite squash_starts_with; [done|]. by repeat constructor.
  - rewrite squash_starts_with; [done|]. by repeat constructor.
Qed.

Lemma filter_map_elem {A B} (f : A → option B) l b :
  b ∈ filter_map f l → ∃ a, a ∈ l ∧ f a = Some b.
Proof.
  induction l as [|a l IH]; simpl; [by intros ?%elem_of_nil|].
  destruct (f a) as [b'|] eqn:E.
  - intros [->|H]%elem_of_cons.
    + exists a. split; [apply list_elem_of_here|done].
    + destruct (IH H) as (a' & ? & ?). exists a'. split; [by apply list_elem_of_further|done].
  - intros H. destruct (IH H) as (a' & ? & ?). exists a'.
    split; [by apply list_elem_of_further|done].
Qed.

Lemma transform_of_match_well_formed doc trxMatch :
  Forall transform_well_formed (transform_of_match doc trxMatch).
Proof.
  unfold transform_of_match.
  destruct (0 <? _) eqn:El; [|constructor]. constructor; [|constructor].
  unfold transform_well_formed.
  cbn [x_rules x_input x_output x_reject_conditions]. split_and!.
  - apply Nat.ltb_lt in El. intros E. rewrite E in El. simpl in El. lia.
  - apply Forall_forall. intros rule (line & _ & H)%filter_map_elem.
    by eapply rule_of_well_formed.
  - intros v. destruct (re_match (declRe "inputname") _) as [m|] eqn:E; [|done].
    intros [= <-]. by apply re_match_grp_nonempty with (i := 1) in E.
  - intros v. destruct (re_match (declRe "outputname") _) as [m|] eqn:E; [|done].
    intros [= <-]. by apply re_match_grp_nonempty with (i := 1) in E.
  - intros l. destruct (match_all rejectRe _) as [ms|]; [|done].
    intros [= <-]. apply Forall_forall.
    intros c [Hc (t & -> & _)%list_elem_of_fmap]%list_elem_of_filter.
    split; [by destruct (reject_condition t)|].
    unfold reject_condition. destruct (re_match conditionRe t); [apply trim_trimmed|done].
Qed.

(** X17.  Every transform of an extracted job has at least one rule; each rule
    is non-empty, contains an equals sign, is trimmed, has single blanks as
    its only white space, and starts neither with [//] nor with [int]; input
    and output names are non-empty when present; reject conditions are
    non-empty and trimmed. *)
Theorem transforms_are_well_formed now doc flag r :
  extractDSXJobInfo now doc flag = Some r →
  Forall transform_well_formed (transforms r).
Proof.
  intros Hr.
  apply extraction_sections in Hr as (_ & _ & _ & [H|H]).
  { destruct H as (_ & _ & _ & -> & _). constructor. }
  destruct H as (a & b & stm & xs & tgts & ds & cim & _ & _ & _ & _ & _ & _ & _ & _ & Ht & _).
  unfold extract_transforms in Ht.
  destruct (exec_all trxRegex doc) as [ms|]; [|done].
  inversion Ht; subst. clear. induction ms as [|m ms IH]; simpl; [constructor|].
  apply Forall_app. split; [apply transform_of_match_well_formed|done].
Qed.

Lemma transforms_are_well_formed_witness :
  ∃ r, extractDSXJobInfo [] doc_transform false = Some r ∧
       map x_rules (transforms r) = [[txt "lnk_out.TOTAL = lnk_in.NET + lnk_in.TAX;"]] ∧
       Forall transform_well_formed (transforms r).
Proof.
  destruct (extractDSXJobInfo [] doc_transform false) as [r|] eqn:E;
    [|vm_compute in E; discriminate E].
  exists r. split; [reflexivity|]. split.
  - vm_compute in E. injection E as <-. reflexivity.
  - exact (transforms_are_well_formed [] doc_transform false r E).
Defined.

(** ** Header fields *)

Lemma extraction_header now doc flag r :
  extractDSXJobInfo now doc flag = Some r →
  name r = extract_name doc ∧ description r = extract_description doc ∧
  type r = extract_type doc ∧ extract_parameters doc = Some (parameters r).
Proof.
  intros (params & r1 & Ep & Hg & ->)%extractDSXJobInfo_inv.
  destruct (add_token_count_fields flag r1) as (-> & -> & -> & -> & _).
  apply gated_stages_header in Hg as (-> & -> & -> & -> & _). by rewrite Ep.
Qed.

Lemma match_here_shorter re p s σ' c' :
  0 < min_len re →
  rmatch re found (mkst p s) ∅ = Some (σ', c') →
  consumed (mkst p s) σ' ≠ [] ∧ length (rest σ') < length s.
Proof.
  intros Hm (σ1 & c1 & HS & [= -> ->])%rmatch_sound.
  apply Sem_consumed in HS as (Er & _ & Hl). cbn [rest] in Er.
  split.
  - intros E. rewrite E in Hl. simpl in Hl. lia.
  - apply (f_equal length) in Er. rewrite length_app in Er. lia.
Qed.

(** a replacement leaves no character at which the pattern always
    matches, unless the replacement text brings it *)
Lemma replace_removes re rep (x : N) :
  0 < min_len re → x ∉ rep →
  (∀ p tl, is_Some (rmatch re found (mkst p (x :: tl)) ∅)) →
  ∀ n p s, length s < n → x ∉ replace_loop re rep n p s.
Proof.
  intros Hm Hrep Hx. induction n as [|n IH]; intros p s Hn; [lia|].
  destruct s as [|ch tl].
  - rewrite replace_loop_unfold. simpl.
    destruct (rmatch re found _ ∅) as [[σ' c']|] eqn:E; [|apply not_elem_of_nil].
    apply match_here_shorter in E as [_ E]; [|done]. exfalso. simpl in E. lia.
  - destruct (rmatch re found (mkst p (ch :: tl)) ∅) as [[σ' c']|] eqn:E.
    + pose proof (match_here_shorter _ _ _ _ _ Hm E) as [Hne Hlt].
      rewrite (replace_here _ _ _ _ _ _ _ E Hne).
      rewrite elem_of_app. intros [?|H]; [done|].
      revert H. apply IH. simpl in Hn, Hlt. lia.
    + rewrite replace_next; [|done|simpl in Hn; lia].
      rewrite elem_of_cons. intros [->|H].
      * destruct (Hx p tl) as [? Hs]. congruence.
      * revert H. apply IH. simpl in Hn. lia.
Qed.

Lemma newline_at_line_feed p tl :
  is_Some (rmatch newlineRe found (mkst p (10%N :: tl)) ∅).
Proof.
  apply (rmatch_complete newlineRe found _ ∅ (mkst (Some 10%N) tl) ∅); [|done].
  unfold newlineRe, opt. eapply Sem_Seq.
  - apply Sem_AltR, Sem_Empty.
  - by apply (Sem_Chr _ p 10%N tl).
Qed.

Lemma trim_start_subset x s : x ∈ trim_start s → x ∈ s.
Proof.
  induction s as [|y s IH]; simpl; [done|].
  destruct (is_space y); [|done]. intros H. by apply list_elem_of_further, IH.
Qed.

Lemma trim_subset x s : x ∈ trim s → x ∈ s.
Proof.
  unfold trim, trim_end. intros H.
  apply (proj1 (elem_of_rev _ _)), trim_start_subset in H.
  apply (proj1 (elem_of_rev _ _)) in H. by apply trim_start_subset.
Qed.

(** X18.  The description of an extracted job contains no line feed and has no
    white space at either end. *)
Theorem description_is_one_line now doc flag r :
  extractDSXJobInfo now doc flag = Some r →
  (10%N ∉ description r) ∧ trimmed (description r).
Proof.
  intros (_ & -> & _)%extraction_header. generalize doc as dsx_content.
  intros dsx_content.
  unfold extract_description.
  destruct (re_match descRe dsx_content) as [m|]; [|split; [apply not_elem_of_nil|by split]].
  unfold describe. split; [|apply trim_trimmed].
  intros H%trim_subset. revert H. unfold replace_all.
  apply replace_removes; [vm_compute; lia|by vm_compute; intros [=]%list_elem_of_singleton|
                          apply newline_at_line_feed|lia].
Qed.

Lemma description_is_one_line_witness :
  ∃ r, extractDSXJobInfo [] doc_lf_description false = Some r ∧
       description r = txt "Loads the customers every night.  Owner: the data team." ∧
       (10%N ∉ description r) ∧ trimmed (description r).
Proof.
  destruct (extractDSXJobInfo [] doc_lf_description false) as [r|] eqn:E;
    [|vm_compute in E; discriminate E].
  exists r. split; [reflexivity|]. split.
  - vm_compute in E. injection E as <-. reflexivity.
  - exact (description_is_one_line [] doc_lf_description false r E).
Defined.

Lemma search_first re : ∀ pre idx p t σ' c',
  (∀ a b, pre = a ++ b → b ≠ [] →
          rmatch re found (after (mkst p (pre ++ t)) a (b ++ t)) ∅ = None) →
  rmatch re found (after (mkst p (pre ++ t)) pre t) ∅ = Some (σ', c') →
  search re idx p (pre ++ t) =
  Some (mkmatch (idx + length pre) (take (length t - length (rest σ')) t) c' σ').
Proof.
  induction pre as [|x pre IH]; intros idx p t σ' c' Hnone Hhere.
  - cbn [app] in *. rewrite after_nil in Hhere.
    rewrite (search_here _ _ _ _ _ _ Hhere). simpl. f_equal. f_equal. lia.
  - cbn [app]. rewrite search_next.
    + rewrite (IH (S idx) (Some x) t σ' c').
      * simpl. f_equal. f_equal. lia.
      * intros a b -> Hb. rewrite <-(after_step p ((x :: a ++ b) ++ t)).
        by apply (Hnone (x :: a) b).
      * by rewrite <-(after_step p ((x :: pre) ++ t)).
    + specialize (Hnone [] (x :: pre) eq_refl). rewrite after_nil in Hnone.
      by apply Hnone.
Qed.

Lemma not_first_no_start w pre t a b :
  first_at w pre (pre ++ t) → pre = a ++ b → b ≠ [] →
  starts_with w (b ++ t) = false.
Proof.
  intros Hf -> Hb. destruct (starts_with w (b ++ t)) eqn:E; [|done].
  apply starts_with_app in E as (tl & E).
  specialize (Hf a tl). rewrite <-(assoc_L (++)), E in Hf. specialize (Hf eq_refl).
  rewrite length_app in Hf. destruct b; [done|]. simpl in Hf. lia.
Qed.

Section Patterns.

Context {R : Type}.

Implicit Types (k : st → caps → option R) (σ : st) (c : caps).

Lemma rmatch_seq a b k σ c :
  rmatch (Seq a b) k σ c = rmatch a (rmatch b k) σ c.
Proof. reflexivity. Qed.

Lemma rmatch_group i a k σ c :
  rmatch (Group i a) k σ c =
  rmatch a (λ σ' c', k σ' (<[i := consumed σ σ']> c')) σ c.
Proof. reflexivity. Qed.

Lemma rmatch_alt a b k σ c :
  rmatch (Alt a b) k σ c =
  match rmatch a k σ c with Some x => Some x | None => rmatch b k σ c end.
Proof. reflexivity. Qed.

Lemma rmatch_star g a k σ c :
  rmatch (Star g a) k σ c = star_loop (rmatch a) g k (length (rest σ)) σ c.
Proof. reflexivity. Qed.

Lemma rmatch_chr f k p s c :
  rmatch (Chr f) k (mkst p s) c =
  match s with
  | ch :: tl => if f ch then k (mkst (Some ch) tl) c else None
  | [] => None
  end.
Proof. reflexivity. Qed.

(** one or more characters of a class, as many as there are, when what
    follows succeeds after them *)
Lemma plus_class_longest f k c r p u tl :
  u ≠ [] → Forall (λ x, f x = true) u →
  (∀ x, head tl = Some x → f x = false) →
  k (after (mkst p (u ++ tl)) u tl) c = Some r →
  rmatch (plus (Chr f)) k (mkst p (u ++ tl)) c = Some r.
Proof.
  destruct u as [|x u]; [done|]. intros _ Hu Htl Hk. inversion Hu; subst.
  unfold plus. rewrite rmatch_seq. cbn [app]. rewrite rmatch_chr, H1, rmatch_star.
  apply greedy_longest; [done|done| |done].
  by rewrite <-(after_step p ((x :: u) ++ tl)).
Qed.

(** none or more characters of a class, as many as there are *)
Lemma star_class_longest f k c r p u tl :
  Forall (λ x, f x = true) u →
  (∀ x, head tl = Some x → f x = false) →
  k (after (mkst p (u ++ tl)) u tl) c = Some r →
  rmatch (Star true (Chr f)) k (mkst p (u ++ tl)) c = Some r.
Proof. intros Hu Htl Hk. rewrite rmatch_star. by apply greedy_longest. Qed.

End Patterns.

Lemma quote_free_class v :
  34%N ∉ v → Forall (λ y, negb (y =? 34)%N = true) v.
Proof.
  intros Hq. apply Forall_forall. intros y Hy. apply negb_true_iff, N.eqb_neq.
  by intros ->.
Qed.

(** what a quoted field gives where it stands *)
Lemma quoted_field_here k p v post :
  v ≠ [] → 34%N ∉ v →
  rmatch (quoted_field k) found
    (mkst p ((txt k ++ txt " " ++ dq) ++ v ++ dq ++ post)) ∅ =
  Some (mkst (Some 34%N) post, <[1 := v]> ∅).
Proof.
  intros Hv Hq. unfold quoted_field. rewrite rmatch_seq, rmatch_lit.
  assert (Hs : starts_with (txt k ++ txt " " ++ dq)
                 ((txt k ++ txt " " ++ dq) ++ v ++ dq ++ post) = true)
    by (apply starts_with_app; by eexists).
  rewrite Hs, drop_app_length. unfold after at 1.
  rewrite rmatch_seq, rmatch_group. unfold notc.
  apply plus_class_longest; [done|by apply quote_free_class|by intros x [= <-]|].
  rewrite consumed_after by done. unfold after at 1. rewrite rmatch_lit.
  change (starts_with dq (dq ++ post)) with true. cbn iota.
  reflexivity.
Qed.

Lemma quoted_field_first k pre v post :
  v ≠ [] → 34%N ∉ v →
  first_at (txt k ++ txt " " ++ dq) pre
           (pre ++ (txt k ++ txt " " ++ dq) ++ v ++ dq ++ post) →
  ∃ mt, re_match (quoted_field k)
          (pre ++ (txt k ++ txt " " ++ dq) ++ v ++ dq ++ post) = Some mt ∧
        m_index mt = length pre ∧ grp mt 1 = v.
Proof.
  intros Hv Hq Hfirst. unfold re_match.
  erewrite search_first.
  - eexists. split; [reflexivity|]. split; [done|]. unfold grp, cap. cbn [m_caps].
    by rewrite lookup_insert_eq.
  - intros a b Hab Hb. unfold after at 1.
    unfold quoted_field. rewrite rmatch_seq, rmatch_lit.
    by rewrite (not_first_no_start _ _ _ _ _ Hfirst Hab Hb).
  - unfold after at 1. by apply quoted_field_here.
Qed.

(** X19.  When the first [Identifier] field of the document has a non-empty
    value without a double quote, that value is the name of the extracted job;
    and the type of the job is the label of the value of the first [JobType]
    field. *)
Theorem header_comes_from_the_first_field now doc flag r pre v post :
  extractDSXJobInfo now doc flag = Some r →
  v ≠ [] → 34%N ∉ v →
  (first_field "Identifier" doc pre v post → name r = v) ∧
  (first_field "JobType" doc pre v post → type r = job_type_label v).
Proof.
  intros (-> & _ & -> & _)%extraction_header Hv Hq. split; intros [-> Hf].
  - destruct (quoted_field_first "Identifier" pre v post Hv Hq Hf) as (mt & E & _ & Hg).
    unfold extract_name, jobNameRe.
    change (txt "Identifier " ++ dq) with (txt "Identifier" ++ txt " " ++ dq).
    by rewrite E.
  - destruct (quoted_field_first "JobType" pre v post Hv Hq Hf) as (mt & E & _ & Hg).
    unfold extract_type, jobTypeRe.
    change (txt "JobType " ++ dq) with (txt "JobType" ++ txt " " ++ dq).
    by rewrite E, Hg.
Qed.

Lemma header_comes_from_the_first_field_witness :
  ∃ r, extractDSXJobInfo [] doc_header_only false = Some r ∧
       name r = txt "Job" ∧ type r = VStr (txt "Parallel Job").
Proof.
  destruct (extractDSXJobInfo [] doc_header_only false) as [r|] eqn:E;
    [|vm_compute in E; discriminate E].
  exists r. split; [reflexivity|]. split.
  - apply (proj1 (header_comes_from_the_first_field [] doc_header_only false r
                    [] (txt "Job") (drop 16 doc_header_only) E
                    ltac:(discriminate)
                    ltac:(apply not_elem_check; vm_compute; reflexivity))).
    apply first_field_check; vm_compute; reflexivity.
  - apply (proj2 (header_comes_from_the_first_field [] doc_header_only false r
                    (take 17 doc_header_only) (txt "1") [] E
                    ltac:(discriminate)
                    ltac:(apply not_elem_check; vm_compute; reflexivity))).
    apply first_field_check; vm_compute; reflexivity.
Defined.

(** ** Stage lists and connections *)

Lemma quoted_list_here k p v post :
  list_text v →
  rmatch (quoted_list k) found
    (mkst p ((txt k ++ txt " " ++ dq) ++ v ++ dq ++ post)) ∅ =
  Some (mkst (Some 34%N) post, <[1 := v]> ∅).
Proof.
  intros [Hq Hl]. unfold quoted_list. rewrite rmatch_seq, rmatch_lit.
  assert (Hs : starts_with (txt k ++ txt " " ++ dq)
                 ((txt k ++ txt " " ++ dq) ++ v ++ dq ++ post) = true)
    by (apply starts_with_app; by eexists).
  rewrite Hs, drop_app_length. unfold after at 1.
  rewrite rmatch_seq, rmatch_group, rmatch_star. unfold dot.
  apply lazy_first.
  - eapply Forall_impl; [exact Hl|]. intros x Hx. simpl. by rewrite Hx.
  - done.
  - rewrite consumed_after by done. unfold after at 1. rewrite rmatch_lit.
    change (starts_with dq (dq ++ post)) with true. cbn iota. reflexivity.
  - intros j Hj. unfold after at 1. rewrite rmatch_lit.
    destruct (drop j v) as [|x tl] eqn:E.
    { apply (f_equal length) in E. rewrite length_drop in E. simpl in E. lia. }
    cbn [app starts_with dq]. 
    destruct (N.eqb_spec 34 x) as [<-|]; [|done].
    exfalso. apply Hq. rewrite <-(take_drop j v), E.
    apply elem_of_app. right. apply list_elem_of_here.
Qed.

Lemma quoted_list_first k doc pre v post :
  list_text v → first_field k doc pre v post →
  ∃ mt, re_match (quoted_list k) doc = Some mt ∧
        m_index mt = length pre ∧ grp mt 1 = v.
Proof.
  intros Hv [-> Hfirst]. unfold re_match.
  erewrite search_first.
  - eexists. split; [reflexivity|]. split; [done|]. unfold grp, cap. cbn [m_caps].
    by rewrite lookup_insert_eq.
  - intros a b Hab Hb. unfold after at 1.
    unfold quoted_list. rewrite rmatch_seq, rmatch_lit.
    by rewrite (not_first_no_start _ _ _ _ _ Hfirst Hab Hb).
  - unfold after at 1. by apply quoted_list_here.
Qed.

(** X20.  When the first [StageList] field and the first [StageNames] field of
    a document hold one-line values without a double quote, the stage map of
    the document is the one built from these two values. *)
Theorem stage_lists_are_read_from_the_document doc pre1 ids post1 pre2 names post2 :
  list_text ids → list_text names →
  first_field "StageList" doc pre1 ids post1 →
  first_field "StageNames" doc pre2 names post2 →
  stage_map_of doc = build_stage_map ids names.
Proof.
  intros Hi Hn H1 H2.
  destruct (quoted_list_first "StageList" doc pre1 ids post1 Hi H1) as (m1 & E1 & _ & G1).
  destruct (quoted_list_first "StageNames" doc pre2 names post2 Hn H2) as (m2 & E2 & _ & G2).
  unfold stage_map_of, stageListRe, stageNamesRe. by rewrite E1, E2, G1, G2.
Qed.

Lemma stage_lists_are_read_from_the_document_witness :
  stage_map_of doc_two_stages =
  build_stage_map (txt "V0S0|V0S1") (txt "Extract|Load").
Proof.
  apply (stage_lists_are_read_from_the_document doc_two_stages
           [] (txt "V0S0|V0S1") (drop 21 doc_two_stages)
           (take 22 doc_two_stages) (txt "Extract|Load") (drop 47 doc_two_stages)).
  - apply list_text_check. vm_compute. reflexivity.
  - apply list_text_check. vm_compute. reflexivity.
  - apply first_field_check; vm_compute; reflexivity.
  - apply first_field_check; vm_compute; reflexivity.
Defined.

Lemma flow_loop_complete sm cim sp ts f : ∀ linkNames i0 i linkName,
  linkNames !! i = Some linkName →
  flow_entry sm cim sp ts (i0 + i) linkName = Some f →
  f ∈ flow_loop sm cim sp ts i0 linkNames.
Proof.
  induction linkNames as [|n l IH]; intros i0 i linkName Hi Hf; [done|].
  destruct i as [|i]; simpl in Hi.
  - injection Hi as ->. rewrite Nat.add_0_r in Hf. simpl. rewrite Hf.
    apply list_elem_of_here.
  - simpl. replace (i0 + S i) with (S i0 + i) in Hf by lia.
    specialize (IH (S i0) i linkName Hi Hf).
    destruct (flow_entry sm cim sp ts i0 n); [by apply list_elem_of_further|done].
Qed.

Lemma resolved_value sm id n :
  sm !! id = Some n → resolved_name n →
  or_value (obj_get sm id) (txt "Unknown") = VStr n ∧ known (VStr n) = true.
Proof.
  intros E (H1 & H2 & H3). unfold obj_get. rewrite E. split.
  - by destruct n.
  - unfold known. rewrite !bool_decide_eq_false_2; [done|congruence|congruence].
Qed.

Lemma flow_entry_resolved sm cim sp ts i linkName pin sourceId targetId from to :
  sp !! i = Some pin → head (split (txt "P") pin) = Some sourceId →
  sourceId ≠ [] → ts !! i = Some targetId → targetId ≠ [] →
  sm !! sourceId = Some from → resolved_name from →
  sm !! targetId = Some to → resolved_name to →
  flow_entry sm cim sp ts i linkName =
  Some {| f_link := linkName; f_from := VStr from; f_to := VStr to;
          f_columns := columns_for cim linkName |}.
Proof.
  intros Hp Hs Hsn Ht Htn Ef Hf Et Hto. unfold flow_entry, source_id, target_id.
  rewrite Hp, Ht.
  assert (pin ≠ []) as Hpin.
  { intros ->. vm_compute in Hs. injection Hs as <-. done. }
  destruct pin as [|x pin]; [done|]. rewrite Hs.
  destruct sourceId as [|y sid]; [done|]. destruct targetId as [|z tid]; [done|].
  destruct (resolved_value _ _ _ Ef Hf) as [-> ->].
  destruct (resolved_value _ _ _ Et Hto) as [-> ->]. done.
Qed.

(** X21.  When the document holds the five lists as one-line quoted fields,
    every index [i] at which the [i]-th non-blank link name, the [i]-th source
    pin and the [i]-th target stage are there, and both ends resolve through
    the stage map to names that are not empty, not [Unknown] and not a blank,
    gives a connection of the flow with that link, from and to. *)
Theorem resolved_links_become_connections now doc flag r
    pre1 ids post1 pre2 names post2 pre3 links post3 pre4 pins post4
    pre5 targets post5 i linkName pin sourceId targetId from to :
  extractDSXJobInfo now doc flag = Some r →
  list_text ids → first_field "StageList" doc pre1 ids post1 →
  list_text names → first_field "StageNames" doc pre2 names post2 →
  list_text links → first_field "LinkNames" doc pre3 links post3 →
  list_text pins → first_field "LinkSourcePinIDs" doc pre4 pins post4 →
  list_text targets → first_field "TargetStageIDs" doc pre5 targets post5 →
  link_names links !! i = Some linkName →
  split (txt "|") pins !! i = Some pin →
  head (split (txt "P") pin) = Some sourceId → sourceId ≠ [] →
  split (txt "|") targets !! i = Some targetId → targetId ≠ [] →
  build_stage_map ids names !! sourceId = Some from → resolved_name from →
  build_stage_map ids names !! targetId = Some to → resolved_name to →
  ∃ f, f ∈ flow r ∧ f_link f = linkName ∧
       f_from f = VStr from ∧ f_to f = VStr to.
Proof.
  intros Hr Hi F1 Hn F2 Hl F3 Hp F4 Ht F5 Hlink Hpin Hsid Hsne Htid Htne Ef Hf Et Hto.
  destruct (quoted_list_first _ _ _ _ _ Hi F1) as (m1 & E1 & _ & G1).
  destruct (quoted_list_first _ _ _ _ _ Hn F2) as (m2 & E2 & _ & G2).
  destruct (quoted_list_first _ _ _ _ _ Hl F3) as (m3 & E3 & _ & G3).
  destruct (quoted_list_first _ _ _ _ _ Hp F4) as (m4 & E4 & _ & G4).
  destruct (quoted_list_first _ _ _ _ _ Ht F5) as (m5 & E5 & _ & G5).
  apply extraction_sections in Hr as (_ & _ & _ & [H|H]).
  { destruct H as ([H|H] & _); unfold stageListRe, stageNamesRe in H; congruence. }
  destruct H as (a & b & stm & xs & tgts & ds & cim & Ea & Eb & _ & _ & _ & _ & _ & _ & _ & _ & Hflow).
  unfold stageListRe in Ea. unfold stageNamesRe in Eb.
  rewrite E1 in Ea. rewrite E2 in Eb. injection Ea as <-. injection Eb as <-.
  rewrite G1, G2 in Hflow. unfold extract_flow in Hflow.
  unfold linkNamesRe, sourcePinsRe, targetStagesRe in Hflow.
  rewrite E3, E4, E5 in Hflow. cbn [fmap option_fmap option_map] in Hflow.
  rewrite G3, G4, G5 in Hflow. injection Hflow as <-.
  exists {| f_link := linkName; f_from := VStr from; f_to := VStr to;
            f_columns := columns_for cim linkName |}.
  split; [|by split_and!].
  unfold assemble_flow. eapply (flow_loop_complete _ _ _ _ _ _ 0 i); [exact Hlink|].
  by eapply flow_entry_resolved.
Qed.

Lemma resolved_links_become_connections_witness :
  ∃ r f, extractDSXJobInfo [] doc_two_stages false = Some r ∧
         f ∈ flow r ∧ f_link f = txt "L1" ∧
         f_from f = VStr (txt "Extract") ∧ f_to f = VStr (txt "Load").
Proof.
  destruct (extractDSXJobInfo [] doc_two_stages false) as [r|] eqn:E;
    [|vm_compute in E; discriminate E].
  destruct (resolved_links_become_connections [] doc_two_stages false r
              [] (txt "V0S0|V0S1") (drop 21 doc_two_stages)
              (take 22 doc_two_stages) (txt "Extract|Load") (drop 47 doc_two_stages)
              (take 48 doc_two_stages) (txt "L1") (drop 62 doc_two_stages)
              (take 63 doc_two_stages) (txt "V0S0P1") (drop 88 doc_two_stages)
              (take 89 doc_two_stages) (txt "V0S1") (drop 110 doc_two_stages)
              0 (txt "L1") (txt "V0S0P1") (txt "V0S0") (txt "V0S1")
              (txt "Extract") (txt "Load") E) as (f & Hf).
  - apply list_text_check. vm_compute. reflexivity.
  - apply first_field_check; vm_compute; reflexivity.
  - apply list_text_check. vm_compute. reflexivity.
  - apply first_field_check; vm_compute; reflexivity.
  - apply list_text_check. vm_compute. reflexivity.
  - apply first_field_check; vm_compute; reflexivity.
  - apply list_text_check. vm_compute. reflexivity.
  - apply first_field_check; vm_compute; reflexivity.
  - apply list_text_check. vm_compute. reflexivity.
  - apply first_field_check; vm_compute; reflexivity.
  - vm_compute. reflexivity.
  - vm_compute. reflexivity.
  - vm_compute. reflexivity.
  - discriminate.
  - vm_compute. reflexivity.
  - discriminate.
  - vm_compute. reflexivity.
  - split_and!; discriminate.
  - vm_compute. reflexivity.
  - split_and!; discriminate.
  - exists r, f. split; [reflexivity|exact Hf].
Defined.

(** ** Parameters *)

Section Chains.

Context {R : Type}.

Implicit Types (k : st → caps → option R) (σ : st) (c : caps).

Lemma seq_lit L a k p s c r :
  rmatch a k (after (mkst p (L ++ s)) L s) c = Some r →
  rmatch (lit L ∙ a) k (mkst p (L ++ s)) c = Some r.
Proof.
  intros H. rewrite rmatch_seq, rmatch_lit.
  rewrite (proj2 (starts_with_app L (L ++ s))) by (by eexists).
  by rewrite drop_app_length.
Qed.

Lemma seq_plus_class f a k p u tl c r :
  u ≠ [] → Forall (λ x, f x = true) u →
  (∀ x, head tl = Some x → f x = false) →
  rmatch a k (after (mkst p (u ++ tl)) u tl) c = Some r →
  rmatch (plus (Chr f) ∙ a) k (mkst p (u ++ tl)) c = Some r.
Proof. intros. rewrite rmatch_seq. by apply plus_class_longest. Qed.

Lemma seq_group_plus i f a k p u tl c r :
  u ≠ [] → Forall (λ x, f x = true) u →
  (∀ x, head tl = Some x → f x = false) →
  rmatch a k (after (mkst p (u ++ tl)) u tl) (<[i := u]> c) = Some r →
  rmatch (Group i (plus (Chr f)) ∙ a) k (mkst p (u ++ tl)) c = Some r.
Proof.
  intros Hu Hf Htl H. rewrite rmatch_seq, rmatch_group.
  apply plus_class_longest; [done..|]. by rewrite consumed_after.
Qed.

Lemma seq_group_star i f a k p u tl c r :
  Forall (λ x, f x = true) u →
  (∀ x, head tl = Some x → f x = false) →
  rmatch a k (after (mkst p (u ++ tl)) u tl) (<[i := u]> c) = Some r →
  rmatch (Group i (Star true (Chr f)) ∙ a) k (mkst p (u ++ tl)) c = Some r.
Proof.
  intros Hf Htl H. rewrite rmatch_seq, rmatch_group.
  apply star_class_longest; [done..|]. by rewrite consumed_after.
Qed.

Lemma seq_opt_taken a b k σ c r :
  rmatch a (rmatch b k) σ c = Some r →
  rmatch (opt a ∙ b) k σ c = Some r.
Proof. intros H. unfold opt. by rewrite rmatch_seq, rmatch_alt, H. Qed.

Lemma seq_opt_skipped a b k σ c r :
  rmatch a (rmatch b k) σ c = None →
  rmatch b k σ c = Some r →
  rmatch (opt a ∙ b) k σ c = Some r.
Proof. intros H1 H2. unfold opt. by rewrite rmatch_seq, rmatch_alt, H1. Qed.

End Chains.

Lemma starts_with_take w s :
  starts_with w s = true ↔ take (length w) s = w.
Proof.
  rewrite starts_with_app. split.
  - intros (tl & ->). by rewrite take_app_length.
  - intros H. exists (drop (length w) s). by rewrite <-H at 1; rewrite take_drop.
Qed.

Lemma includes_suffix w a s : includes w s = true → includes w (a ++ s) = true.
Proof.
  intros H. induction a as [|x a IH]; [done|]. simpl. rewrite IH. apply orb_true_r.
Qed.

Lemma includes_starts w s : starts_with w s = true → includes w s = true.
Proof. intros H. destruct s; simpl; by rewrite H. Qed.

Lemma opener_free_spec before a b X :
  opener_free before = true → before = a ++ b → b ≠ [] →
  starts_with opener (b ++ opener ++ X) = false.
Proof.
  unfold opener_free. intros Hfree -> Hb. apply negb_true_iff in Hfree.
  destruct (starts_with opener (b ++ opener ++ X)) eqn:E; [|done].
  rewrite <-Hfree. symmetry. rewrite <-(assoc_L (++)).
  apply includes_suffix, includes_starts, starts_with_take.
  apply starts_with_take in E.
  rewrite <-(take_drop 16 opener) in E at 2.
  rewrite <-(assoc_L (++) (take 16 opener)), (assoc_L (++) b) in E.
  rewrite take_app_le in E; [done|].
  rewrite length_app. destruct b; [done|]. 
  change (length (take 16 opener)) with 16. change (length opener) with 17.
  simpl. lia.
Qed.

Lemma includes_nowhere w a b : includes w (a ++ b) = false → starts_with w b = false.
Proof.
  intros H. destruct (starts_with w b) eqn:E; [|done].
  by rewrite (includes_suffix w a b (includes_starts _ _ E)) in H.
Qed.

Ltac forget_prev :=
  unfold after at 1;
  match goal with
  | |- rmatch _ _ (mkst ?p _) _ = _ =>
    let p' := fresh "p" in generalize p; intros p'
  end.

Lemma parameter_text_here q p post :
  parameter_text_ok q →
  rmatch paramRegex found (mkst p (parameter_text q post)) ∅ =
  Some (mkst (Some 34%N) post, parameter_caps q).
Proof.
  intros (Hg & Hws & Hn & Hnq & Hpq & Hdq & Hhq & Ht & Htq).
  unfold paramRegex, parameter_text, parameter_caps, opener.
  apply seq_lit. forget_prev.
  apply seq_plus_class; [done|done|by intros x [= <-]|]. forget_prev.
  apply seq_lit. forget_prev.
  apply seq_group_plus; [done|by apply quote_free_class|by intros x [= <-]|]. forget_prev.
  apply seq_lit. forget_prev.
  apply seq_plus_class; [done|done|by intros x [= <-]|]. forget_prev.
  apply seq_lit. forget_prev.
  apply seq_group_star; [by apply quote_free_class|by intros x [= <-]|]. forget_prev.
  apply seq_lit. forget_prev.
  apply seq_plus_class; [done|done|by intros x [= <-]|]. forget_prev.
  apply seq_lit. forget_prev.
  apply seq_group_star; [by apply quote_free_class|by intros x [= <-]|]. forget_prev.
  apply seq_lit. forget_prev.
  destruct (pt_help q) as [h|] eqn:Eh.
  - apply seq_plus_class; [done|done|by intros x [= <-]|]. forget_prev.
    apply seq_opt_taken.
    apply seq_lit. forget_prev.
    apply seq_group_star; [apply quote_free_class; by apply Hhq|by intros x [= <-]|].
    forget_prev.
    apply seq_lit. forget_prev.
    apply plus_class_longest; [done|done|by intros x [= <-]|]. forget_prev.
    apply seq_lit. forget_prev.
    apply seq_group_plus; [done|by apply quote_free_class|by intros x [= <-]|].
    forget_prev.
    rewrite rmatch_lit. change (starts_with dq (dq ++ post)) with true.
    reflexivity.
  - apply seq_plus_class; [done|done|by intros x [= <-]|]. forget_prev.
    apply seq_opt_skipped.
    { rewrite rmatch_seq, rmatch_lit. reflexivity. }
    apply seq_lit. forget_prev.
    apply seq_group_plus; [done|by apply quote_free_class|by intros x [= <-]|].
    forget_prev.
    rewrite rmatch_lit. change (starts_with dq (dq ++ post)) with true.
    reflexivity.
Qed.

Lemma search_nowhere re : ∀ s idx p,
  (∀ a b, s = a ++ b → rmatch re found (after (mkst p s) a b) ∅ = None) →
  search re idx p s = None.
Proof.
  induction s as [|x s IH]; intros idx p H.
  - simpl. specialize (H [] [] eq_refl). rewrite after_nil in H. by rewrite H.
  - rewrite search_next.
    + apply IH. intros a b ->. rewrite <-(after_step p (x :: a ++ b)).
      by apply (H (x :: a) b).
    + specialize (H [] (x :: s) eq_refl). by rewrite after_nil in H.
Qed.

Lemma exec_loop_unfold re fuel idx p s :
  exec_loop re (S fuel) idx p s =
  match search re idx p s with
  | None => Some []
  | Some mt =>
    if length (rest (m_after mt)) <? length s
    then cons mt <$> exec_loop re fuel (m_end mt)
                       (prev (m_after mt)) (rest (m_after mt))
    else None
  end.
Proof. reflexivity. Qed.

Lemma parameter_of_caps mt q :
  m_caps mt = parameter_caps q → parameter_of mt = parameter_read q.
Proof.
  intros E. unfold parameter_of, parameter_read, grp, cap. rewrite E.
  unfold parameter_caps.
  destruct (pt_help q) as [h|];
    repeat first [rewrite lookup_insert_eq | rewrite lookup_insert_ne by done];
    rewrite ?lookup_empty; cbn [default or_undef]; [by destruct h|done].
Qed.

Lemma parameter_text_length q post : length post < length (parameter_text q post).
Proof.
  unfold parameter_text. destruct (pt_help q); rewrite !length_app; simpl; lia.
Qed.

Lemma parameter_section_read : ∀ items tail fuel idx p,
  Forall (λ item, opener_free (fst item) = true ∧ parameter_text_ok (snd item)) items →
  includes opener tail = false →
  length (parameter_section items tail) < fuel →
  ∃ ms, exec_loop paramRegex fuel idx p (parameter_section items tail) = Some ms ∧
        map parameter_of ms = map (λ item, parameter_read (snd item)) items.
Proof.
  induction items as [|[before q] items IH]; intros tail fuel idx p Hok Htail Hfuel.
  - destruct fuel as [|fuel]; [lia|]. cbn [parameter_section].
    rewrite exec_loop_unfold, search_nowhere; [by exists []|].
    intros a b ->. unfold after at 1. unfold paramRegex.
    rewrite rmatch_seq, rmatch_lit. fold opener.
    by rewrite (includes_nowhere _ _ _ Htail).
  - inversion Hok as [|? ? [Hfree Hq] Hok']; subst. cbn [fst snd] in *.
    destruct fuel as [|fuel]; [lia|]. cbn [parameter_section] in *.
    set (post := parameter_section items tail) in *.
    rewrite exec_loop_unfold.
    rewrite (search_first paramRegex before idx p (parameter_text q post)
               (mkst (Some 34%N) post) (parameter_caps q)).
    + cbn [m_after rest m_end m_index m_text prev].
      pose proof (parameter_text_length q post) as Hlen.
      rewrite length_app.
      destruct (length post <? length before + length (parameter_text q post)) eqn:E;
        [|apply Nat.ltb_ge in E; lia].
      match goal with
      | |- context [exec_loop paramRegex fuel ?i ?pp _] =>
        destruct (IH tail fuel i pp Hok' Htail) as (ms & Hex & Hms)
      end.
      { rewrite length_app in Hfuel. change (length post < fuel). 
        clear -Hfuel Hlen. clearbody post. lia. }
      fold post in Hex. rewrite Hex.
      eexists. split; [reflexivity|]. cbn [map]. f_equal; [|done].
      by apply parameter_of_caps.
    + intros a b Hab Hb. unfold after at 1. unfold paramRegex.
      rewrite rmatch_seq, rmatch_lit.
      unfold parameter_text. fold opener.
      by rewrite (opener_free_spec before a b _ Hfree Hab Hb).
    + unfold after at 1. by apply parameter_text_here.
Qed.

Lemma extract_parameters_of_section items tail :
  Forall (λ item, opener_free (fst item) = true ∧ parameter_text_ok (snd item)) items →
  includes opener tail = false →
  extract_parameters (parameter_section items tail) =
  Some (map (λ item, parameter_read (snd item)) items).
Proof.
  intros Hok Htail. unfold extract_parameters, exec_all.
  destruct (parameter_section_read items tail
              (S (length (parameter_section items tail))) 0 None Hok Htail)
    as (ms & -> & Hms); [lia|].
  cbn [fmap option_fmap option_map]. by rewrite Hms.
Qed.

(** X22.  A document made of parameter sub-records, with the opener of a
    sub-record nowhere else, yields exactly these parameters in their order:
    name, prompt and default as written, the help text or the empty string,
    and the label of the type code. *)
Theorem parameters_are_read_back now flag r items tail :
  extractDSXJobInfo now (parameter_section items tail) flag = Some r →
  Forall (λ item, opener_free (fst item) = true ∧ parameter_text_ok (snd item)) items →
  includes opener tail = false →
  parameters r = map (λ item, parameter_read (snd item)) items.
Proof.
  intros (_ & _ & _ & Hp)%extraction_header Hok Htail.
  rewrite (extract_parameters_of_section _ _ Hok Htail) in Hp. by injection Hp.
Qed.

Lemma parameters_are_read_back_witness :
  ∃ r, extractDSXJobInfo [] doc_parameters false = Some r ∧
       parameters r =
       [ {| p_name := txt "SRC_DB"; p_prompt := txt "Source database";
            p_default := [];
            p_help := txt "where the customers are read from";
            p_type := VStr (txt "String") |};
         {| p_name := txt "RUN_DATE"; p_prompt := []; p_default := txt "2020-01-01";
            p_help := []; p_type := VStr (txt "Date") |} ].
Proof.
  destruct (extractDSXJobInfo [] doc_parameters false) as [r|] eqn:E;
    [|vm_compute in E; discriminate E].
  exists r. split; [reflexivity|].
  apply (parameters_are_read_back [] false r
           [(txt "BEGIN DSJOB" ++ lf, text_of_source_db);
            (lf ++ txt "END DSSUBRECORD" ++ lf, text_of_run_date)]
           (lf ++ txt "END DSSUBRECORD" ++ lf ++ txt "END DSJOB") E).
  - constructor; [|constructor; [|constructor]].
    + split; [vm_compute; reflexivity|].
      unfold parameter_text_ok, text_of_source_db; cbn.
      split_and!; try discriminate; try (apply not_elem_check; vm_compute; reflexivity).
      * repeat constructor.
      * intros h [= <-]. apply not_elem_check. vm_compute. reflexivity.
    + split; [vm_compute; reflexivity|].
      unfold parameter_text_ok, text_of_run_date; cbn.
      split_and!; try discriminate; try (apply not_elem_check; vm_compute; reflexivity).
      * repeat constructor.
  - vm_compute. reflexivity.
Defined.

(** ** SQL scripts *)

Lemma squash_apart_class f r s : f r = true → ∀ b,
  let t := squash f [r] b s in
  (∀ i x y, t !! i = Some x → t !! S i = Some y → f x = true → f y = false) ∧
  (b = true → ∀ x, head t = Some x → f x = false).
Proof.
  intros Hr. induction s as [|ch s IH]; intros b; cbv zeta; cbn [squash]; [by split|].
  destruct (f ch) eqn:E.
  - destruct b; cbn [app].
    + destruct (IH true) as [H1 H2]. split; [exact H1|]. intros _. by apply H2.
    + destruct (IH true) as [H1 H2]. split; [|done].
      intros [|i] x y Hx Hy Hs; cbn [lookup list_lookup] in *.
      * apply H2; [done|]. rewrite head_lookup. exact Hy.
      * exact (H1 i x y Hx Hy Hs).
  - destruct (IH false) as [H1 _]. split.
    + intros [|i] x y Hx Hy Hs; cbn [lookup list_lookup] in *; [congruence|].
      exact (H1 i x y Hx Hy Hs).
    + intros _ x [= <-]. done.
Qed.

Lemma squash_snoc_class f rep s c : ∀ b,
  f c = false → squash f rep b (s ++ [c]) = squash f rep b s ++ [c].
Proof.
  induction s as [|x s IH]; intros b Hc; cbn [app squash].
  - by rewrite Hc.
  - destruct (f x).
    + rewrite IH by done. by rewrite (assoc_L (++)).
    + by rewrite IH.
Qed.

Lemma squash_last_class f rep s c :
  last s = Some c → f c = false → last (squash f rep false s) = Some c.
Proof.
  intros (s' & ->)%last_Some Hc. rewrite squash_snoc_class by done.
  by rewrite last_snoc.
Qed.

Lemma indent_at_lf p u tl :
  Forall (λ x, is_space x = true) u →
  (∀ x, head tl = Some x → is_space x = false) →
  rmatch indentRe found (mkst p (10%N :: u ++ tl)) ∅ =
  Some (after (mkst (Some 10%N) (u ++ tl)) u tl, ∅).
Proof.
  intros Hu Htl. unfold indentRe, opt, chr, ws. rewrite rmatch_seq, rmatch_alt.
  rewrite rmatch_chr. change (13 =? 10)%N with false. cbn iota.
  change (rmatch Empty ?k ?σ ?c) with (k σ c).
  rewrite rmatch_seq, rmatch_chr. change (10 =? 10)%N with true. cbn iota.
  by apply star_class_longest.
Qed.

Lemma indent_at_crlf p u tl :
  Forall (λ x, is_space x = true) u →
  (∀ x, head tl = Some x → is_space x = false) →
  rmatch indentRe found (mkst p (13%N :: 10%N :: u ++ tl)) ∅ =
  Some (after (mkst (Some 10%N) (u ++ tl)) u tl, ∅).
Proof.
  intros Hu Htl. unfold indentRe, opt, chr, ws. rewrite rmatch_seq, rmatch_alt.
  rewrite rmatch_chr. change (13 =? 13)%N with true. cbn iota.
  rewrite rmatch_seq, rmatch_chr. change (10 =? 10)%N with true. cbn iota.
  by rewrite (star_class_longest _ _ _ _ _ _ _ Hu Htl eq_refl).
Qed.

Lemma indent_none p a s :
  a ≠ 10%N → (a = 13%N → head s ≠ Some 10%N) →
  rmatch indentRe found (mkst p (a :: s)) ∅ = None.
Proof.
  intros Ha Hcr. unfold indentRe, opt, chr, ws. rewrite rmatch_seq, rmatch_alt.
  rewrite rmatch_chr.
  change (rmatch Empty ?k ?σ ?c) with (k σ c).
  rewrite (rmatch_seq (Chr (N.eqb 10))), !rmatch_chr.
  rewrite rmatch_seq, rmatch_chr.
  destruct (N.eqb_spec 10 a) as [<-|_]; [done|].
  destruct (N.eqb_spec 13 a) as [<-|_]; [|done].
  destruct s as [|b s]; [done|].
  destruct (N.eqb_spec 10 b) as [<-|_]; [|done].
  by destruct (Hcr eq_refl).
Qed.

Lemma spaces_end_in_space a u :
  is_space a = true → Forall (λ x, is_space x = true) u →
  ∃ c, last (a :: u) = Some c ∧ is_space c = true.
Proof.
  intros Ha Hu. destruct (last (a :: u)) as [c|] eqn:E; [|by apply last_None in E].
  exists c. split; [done|]. apply last_elem_of in E.
  apply elem_of_cons in E as [->|E]; [done|].
  by apply (proj1 (Forall_forall _ _) Hu).
Qed.

Lemma replace_indent : ∀ n p s,
  length s < n →
  (∀ c, last s = Some c → is_space c = false) →
  (∀ i, s !! i = Some 32%N → s !! S i ≠ Some 32%N) →
  script_text (replace_loop indentRe lf n p s) ∧
  (head (replace_loop indentRe lf n p s) = Some 10%N ∨
   head (replace_loop indentRe lf n p s) = head s) ∧
  (∀ c, head s = Some c → is_space c = false →
        head (replace_loop indentRe lf n p s) = Some c).
Proof.
  induction n as [|n IH]; intros p s Hn Hlast Hblank; [lia|].
  destruct s as [|a s].
  { rewrite replace_loop_unfold. cbn. split_and!; [split; intros i Hi; done|by right|done]. }
  assert (Hstep : ∀ u tl σ',
            a :: s = (take (length (a :: s) - length (u ++ tl)) (a :: s)) ++ u ++ tl →
            is_space 10 = true →
            (∀ x, x ∈ take (length (a :: s) - length (u ++ tl)) (a :: s) → is_space x = true) →
            Forall (λ x, is_space x = true) u →
            (∀ x, head tl = Some x → is_space x = false) →
            rmatch indentRe found (mkst p (a :: s)) ∅ = Some (σ', ∅) →
            rest σ' = tl → is_space a = true →
            script_text (replace_loop indentRe lf (S n) p (a :: s)) ∧
            (head (replace_loop indentRe lf (S n) p (a :: s)) = Some 10%N ∨
             head (replace_loop indentRe lf (S n) p (a :: s)) = head (a :: s)) ∧
            (∀ c, head (a :: s) = Some c → is_space c = false →
                  head (replace_loop indentRe lf (S n) p (a :: s)) = Some c)).
  { intros u tl σ' Hs _ Hpre Hu Htl Hm Hr Ha.
    pose proof (match_here_shorter indentRe _ _ _ _ ltac:(vm_compute; lia) Hm) as [Hne Hlt].
    rewrite (replace_here _ _ _ _ _ _ _ Hm Hne), Hr.
    destruct tl as [|c tl].
    { exfalso. rewrite app_nil_r in Hs, Hpre.
      destruct (last (a :: s)) as [z|] eqn:Ez; [|by apply last_None in Ez].
      pose proof (Hlast z eq_refl) as Hz. apply last_elem_of in Ez.
      rewrite Hs in Ez. apply elem_of_app in Ez as [Ez|Ez].
      - apply Hpre in Ez. congruence.
      - apply (proj1 (Forall_forall _ _) Hu) in Ez. congruence. }
    pose proof (Htl c eq_refl) as Hc.
    destruct (IH (prev σ') (c :: tl)) as (Ht & _ & Hhead).
    - rewrite Hr in Hlt. simpl in *. lia.
    - intros z Hz. apply Hlast. rewrite Hs, !last_app, Hz. done.
    - intros i Hi. 
      set (k := length (take (length (a :: s) - length (u ++ c :: tl)) (a :: s) ++ u)).
      assert (Hk : ∀ j, (c :: tl) !! j = (a :: s) !! (k + j)).
      { intros j. rewrite Hs at 1. rewrite (assoc_L (++)).
        rewrite lookup_app_r by (subst k; lia). f_equal. subst k. lia. }
      rewrite !Hk in *. replace (k + S i) with (S (k + i)) by lia. by apply Hblank.
    - specialize (Hhead c eq_refl Hc).
      destruct (replace_loop indentRe lf n (prev σ') (c :: tl)) as [|c' t'] eqn:Et;
        [done|]. injection Hhead as ->.
      change (lf ++ c :: t') with (10%N :: c :: t').
      destruct Ht as [Hb Hl]. split_and!.
      + split.
        * intros [|i] Hi; cbn [lookup list_lookup] in *; [done|]. by apply Hb.
        * intros [|i] Hi; cbn [lookup list_lookup] in *; [by exists c|]. by apply Hl.
      + by left.
      + intros z [= <-] Hz. congruence. }
  destruct (decide (a = 10%N)) as [->|Ha].
  { destruct (longest_run is_space s) as (u & tl & -> & Hu & Htl).
    refine (Hstep u tl _ _ eq_refl _ Hu Htl (indent_at_lf _ _ _ Hu Htl) eq_refl eq_refl).
    - cbn [length]. rewrite length_app.
      replace (S (length u + length tl) - (length u + length tl)) with 1 by lia.
      done.
    - cbn [length].
      replace (S (length (u ++ tl)) - length (u ++ tl)) with 1 by lia.
      cbn [take]. by intros x ->%list_elem_of_singleton. }
  destruct (decide (a = 13%N ∧ head s = Some 10%N)) as [[-> Hs]|Hno].
  { destruct s as [|b s]; [done|]. injection Hs as ->.
    destruct (longest_run is_space s) as (u & tl & -> & Hu & Htl).
    refine (Hstep u tl _ _ eq_refl _ Hu Htl (indent_at_crlf _ _ _ Hu Htl) eq_refl eq_refl).
    - cbn [length]. rewrite length_app.
      replace (S (S (length u + length tl)) - (length u + length tl)) with 2 by lia.
      done.
    - cbn [length].
      replace (S (S (length (u ++ tl))) - length (u ++ tl)) with 2 by lia.
      cbn [take]. intros x [->|[->|?%elem_of_nil]%elem_of_cons]%elem_of_cons; done. }
  rewrite replace_next; [|apply indent_none; [done|tauto]|simpl in Hn; lia].
  destruct (IH (Some a) s) as ((Hb & Hl) & Hh & Hhead).
  - simpl in Hn. lia.
  - intros c Hc. apply Hlast. rewrite last_cons, Hc. done.
  - intros i Hi. by apply (Hblank (S i)).
  - split_and!.
    + split.
      * intros [|i] Hi; [|by apply Hb].
        injection Hi as ->.
        change ((32%N :: ?t) !! 1) with (t !! 0). rewrite <-head_lookup.
        destruct Hh as [-> | ->]; [done|].
        specialize (Hblank 0 eq_refl). by destruct s.
      * intros [|i] Hi; cbn [lookup list_lookup] in *; [congruence|]. by apply Hl.
    + by right.
    + by intros c [= <-] _.
Qed.

Lemma not_space_not_blank c : is_space c = false → N.eqb 32 c = false.
Proof. intros H. destruct (N.eqb_spec 32 c) as [<-|]; [done|done]. Qed.

Lemma normalised_script_text sql :
  trimmed sql → sql ≠ [] →
  let t := replace_all indentRe lf (replace_all blanksRe (txt " ") sql) in
  script_text t ∧ ∃ c, head t = Some c ∧ is_space c = false.
Proof.
  intros [Hh Hl] Hne. cbv zeta. unfold blanksRe, chr.
  rewrite replace_all_class. change (txt " ") with [32%N].
  set (u := squash (N.eqb 32) [32%N] false sql).
  destruct (squash_apart_class (N.eqb 32) 32%N sql eq_refl false) as [Hap _].
  fold u in Hap.
  destruct sql as [|c sql]; [done|]. pose proof (Hh c eq_refl) as Hc.
  assert (Hu : head u = Some c).
  { subst u. cbn [squash]. by rewrite (not_space_not_blank c Hc). }
  destruct (replace_indent (S (length u)) None u) as (Ht & _ & Hhead).
  - lia.
  - intros z Hz. destruct (last (c :: sql)) as [y|] eqn:Ey; [|by apply last_None in Ey].
    pose proof (Hl y eq_refl) as Hy.
    pose proof (squash_last_class (N.eqb 32) [32%N] (c :: sql) y Ey
                  (not_space_not_blank y Hy)) as Hlast.
    fold u in Hlast. congruence.
  - intros i Hi Hi'. by pose proof (Hap i _ _ Hi Hi' eq_refl).
  - split; [exact Ht|]. exists c. split; [|done]. by apply Hhead.
Qed.

Lemma script_of_well_formed stageName xml sqlType :
  stageName ≠ [] → sqlType ∈ script_kinds →
  Forall script_well_formed (script_of stageName xml sqlType).
Proof.
  intros Hn Hk. unfold script_of. destruct (re_match _ _) as [m|]; [|constructor].
  cbv zeta. destruct (re_test sqlVerbRe (trim (grp m 1))) eqn:Et; [|constructor].
  constructor; [|constructor].
  destruct (normalised_script_text (trim (grp m 1))) as [H1 H2].
  - apply trim_trimmed.
  - intros E. by rewrite E in Et.
  - by split_and!.
Qed.

Lemma scripts_of_block_well_formed stageName xml :
  stageName ≠ [] → Forall script_well_formed (scripts_of_block stageName xml).
Proof.
  intros Hn. unfold scripts_of_block. cbn [flat_map]. rewrite app_nil_r.
  rewrite !Forall_app. split_and!; (apply script_of_well_formed; [done|]);
    unfold script_kinds;
    repeat first [apply list_elem_of_here | apply list_elem_of_further].
Qed.

(** X23.  Every SQL script of an extracted job has a non-empty stage, one of
    the three script types, and a text that starts with a character that is
    not white space, never has two blanks in a row, and in which every line
    feed is followed by a character that is not white space: no indentation,
    no empty line, no line feed at the end. *)
Theorem scripts_are_normalised now doc flag r :
  extractDSXJobInfo now doc flag = Some r →
  Forall script_well_formed (sql_scripts r).
Proof.
  intros Hr.
  apply (block_results now doc flag r (λ _, True) (λ _, True) script_well_formed)
    in Hr as (_ & _ & ?); [done|..].
  - intros. by apply Forall_forall.
  - intros. by apply Forall_forall.
  - done.
  - intros n xml Hn. by apply scripts_of_block_well_formed.
Qed.

Lemma scripts_are_normalised_witness :
  ∃ r, extractDSXJobInfo [] doc_customer_load false = Some r ∧
       map q_sql (sql_scripts r) =
         [txt "DELETE FROM DW.CUSTOMERS" ++ lf ++ txt "WHERE LOADED = 1"] ∧
       Forall script_well_formed (sql_scripts r).
Proof.
  destruct (extractDSXJobInfo [] doc_customer_load false) as [r|] eqn:E;
    [|vm_compute in E; discriminate E].
  exists r. split; [reflexivity|]. split.
  - vm_compute in E. injection E as <-. reflexivity.
  - exact (scripts_are_normalised [] doc_customer_load false r E).
Defined.

(** ** Sources *)

Lemma clauses_trimmed ms :
  Forall (λ c, c ≠ [] ∧ trimmed c) (filter_map clause_of_match ms).
Proof.
  apply Forall_forall. intros c (mt & _ & H)%filter_map_elem.
  unfold clause_of_match in H.
  destruct (nonempty (trim (grp mt 1))) eqn:E; [|done]. injection H as <-.
  split; [by intros E'; rewrite E' in E|apply trim_trimmed].
Qed.

Lemma extractWhereClauses_trimmed sql w :
  extractWhereClauses sql = Some w → Forall (λ c, c ≠ [] ∧ trimmed c) w.
Proof.
  unfold extractWhereClauses. destruct (exec_all whereRegex sql) as [ms|]; [|done].
  intros [= <-]. apply clauses_trimmed.
Qed.

Lemma source_of_block_well_formed stm stageName xml srcs :
  stageName ≠ [] →
  source_of_block stm stageName xml = Some srcs →
  Forall source_well_formed srcs.
Proof.
  unfold source_of_block. intros Hname H.
  set (sql := normalize_select <$> cdata_of "SelectStatement" true xml) in *.
  destruct (match sql with Some q => _ | None => _ end) as [w|] eqn:Ew; [|done].
  simpl in H. inversion H; subst; clear H.
  destruct (_ || _) eqn:Ekeep; [|constructor].
  constructor; [|constructor]. unfold source_well_formed. simpl in *.
  split_and!.
  - done.
  - intros q Hq. subst sql.
    destruct (cdata_of "SelectStatement" true xml) as [raw|]; [|done].
    injection Hq as <-. apply normalize_select_spaces.
  - intros w'. destruct (0 <? length w) eqn:El; [|done].
    intros [= <-]. split; [by intros ->|].
    destruct sql as [q|]; [by eapply extractWhereClauses_trimmed|].
    injection Ew as <-. constructor.
  - rewrite orb_false_r in Ekeep.
    destruct sql as [[|x q]|] eqn:Esql; simpl in *.
    + right. rewrite extractWhereClauses_empty in Ew. injection Ew as <-.
      destruct (cdata_of "TableName" false xml) as [[|y t]|]; try done.
      eexists. split_and!; [done|done|by right|done].
    + left. eexists. by split_and!.
    + right. injection Ew as <-.
      destruct (cdata_of "TableName" false xml) as [[|y t]|]; try done.
      eexists. split_and!; [done|done|by left|done].
Qed.

(** X24.  Every source of an extracted job is well formed: a non-empty name,
    an SQL text whose only white space is the blank, clauses that are
    non-empty and trimmed, and either a statement and no table, or a table and
    no statement to speak of. *)
Theorem sources_are_well_formed now doc flag r :
  extractDSXJobInfo now doc flag = Some r →
  Forall source_well_formed (sources r).
Proof.
  intros Hr.
  apply (block_results now doc flag r source_well_formed (λ _, True) (λ _, True))
    in Hr as (? & _); [done|..].
  - intros stm n xml srcs Hn. by apply source_of_block_well_formed.
  - intros. by apply Forall_forall.
  - done.
  - intros. by apply Forall_forall.
Qed.

Lemma sources_are_well_formed_witness :
  ∃ r, extractDSXJobInfo [] doc_customer_extract false = Some r ∧
       sources r ≠ [] ∧ Forall source_well_formed (sources r).
Proof.
  destruct (extractDSXJobInfo [] doc_customer_extract false) as [r|] eqn:E;
    [|vm_compute in E; discriminate E].
  exists r. split; [reflexivity|]. split.
  - vm_compute in E. injection E as <-. discriminate.
  - exact (sources_are_well_formed [] doc_customer_extract false r E).
Defined.

(** * Entity names and select statements

    Two results that rest on the lemmas on fields and on replacements of
    the previous part. *)

(** ** Where a dataset target takes its name *)

Lemma Sem_lit_inv w : ∀ σ c σ' c',
  Sem (lit w) σ c σ' c' →
  c' = c ∧ rest σ = w ++ rest σ' ∧ σ' = after σ w (rest σ').
Proof.
  induction w as [|x w IH]; intros σ c σ' c' H; cbn [lit] in H.
  - inversion H; subst. split_and!; [done|done|]. by rewrite after_nil.
  - apply Sem_Seq_inv in H as (σ1 & c1 & Ha & Hb).
    apply Sem_Chr_inv in Ha as (-> & ch & Er & Hch & Hp).
    apply IH in Hb as (-> & Er' & ->).
    apply N.eqb_eq in Hch as <-.
    split_and!; [done|by rewrite Er, Er'|].
    unfold after. cbn [rest prev]. rewrite last_cons, Hp. by destruct (last w).
Qed.

(** what a match of a quoted field has read *)
Lemma quoted_field_Sem_inv k σ σ' c' :
  Sem (quoted_field k) σ ∅ σ' c' →
  ∃ v, rest σ = (txt k ++ txt " " ++ dq) ++ v ++ dq ++ rest σ' ∧
       v ≠ [] ∧ (34%N ∉ v) ∧ c' !! 1 = Some v.
Proof.
  unfold quoted_field.
  intros (σ1 & c1 & Ha & (σ2 & c2 & Hb & Hc)%Sem_Seq_inv)%Sem_Seq_inv.
  apply Sem_lit_inv in Ha as (-> & Er & _).
  apply Sem_Group_inv in Hb as (c3 & Hb & ->).
  apply Sem_plus_class in Hb as (-> & u & Hu & Eu & Hall & Ea).
  apply Sem_lit_inv in Hc as (-> & Ec & _).
  exists u. rewrite Ea, consumed_after by done.
  split_and!.
  - rewrite Er, Eu, Ec. by rewrite <-!(assoc_L (++)).
  - done.
  - intros Hin. apply (proj1 (Forall_forall _ _) Hall) in Hin.
    by rewrite N.eqb_refl in Hin.
  - by rewrite lookup_insert_eq.
Qed.

Lemma quoted_field_read k s :
  field_read k s ((λ mt, grp mt 1) <$> re_match (quoted_field k) s).
Proof.
  unfold re_match. destruct (search (quoted_field k) 0 None s) as [mt|] eqn:E;
    cbn [fmap option_fmap option_map field_read].
  - pose proof (search_sound _ _ _ _ _ E) as (pre & Es & Hi & HS).
    apply quoted_field_Sem_inv in HS as (v & Er & Hv & Hq & Hc).
    cbn [rest after] in Er.
    exists pre, (rest (m_after mt)).
    assert (Hg : grp mt 1 = v) by (unfold grp, cap; by rewrite Hc).
    rewrite Hg. split.
    + split_and!; [|done|done]. by rewrite Es, Er.
    + intros pre' v' post' (Es' & Hv' & Hq').
      destruct (decide (length pre ≤ length pre')) as [|Hlt]; [done|exfalso].
      pose proof (search_skipped _ _ _ _ _ E pre' _ Es' ltac:(lia)) as Hno.
      unfold after at 1 in Hno.
      by rewrite (quoted_field_here k _ v' post' Hv' Hq') in Hno.
  - intros pre v post (Es & Hv & Hq).
    pose proof (search_none _ _ _ _ E pre _ Es) as Hno.
    unfold after at 1 in Hno.
    by rewrite (quoted_field_here k _ v post Hv Hq) in Hno.
Qed.

(** every match of a loop stands where it was found *)
Lemma exec_loop_positions re sql (P : rmatch_result → Prop) :
  (∀ pre t mt,
     sql = pre ++ t → m_index mt = length pre →
     rmatch re found (mkst (last pre) t) ∅ = Some (m_after mt, m_caps mt) →
     P mt) →
  ∀ fuel read s l,
    sql = read ++ s →
    exec_loop re fuel (length read) (last read) s = Some l → Forall P l.
Proof.
  intros HP. induction fuel as [|fuel IH]; intros read s l Hs H; [done|].
  simpl in H. destruct (search re (length read) (last read) s) as [mt|] eqn:E;
    [|inversion H; constructor].
  destruct (_ <? _); [|done].
  destruct (exec_loop re fuel _ _ _) as [l'|] eqn:E'; [|done].
  inversion H; subst l; clear H.
  apply search_inv in E as (pre & t & Est & Hidx & Hm & Htext).
  rewrite after_last in Hm, Htext. subst s.
  constructor.
  - apply (HP (read ++ pre) t); [by rewrite <-(assoc_L (++))| |done].
    by rewrite length_app.
  - pose proof Hm as (σ1 & c1 & HS & [= -> ->])%rmatch_sound.
    apply Sem_consumed in HS as (Er & Ea & _). simpl in Er.
    rewrite after_last in Ea.
    rewrite <-Htext in Er, Ea.
    apply (IH ((read ++ pre) ++ m_text mt) (rest (m_after mt))).
    + rewrite Hs, Er. by rewrite <-!(assoc_L (++)).
    + apply (f_equal prev) in Ea. simpl in Ea. rewrite <-Ea.
      replace (length ((read ++ pre) ++ m_text mt)) with (m_end mt); [exact E'|].
      unfold m_end. rewrite Hidx, !length_app. lia.
Qed.

Lemma substring_before pre post :
  substring (length pre - 500) (length pre) (pre ++ post) =
  drop (length pre - 500) pre.
Proof.
  unfold substring. rewrite drop_app_le by lia.
  rewrite take_app_length'; [done|]. rewrite length_drop. lia.
Qed.

(** where a dataset target comes from, and how it gets its name *)
Lemma dataset_targets_read doc ms :
  exec_all datasetRegex doc = Some ms →
  Forall (λ t, ∃ d pre post,
            t = OfDataset d ∧ doc = pre ++ dataset_field ++ post ∧
            field_read "Name" (drop (length pre - 500) pre) (d_name d))
         (map (dataset_target doc) ms).
Proof.
  intros H. apply Forall_fmap. unfold exec_all in H.
  refine (exec_loop_positions datasetRegex doc _ _ _ [] doc ms eq_refl H).
  intros pre t mt Hs Hidx Hm. cbn [compose].
  unfold datasetRegex, named_value in Hm.
  rewrite rmatch_seq, rmatch_lit in Hm.
  destruct (starts_with _ t) eqn:Et; [|done].
  apply starts_with_app in Et as (post & ->).
  eexists _, pre, post. split; [reflexivity|]. split; [exact Hs|].
  cbn [d_name]. rewrite Hidx, Hs, substring_before. apply quoted_field_read.
Qed.

Lemma target_of_block_tables stm stageName xml :
  Forall (λ t, ∃ tgt, t = OfTable tgt) (target_of_block stm stageName xml).
Proof.
  eapply Forall_impl; [apply target_of_block_names|].
  intros t (tgt & -> & _). by exists tgt.
Qed.

Lemma process_blocks_tables stm doc xs srcs tgts qs :
  process_blocks stm doc xs = Some (srcs, tgts, qs) →
  Forall (λ t, ∃ tgt, t = OfTable tgt) tgts.
Proof.
  intros H.
  apply (process_blocks_Forall stm doc (λ _, True) (λ t, ∃ tgt, t = OfTable tgt)
           (λ _, True)) in H as (_ & H & _); [done|].
  intros m s t q Hb. split_and!; [by apply Forall_forall| |by apply Forall_forall].
  unfold process_block in Hb.
  destruct (re_match nameRe _); [|injection Hb as <- <- <-; constructor].
  destruct (re_match contextRe _); [|injection Hb as <- <- <-; constructor].
  destruct (bool_decide (_ = Some 1%Z));
    [destruct (source_of_block _ _ _); [|done]|];
    cbn [mbind option_bind] in Hb; injection Hb as <- <- <-;
    (destruct (bool_decide (_ = Some 2%Z)); [apply target_of_block_tables|constructor]).
Qed.



(** ** The select statement of a source and its WHERE clauses *)

Lemma after_comment_end_some s rest :
  after_comment_end s = Some rest →
  ∃ u, s = u ++ txt "*/" ++ rest ∧
       ∀ j, j < length u → starts_with (txt "*/") (drop j s) = false.
Proof.
  revert rest. induction s as [|ch tl IH]; intros rest; [done|].
  cbn [after_comment_end].
  destruct (starts_with (txt "*/") (ch :: tl)) eqn:E.
  - intros [= <-]. exists []. split; [|intros j Hj; simpl in Hj; lia].
    apply starts_with_app in E as (t & Et). injection Et as -> ->. reflexivity.
  - intros (u & Eu & Hu)%IH. exists (ch :: u). split; [by rewrite Eu at 1|].
    intros [|j] Hj; [exact E|]. simpl in Hj. apply Hu. lia.
Qed.

Lemma after_comment_end_none s :
  after_comment_end s = None →
  ∀ j, starts_with (txt "*/") (drop j s) = false.
Proof.
  induction s as [|ch tl IH]; [by intros _ [|j]|]. cbn [after_comment_end].
  destruct (starts_with (txt "*/") (ch :: tl)) eqn:E; [done|].
  intros H [|j]; [exact E|]. by apply IH.
Qed.

(** a lazy run after which nothing ever succeeds *)
Lemma lazy_nowhere {R} f (k : st → caps → option R) c : ∀ n p s,
  (∀ j, k (after (mkst p s) (take j s) (drop j s)) c = None) →
  star_loop (rmatch (Chr f)) false k n (mkst p s) c = None.
Proof.
  induction n as [|n IH]; intros p s H.
  - cbn [star_loop]. specialize (H 0). by rewrite after_nil in H.
  - rewrite lazy_step. pose proof (H 0) as H0. rewrite after_nil in H0.
    rewrite H0. destruct s as [|ch tl]; [done|]. destruct (f ch); [|done].
    apply IH. intros j. specialize (H (S j)). cbn [take drop] in H.
    by rewrite (after_step p _ tl) in H.
Qed.

Lemma comment_here p u tail :
  Forall (λ x, negb (is_line_terminator x) = true) u →
  (∀ j, j < length u → starts_with (txt "*/") (drop j (u ++ txt "*/" ++ tail)) = false) →
  rmatch commentRe found (mkst p (txt "/*" ++ u ++ txt "*/" ++ tail)) ∅ =
  Some (mkst (Some 47%N) tail, ∅).
Proof.
  intros Hu Hno. unfold commentRe. apply seq_lit.
  unfold after at 1. rewrite rmatch_seq, rmatch_star. unfold dot.
  apply lazy_first; [done|cbn [rest]; lia| |].
  - unfold after at 1. rewrite rmatch_lit.
    change (starts_with (txt "*/") (txt "*/" ++ tail)) with true. cbn iota.
    reflexivity.
  - intros j Hj. unfold after at 1. rewrite rmatch_lit.
    specialize (Hno j Hj). rewrite drop_app_le in Hno by lia. by rewrite Hno.
Qed.

Lemma comment_not_open p s :
  starts_with (txt "/*") s = false → rmatch commentRe found (mkst p s) ∅ = None.
Proof. intros H. unfold commentRe. by rewrite rmatch_seq, rmatch_lit, H. Qed.

Lemma comment_not_closed p s :
  (∀ j, starts_with (txt "*/") (drop j (drop 2 s)) = false) →
  rmatch commentRe found (mkst p s) ∅ = None.
Proof.
  intros H. unfold commentRe. rewrite rmatch_seq, rmatch_lit.
  destruct (starts_with (txt "/*") s); [|done].
  unfold after at 1. rewrite rmatch_seq, rmatch_star. unfold dot.
  apply lazy_nowhere. intros j. unfold after at 1. rewrite rmatch_lit.
  change (length (txt "/*")) with 2. by rewrite H.
Qed.

(** the replacement of the comments of a text of one line *)
Lemma strip_comments_replace : ∀ n m p s,
  length s < n → length s ≤ m →
  Forall (λ x, negb (is_line_terminator x) = true) s →
  replace_loop commentRe [] n p s = strip_comments_go m s.
Proof.
  induction n as [|n IH]; intros m p s Hn Hm Hs; [lia|].
  destruct s as [|ch tl].
  { rewrite replace_loop_unfold, search_nowhere; [by destruct m|].
    intros a b Hab. destruct a; [|done]. simpl in Hab. subst b.
    unfold after. by apply comment_not_open. }
  destruct m as [|m]; [simpl in Hm; lia|]. cbn [strip_comments_go].
  destruct (starts_with (txt "/*") (ch :: tl)) eqn:Eo.
  - destruct (after_comment_end (drop 2 (ch :: tl))) as [tail|] eqn:Ec.
    + apply starts_with_app in Eo as (s2 & Es2).
      apply after_comment_end_some in Ec as (u & Eu & Hno).
      rewrite Es2 in Eu, Hno. change (drop 2 (txt "/*" ++ s2)) with s2 in Eu, Hno.
      rewrite Es2, Eu in Hs. rewrite Es2, Eu.
      apply Forall_app in Hs as [_ [Hu [_ Htail]%Forall_app]%Forall_app].
      rewrite Eu in Hno.
      pose proof (comment_here p u tail Hu Hno) as Hm'.
      pose proof (match_here_shorter commentRe _ _ _ _ ltac:(vm_compute; lia) Hm')
        as [Hne Hlt].
      rewrite (replace_here _ _ _ _ _ _ _ Hm' Hne). cbn [rest prev app].
      cbn [rest] in Hlt.
      assert (Hlen : length (ch :: tl) = length (txt "/*" ++ u ++ txt "*/" ++ tail))
        by (by rewrite Es2, Eu).
      apply IH; [lia|lia|done].
    + pose proof (after_comment_end_none _ Ec) as Hno.
      rewrite replace_next; [|by apply comment_not_closed|simpl in Hn; lia].
      f_equal. inversion Hs; subst. apply IH; [simpl in Hn; lia|simpl in Hm; lia|done].
  - rewrite replace_next; [|by apply comment_not_open|simpl in Hn; lia].
    f_equal. inversion Hs; subst. apply IH; [simpl in Hn; lia|simpl in Hm; lia|done].
Qed.

Lemma line_terminator_is_space c :
  is_line_terminator c = true → is_space c = true.
Proof.
  unfold is_line_terminator, is_space.
  destruct (c =? 10)%N, (c =? 13)%N, (c =? 8232)%N, (c =? 8233)%N;
    rewrite ?orb_true_r; simpl; try done.
Qed.

(** what the code makes of a statement is what the words say *)
Lemma normalize_select_normalised raw :
  normalize_select raw = normalised_select raw.
Proof.
  unfold normalize_select, normalised_select, spacesRe, ws.
  rewrite replace_all_class. unfold replace_all, strip_comments.
  apply strip_comments_replace; [lia|lia|].
  eapply Forall_impl; [apply squash_spaces|]. intros c Hc.
  destruct (is_line_terminator c) eqn:E; [|done].
  pose proof (Hc (line_terminator_is_space c E)) as ->. done.
Qed.

Lemma filter_map_clauses ms : filter_map clause_of_match ms = kept_clauses ms.
Proof.
  unfold kept_clauses. induction ms as [|m ms IH]; [done|].
  cbn [filter_map map]. unfold clause_of_match at 1.
  destruct (trim (grp m 1)) as [|c w] eqn:E; cbn [nonempty].
  - rewrite filter_cons_False by (intros H; by apply H). exact IH.
  - rewrite filter_cons_True by done. by rewrite IH.
Qed.

(** the source of a block with a select statement that is not blank *)
Lemma source_of_select stm stageName xml raw ms :
  cdata_of "SelectStatement" true xml = Some raw →
  normalize_select raw ≠ [] →
  exec_all whereRegex (normalize_select raw) = Some ms →
  source_of_block stm stageName xml =
    Some [ {| s_name := stageName;
              s_type := or_value (obj_get stm stageName) (txt "source");
              s_columns := [];
              s_sql := Some (normalize_select raw);
              s_where_clauses :=
                match kept_clauses ms with
                | [] => None
                | clauses => Some clauses
                end;
              s_table := None;
              s_connection := redact <$> cdata_of "Server" false xml;
              s_database := cdata_of "Database" false xml |} ].
Proof.
  intros Hsel Hne Hms. unfold source_of_block. rewrite Hsel.
  change (normalize_select <$> Some raw) with (Some (normalize_select raw)).
  cbv beta iota zeta. unfold extractWhereClauses. rewrite Hms.
  cbn [fmap option_fmap option_map mbind option_bind].
  rewrite filter_map_clauses.
  destruct (normalize_select raw) as [|ch sql]; [done|].
  by destruct (kept_clauses ms).
Qed.

Lemma where_occurs_not_empty sql i : where_occurs_at sql i → sql ≠ [].
Proof.
  intros (pre & kw & sp & body & tail & -> & _ & _ & Hkw & _) E.
  apply app_eq_nil in E as [_ [-> _]%app_eq_nil]. done.
Qed.



